(** * TinyFrame (TypeScript port): a shallow embedding of [src/index.ts]

    The development follows the source file top to bottom: the byte-buffer
    helpers, the [Message] class, the listener entries, the [TinyFrame]
    engine with its composer ([composeHead], [sendFrame]) and its
    byte-at-a-time parser ([acceptByte], [handleReceived]), and [tick].

    Modelling conventions.
    - A JavaScript [number] is a [Z]; this is exact for integers below 2^53
      in magnitude, and the two counters ([nextID], [parserTimeoutTicks]) are
      taken to stay below that.  The 32-bit operators ([<<], [|], [&],
      [>>>]) are written out with their [ToInt32]/[ToUint32] conversions.
    - A [Uint8Array] and the parser's [number[]] buffer are [list Z]; a
      store into a [Uint8Array] truncates with [ToUint8], and a store outside
      its bounds does nothing, which is what stdpp's list insert does.
    - Field widths ([idSize], [lenSize], [typeSize], [checksum.size]) and the
      parser's [partLen] are byte counts, hence [nat].
    - [sofByte] and [parserTimeout] are [option Z]: [None] stands for [null]
      and for every value that [Number.isFinite] rejects.
    - A listener object is identified by a [ListenerRef] (JavaScript compares
      listeners by reference); what the listener's callback does, including
      calling back into the engine and mutating the message it is handed, is
      given by an environment [run] of state transformers.
    - The transport sink and the two arbitration hooks are external: a call
      is recorded as an event of the transmit trace.  The sink installed by
      the constructor throws. *)

From Stdlib Require Import String.
From stdpp Require Import base numbers list.

Local Open Scope Z_scope.

(** ** JavaScript integer conversions and 32-bit operators *)

Definition ToUint32 (x : Z) : Z := x mod 2 ^ 32.

Definition ToInt32 (x : Z) : Z := (x + 2 ^ 31) mod 2 ^ 32 - 2 ^ 31.

Definition ToUint8 (x : Z) : Z := x mod 256.

(** [a << n] *)
Definition js_shl (a n : Z) : Z := ToInt32 (Z.shiftl (ToInt32 a) (n mod 32)).

(** [a >>> n] *)
Definition js_ushr (a n : Z) : Z := Z.shiftr (ToUint32 a) (n mod 32).

(** [a | b] *)
Definition js_or (a b : Z) : Z := Z.lor (ToInt32 a) (ToInt32 b).

(** [a & b] *)
Definition js_and (a b : Z) : Z := Z.land (ToInt32 a) (ToInt32 b).

(** ** Byte-buffer helpers *)

(** [new Uint8Array(n)] *)
Definition new_Uint8Array (n : nat) : list Z := replicate n 0.

(** [Uint8Array.from(numbers)], the branch of [toUint8Array] taken for the
    parser's [number[]]. *)
Definition toUint8Array (numbers : list Z) : list Z := map ToUint8 numbers.

(** [target[index] = value] on a [Uint8Array]. *)
Definition uint8_store (target : list Z) (index : nat) (value : Z) : list Z :=
  <[index := ToUint8 value]> target.

(** The loop of [writeUIntBE]: [i] iterations remain, for the indices
    [i - 1] down to [0]. *)
Fixpoint writeUIntBE_loop (target : list Z) (offset : nat) (current : Z) (i : nat)
  : list Z :=
  match i with
  | O => target
  | S i' =>
      writeUIntBE_loop (uint8_store target (offset + i') (js_and current 255))
                       offset (js_ushr current 8) i'
  end.

Definition writeUIntBE (target : list Z) (offset : nat) (value : Z) (byteLength : nat)
  : list Z * nat :=
  (writeUIntBE_loop target offset (js_ushr value 0) byteLength,
   (offset + byteLength)%nat).

Definition concatUint8 (chunks : list (list Z)) : list Z := concat chunks.

(** [array.subarray(begin, end)]: negative positions count from the end and
    both positions are clamped to the array. *)
Definition clamp_index (n : Z) (i : Z) : Z :=
  if i <? 0 then Z.max (n + i) 0 else Z.min i n.

Definition subarray (array : list Z) (begin_ end_ : Z) : list Z :=
  let n := Z.of_nat (length array) in
  let b := clamp_index n begin_ in
  let e := clamp_index n end_ in
  take (Z.to_nat (e - b)) (drop (Z.to_nat b) array).

(** ** Message *)

Module Message.
Record t := Build
  { frameID : Z;
    type : Z;
    data : list Z;
    isResponse : bool }.

(** [new Message(type, data)] for a [Uint8Array] payload. *)
Definition new (type : Z) (data : list Z) : t :=
  {| frameID := 0; type := type; data := data; isResponse := false |}.

Definition set_frameID (v : Z) (m : t) : t :=
  {| frameID := v; type := type m; data := data m; isResponse := isResponse m |}.

Definition set_isResponse (v : bool) (m : t) : t :=
  {| frameID := frameID m; type := type m; data := data m; isResponse := v |}.

Definition createResponse (this : t) (data : list Z) : t :=
  let message := new (type this) data in
  let message := set_frameID (frameID this) message in
  set_isResponse true message.
End Message.

(** ** Checksum strategy

    [src/checksum.ts] is not part of the sources at hand; the engine only
    uses the two members of the [TinyFrameChecksum] interface. *)

Module Checksum.
Record t := Build
  { size : nat;
    sum : list Z -> Z }.
End Checksum.

(** ** Listener entries *)

Definition ListenerRef := nat.

Module IDListenerEntry.
Record t := Build
  { id : Z;
    callback : ListenerRef;
    timeout : option Z;
    maxTimeout : option Z }.

Definition set_timeout (v : option Z) (e : t) : t :=
  {| id := id e; callback := callback e; timeout := v; maxTimeout := maxTimeout e |}.
End IDListenerEntry.

Module TypedListenerEntry.
Record t := Build
  { type : Z;
    callback : ListenerRef }.
End TypedListenerEntry.

(** ** The engine *)

Inductive TinyFrameState :=
| st_sof | st_id | st_len | st_type | st_headcksum | st_data | st_datacksum.

(** The [write] member: the constructor's default, which throws, or a sink
    assigned by the user. *)
Inductive WriteSink := NoWriteImplementation | Transport.

Record TinyFrame := Build_TinyFrame
  { peer : Z;
    nextID : Z;
    state : TinyFrameState;
    parserTimeoutTicks : Z;
    parserTimeout : option Z;
    sofByte : option Z;
    chunkSize : Z;
    checksum : option Checksum.t;
    idSize : nat;
    lenSize : nat;
    typeSize : nat;
    partLen : nat;
    currentID : Z;
    len : Z;
    currentType : Z;
    cksum : Z;
    data : list Z;
    idListeners : list IDListenerEntry.t;
    typeListeners : list TypedListenerEntry.t;
    genericListeners : list ListenerRef;
    write : WriteSink }.

Definition set_peer (v : Z) (tf : TinyFrame) : TinyFrame :=
  {| peer := v; nextID := nextID tf; state := state tf;
     parserTimeoutTicks := parserTimeoutTicks tf; parserTimeout := parserTimeout tf;
     sofByte := sofByte tf; chunkSize := chunkSize tf; checksum := checksum tf;
     idSize := idSize tf; lenSize := lenSize tf; typeSize := typeSize tf;
     partLen := partLen tf; currentID := currentID tf; len := len tf;
     currentType := currentType tf; cksum := cksum tf; data := data tf;
     idListeners := idListeners tf; typeListeners := typeListeners tf;
     genericListeners := genericListeners tf; write := write tf |}.

Definition set_nextID (v : Z) (tf : TinyFrame) : TinyFrame :=
  {| peer := peer tf; nextID := v; state := state tf;
     parserTimeoutTicks := parserTimeoutTicks tf; parserTimeout := parserTimeout tf;
     sofByte := sofByte tf; chunkSize := chunkSize tf; checksum := checksum tf;
     idSize := idSize tf; lenSize := lenSize tf; typeSize := typeSize tf;
     partLen := partLen tf; currentID := currentID tf; len := len tf;
     currentType := currentType tf; cksum := cksum tf; data := data tf;
     idListeners := idListeners tf; typeListeners := typeListeners tf;
     genericListeners := genericListeners tf; write := write tf |}.

Definition set_state (v : TinyFrameState) (tf : TinyFrame) : TinyFrame :=
  {| peer := peer tf; nextID := nextID tf; state := v;
     parserTimeoutTicks := parserTimeoutTicks tf; parserTimeout := parserTimeout tf;
     sofByte := sofByte tf; chunkSize := chunkSize tf; checksum := checksum tf;
     idSize := idSize tf; lenSize := lenSize tf; typeSize := typeSize tf;
     partLen := partLen tf; currentID := currentID tf; len := len tf;
     currentType := currentType tf; cksum := cksum tf; data := data tf;
     idListeners := idListeners tf; typeListeners := typeListeners tf;
     genericListeners := genericListeners tf; write := write tf |}.

Definition set_parserTimeoutTicks (v : Z) (tf : TinyFrame) : TinyFrame :=
  {| peer := peer tf; nextID := nextID tf; state := state tf; parserTimeoutTicks := v;
     parserTimeout := parserTimeout tf; sofByte := sofByte tf; chunkSize := chunkSize tf;
     checksum := checksum tf; idSize := idSize tf; lenSize := lenSize tf;
     typeSize := typeSize tf; partLen := partLen tf; currentID := currentID tf;
     len := len tf; currentType := currentType tf; cksum := cksum tf; data := data tf;
     idListeners := idListeners tf; typeListeners := typeListeners tf;
     genericListeners := genericListeners tf; write := write tf |}.

Definition set_parserTimeout (v : option Z) (tf : TinyFrame) : TinyFrame :=
  {| peer := peer tf; nextID := nextID tf; state := state tf;
     parserTimeoutTicks := parserTimeoutTicks tf; parserTimeout := v;
     sofByte := sofByte tf; chunkSize := chunkSize tf; checksum := checksum tf;
     idSize := idSize tf; lenSize := lenSize tf; typeSize := typeSize tf;
     partLen := partLen tf; currentID := currentID tf; len := len tf;
     currentType := currentType tf; cksum := cksum tf; data := data tf;
     idListeners := idListeners tf; typeListeners := typeListeners tf;
     genericListeners := genericListeners tf; write := write tf |}.

Definition set_sofByte (v : option Z) (tf : TinyFrame) : TinyFrame :=
  {| peer := peer tf; nextID := nextID tf; state := state tf;
     parserTimeoutTicks := parserTimeoutTicks tf; parserTimeout := parserTimeout tf;
     sofByte := v; chunkSize := chunkSize tf; checksum := checksum tf;
     idSize := idSize tf; lenSize := lenSize tf; typeSize := typeSize tf;
     partLen := partLen tf; currentID := currentID tf; len := len tf;
     currentType := currentType tf; cksum := cksum tf; data := data tf;
     idListeners := idListeners tf; typeListeners := typeListeners tf;
     genericListeners := genericListeners tf; write := write tf |}.

Definition set_chunkSize (v : Z) (tf : TinyFrame) : TinyFrame :=
  {| peer := peer tf; nextID := nextID tf; state := state tf;
     parserTimeoutTicks := parserTimeoutTicks tf; parserTimeout := parserTimeout tf;
     sofByte := sofByte tf; chunkSize := v; checksum := checksum tf; idSize := idSize tf;
     lenSize := lenSize tf; typeSize := typeSize tf; partLen := partLen tf;
     currentID := currentID tf; len := len tf; currentType := currentType tf;
     cksum := cksum tf; data := data tf; idListeners := idListeners tf;
     typeListeners := typeListeners tf; genericListeners := genericListeners tf;
     write := write tf |}.

Definition set_checksum (v : option Checksum.t) (tf : TinyFrame) : TinyFrame :=
  {| peer := peer tf; nextID := nextID tf; state := state tf;
     parserTimeoutTicks := parserTimeoutTicks tf; parserTimeout := parserTimeout tf;
     sofByte := sofByte tf; chunkSize := chunkSize tf; checksum := v; idSize := idSize tf;
     lenSize := lenSize tf; typeSize := typeSize tf; partLen := partLen tf;
     currentID := currentID tf; len := len tf; currentType := currentType tf;
     cksum := cksum tf; data := data tf; idListeners := idListeners tf;
     typeListeners := typeListeners tf; genericListeners := genericListeners tf;
     write := write tf |}.

Definition set_idSize (v : nat) (tf : TinyFrame) : TinyFrame :=
  {| peer := peer tf; nextID := nextID tf; state := state tf;
     parserTimeoutTicks := parserTimeoutTicks tf; parserTimeout := parserTimeout tf;
     sofByte := sofByte tf; chunkSize := chunkSize tf; checksum := checksum tf;
     idSize := v; lenSize := lenSize tf; typeSize := typeSize tf; partLen := partLen tf;
     currentID := currentID tf; len := len tf; currentType := currentType tf;
     cksum := cksum tf; data := data tf; idListeners := idListeners tf;
     typeListeners := typeListeners tf; genericListeners := genericListeners tf;
     write := write tf |}.

Definition set_lenSize (v : nat) (tf : TinyFrame) : TinyFrame :=
  {| peer := peer tf; nextID := nextID tf; state := state tf;
     parserTimeoutTicks := parserTimeoutTicks tf; parserTimeout := parserTimeout tf;
     sofByte := sofByte tf; chunkSize := chunkSize tf; checksum := checksum tf;
     idSize := idSize tf; lenSize := v; typeSize := typeSize tf; partLen := partLen tf;
     currentID := currentID tf; len := len tf; currentType := currentType tf;
     cksum := cksum tf; data := data tf; idListeners := idListeners tf;
     typeListeners := typeListeners tf; genericListeners := genericListeners tf;
     write := write tf |}.

Definition set_typeSize (v : nat) (tf : TinyFrame) : TinyFrame :=
  {| peer := peer tf; nextID := nextID tf; state := state tf;
     parserTimeoutTicks := parserTimeoutTicks tf; parserTimeout := parserTimeout tf;
     sofByte := sofByte tf; chunkSize := chunkSize tf; checksum := checksum tf;
     idSize := idSize tf; lenSize := lenSize tf; typeSize := v; partLen := partLen tf;
     currentID := currentID tf; len := len tf; currentType := currentType tf;
     cksum := cksum tf; data := data tf; idListeners := idListeners tf;
     typeListeners := typeListeners tf; genericListeners := genericListeners tf;
     write := write tf |}.

Definition set_partLen (v : nat) (tf : TinyFrame) : TinyFrame :=
  {| peer := peer tf; nextID := nextID tf; state := state tf;
     parserTimeoutTicks := parserTimeoutTicks tf; parserTimeout := parserTimeout tf;
     sofByte := sofByte tf; chunkSize := chunkSize tf; checksum := checksum tf;
     idSize := idSize tf; lenSize := lenSize tf; typeSize := typeSize tf; partLen := v;
     currentID := currentID tf; len := len tf; currentType := currentType tf;
     cksum := cksum tf; data := data tf; idListeners := idListeners tf;
     typeListeners := typeListeners tf; genericListeners := genericListeners tf;
     write := write tf |}.

Definition set_currentID (v : Z) (tf : TinyFrame) : TinyFrame :=
  {| peer := peer tf; nextID := nextID tf; state := state tf;
     parserTimeoutTicks := parserTimeoutTicks tf; parserTimeout := parserTimeout tf;
     sofByte := sofByte tf; chunkSize := chunkSize tf; checksum := checksum tf;
     idSize := idSize tf; lenSize := lenSize tf; typeSize := typeSize tf;
     partLen := partLen tf; currentID := v; len := len tf; currentType := currentType tf;
     cksum := cksum tf; data := data tf; idListeners := idListeners tf;
     typeListeners := typeListeners tf; genericListeners := genericListeners tf;
     write := write tf |}.

Definition set_len (v : Z) (tf : TinyFrame) : TinyFrame :=
  {| peer := peer tf; nextID := nextID tf; state := state tf;
     parserTimeoutTicks := parserTimeoutTicks tf; parserTimeout := parserTimeout tf;
     sofByte := sofByte tf; chunkSize := chunkSize tf; checksum := checksum tf;
     idSize := idSize tf; lenSize := lenSize tf; typeSize := typeSize tf;
     partLen := partLen tf; currentID := currentID tf; len := v;
     currentType := currentType tf; cksum := cksum tf; data := data tf;
     idListeners := idListeners tf; typeListeners := typeListeners tf;
     genericListeners := genericListeners tf; write := write tf |}.

Definition set_currentType (v : Z) (tf : TinyFrame) : TinyFrame :=
  {| peer := peer tf; nextID := nextID tf; state := state tf;
     parserTimeoutTicks := parserTimeoutTicks tf; parserTimeout := parserTimeout tf;
     sofByte := sofByte tf; chunkSize := chunkSize tf; checksum := checksum tf;
     idSize := idSize tf; lenSize := lenSize tf; typeSize := typeSize tf;
     partLen := partLen tf; currentID := currentID tf; len := len tf; currentType := v;
     cksum := cksum tf; data := data tf; idListeners := idListeners tf;
     typeListeners := typeListeners tf; genericListeners := genericListeners tf;
     write := write tf |}.

Definition set_cksum (v : Z) (tf : TinyFrame) : TinyFrame :=
  {| peer := peer tf; nextID := nextID tf; state := state tf;
     parserTimeoutTicks := parserTimeoutTicks tf; parserTimeout := parserTimeout tf;
     sofByte := sofByte tf; chunkSize := chunkSize tf; checksum := checksum tf;
     idSize := idSize tf; lenSize := lenSize tf; typeSize := typeSize tf;
     partLen := partLen tf; currentID := currentID tf; len := len tf;
     currentType := currentType tf; cksum := v; data := data tf;
     idListeners := idListeners tf; typeListeners := typeListeners tf;
     genericListeners := genericListeners tf; write := write tf |}.

Definition set_data (v : list Z) (tf : TinyFrame) : TinyFrame :=
  {| peer := peer tf; nextID := nextID tf; state := state tf;
     parserTimeoutTicks := parserTimeoutTicks tf; parserTimeout := parserTimeout tf;
     sofByte := sofByte tf; chunkSize := chunkSize tf; checksum := checksum tf;
     idSize := idSize tf; lenSize := lenSize tf; typeSize := typeSize tf;
     partLen := partLen tf; currentID := currentID tf; len := len tf;
     currentType := currentType tf; cksum := cksum tf; data := v;
     idListeners := idListeners tf; typeListeners := typeListeners tf;
     genericListeners := genericListeners tf; write := write tf |}.

Definition set_idListeners (v : list IDListenerEntry.t) (tf : TinyFrame) : TinyFrame :=
  {| peer := peer tf; nextID := nextID tf; state := state tf;
     parserTimeoutTicks := parserTimeoutTicks tf; parserTimeout := parserTimeout tf;
     sofByte := sofByte tf; chunkSize := chunkSize tf; checksum := checksum tf;
     idSize := idSize tf; lenSize := lenSize tf; typeSize := typeSize tf;
     partLen := partLen tf; currentID := currentID tf; len := len tf;
     currentType := currentType tf; cksum := cksum tf; data := data tf; idListeners := v;
     typeListeners := typeListeners tf; genericListeners := genericListeners tf;
     write := write tf |}.

Definition set_typeListeners (v : list TypedListenerEntry.t) (tf : TinyFrame) : TinyFrame :=
  {| peer := peer tf; nextID := nextID tf; state := state tf;
     parserTimeoutTicks := parserTimeoutTicks tf; parserTimeout := parserTimeout tf;
     sofByte := sofByte tf; chunkSize := chunkSize tf; checksum := checksum tf;
     idSize := idSize tf; lenSize := lenSize tf; typeSize := typeSize tf;
     partLen := partLen tf; currentID := currentID tf; len := len tf;
     currentType := currentType tf; cksum := cksum tf; data := data tf;
     idListeners := idListeners tf; typeListeners := v;
     genericListeners := genericListeners tf; write := write tf |}.

Definition set_genericListeners (v : list ListenerRef) (tf : TinyFrame) : TinyFrame :=
  {| peer := peer tf; nextID := nextID tf; state := state tf;
     parserTimeoutTicks := parserTimeoutTicks tf; parserTimeout := parserTimeout tf;
     sofByte := sofByte tf; chunkSize := chunkSize tf; checksum := checksum tf;
     idSize := idSize tf; lenSize := lenSize tf; typeSize := typeSize tf;
     partLen := partLen tf; currentID := currentID tf; len := len tf;
     currentType := currentType tf; cksum := cksum tf; data := data tf;
     idListeners := idListeners tf; typeListeners := typeListeners tf;
     genericListeners := v; write := write tf |}.

Definition set_write (v : WriteSink) (tf : TinyFrame) : TinyFrame :=
  {| peer := peer tf; nextID := nextID tf; state := state tf;
     parserTimeoutTicks := parserTimeoutTicks tf; parserTimeout := parserTimeout tf;
     sofByte := sofByte tf; chunkSize := chunkSize tf; checksum := checksum tf;
     idSize := idSize tf; lenSize := lenSize tf; typeSize := typeSize tf;
     partLen := partLen tf; currentID := currentID tf; len := len tf;
     currentType := currentType tf; cksum := cksum tf; data := data tf;
     idListeners := idListeners tf; typeListeners := typeListeners tf;
     genericListeners := genericListeners tf; write := v |}.


(** [new TinyFrame(peer)]; [peer] defaults to 1 when the argument is left
    out.  [xor] is [checksum.xor] of the checksum module. *)
Definition constructor (xor : Checksum.t) (peer_arg : option Z) : TinyFrame :=
  {| peer := match peer_arg with Some p => p | None => 1 end;
     nextID := 0;
     state := st_sof;
     parserTimeoutTicks := 0;
     parserTimeout := None;
     sofByte := None;
     chunkSize := 1024;
     checksum := Some xor;
     idSize := 4;
     lenSize := 4;
     typeSize := 4;
     partLen := 0;
     currentID := 0;
     len := 0;
     currentType := 0;
     cksum := 0;
     data := [];
     idListeners := [];
     typeListeners := [];
     genericListeners := [];
     write := NoWriteImplementation |}.

Definition resetParser (tf : TinyFrame) : TinyFrame :=
  set_partLen 0 (set_state st_sof tf).

(** [return this.nextID++] *)
Definition getNextID (tf : TinyFrame) : Z * TinyFrame :=
  (nextID tf, set_nextID (nextID tf + 1) tf).

(** *** Listener registry *)

Definition addIDListener (id : Z) (callback : ListenerRef) (timeout : option Z)
    (tf : TinyFrame) : TinyFrame :=
  set_idListeners
    (idListeners tf ++
       [ {| IDListenerEntry.id := id;
            IDListenerEntry.callback := callback;
            IDListenerEntry.timeout := timeout;
            IDListenerEntry.maxTimeout := timeout |} ])
    tf.

(** The body of the [for ... of] loop of [renewIDListener], at position [i]
    of the array; the entry is updated in place. *)
Definition renew_at (callback : ListenerRef) (listeners : list IDListenerEntry.t)
    (i : nat) : list IDListenerEntry.t :=
  match listeners !! i with
  | Some listener =>
      if (IDListenerEntry.callback listener =? callback)%nat
      then <[i := IDListenerEntry.set_timeout (IDListenerEntry.maxTimeout listener)
                    listener]> listeners
      else listeners
  | None => listeners
  end.

Definition renewIDListener (callback : ListenerRef) (tf : TinyFrame) : TinyFrame :=
  set_idListeners
    (foldl (renew_at callback) (idListeners tf) (seq 0 (length (idListeners tf))))
    tf.

Definition addTypeListener (type : Z) (callback : ListenerRef) (tf : TinyFrame)
  : TinyFrame :=
  set_typeListeners
    (typeListeners tf ++
       [ {| TypedListenerEntry.type := type;
            TypedListenerEntry.callback := callback |} ])
    tf.

Definition addGenericListener (callback : ListenerRef) (tf : TinyFrame) : TinyFrame :=
  set_genericListeners (genericListeners tf ++ [callback]) tf.

(** [array.findIndex(p)], scanning from position [i]; -1 when nothing is
    found. *)
Fixpoint findIndex_from {A : Type} (p : A -> bool) (array : list A) (i : Z) : Z :=
  match array with
  | [] => -1
  | x :: rest => if p x then i else findIndex_from p rest (i + 1)
  end.

Definition findIndex {A : Type} (p : A -> bool) (array : list A) : Z :=
  findIndex_from p array 0.

(** [array.splice(start, 1)] *)
Definition splice1 {A : Type} (array : list A) (start : Z) : list A :=
  delete (Z.to_nat (clamp_index (Z.of_nat (length array)) start)) array.

Definition removeIDListener (callback : ListenerRef) (tf : TinyFrame) : TinyFrame :=
  let index :=
    findIndex (fun listener => (IDListenerEntry.callback listener =? callback)%nat)
              (idListeners tf) in
  if 0 <=? index then set_idListeners (splice1 (idListeners tf) index) tf else tf.

Definition removeTypeListener (callback : ListenerRef) (tf : TinyFrame) : TinyFrame :=
  let index :=
    findIndex (fun listener => (TypedListenerEntry.callback listener =? callback)%nat)
              (typeListeners tf) in
  if 0 <=? index then set_typeListeners (splice1 (typeListeners tf) index) tf else tf.

Definition removeGenericListener (callback : ListenerRef) (tf : TinyFrame) : TinyFrame :=
  let index := findIndex (fun listener => (listener =? callback)%nat)
                         (genericListeners tf) in
  if 0 <=? index then set_genericListeners (splice1 (genericListeners tf) index) tf
  else tf.

(** *** Composing and sending *)

Definition checksum_size (tf : TinyFrame) : nat :=
  match checksum tf with Some c => Checksum.size c | None => O end.

(** [composeHead] stamps the frame ID into the message and may advance
    [nextID]: it returns the engine, the message and the header. *)
Definition composeHead (tf : TinyFrame) (message : Message.t)
  : TinyFrame * Message.t * list Z :=
  let '(id, tf) :=
    if Message.isResponse message then (Message.frameID message, tf)
    else getNextID tf in
  let id :=
    if peer tf =? 1 then js_or id (js_shl 1 (Z.of_nat (idSize tf) * 8 - 1)) else id in
  let message := Message.set_frameID id message in
  let headerLength :=
    ((match sofByte tf with Some _ => 1 | None => 0 end)
     + idSize tf + lenSize tf + typeSize tf + checksum_size tf)%nat in
  let buffer := new_Uint8Array headerLength in
  let offset := O in
  let '(buffer, offset) :=
    match sofByte tf with
    | Some sof => (uint8_store buffer offset sof, S offset)
    | None => (buffer, offset)
    end in
  let '(buffer, offset) := writeUIntBE buffer offset id (idSize tf) in
  let '(buffer, offset) :=
    writeUIntBE buffer offset (Z.of_nat (length (Message.data message))) (lenSize tf) in
  let '(buffer, offset) := writeUIntBE buffer offset (Message.type message) (typeSize tf) in
  let buffer :=
    match checksum tf with
    | Some c =>
        let headerEnd := offset in
        let headerView := subarray buffer 0 (Z.of_nat headerEnd) in
        fst (writeUIntBE buffer offset (Checksum.sum c headerView) (Checksum.size c))
    | None => buffer
    end in
  (tf, message, buffer).

(** What a send does to the outside world: the calls of [claimTx], [write]
    and [releaseTx], in order. *)
Inductive TxEvent :=
| ClaimTx
| WriteChunk (chunk : list Z)
| ReleaseTx.

(** How a call ends: it returns, it throws, or the model ran out of fuel
    before the loop of [sendFrame] ended. *)
Inductive Completion :=
| Returned
| Threw (error : string)
| OutOfFuel.

(** The [while (cursor < buffer.length)] loop of [sendFrame].  [fuel] bounds
    the number of iterations; the default sink throws on its first call. *)
Fixpoint write_loop (fuel : nat) (sink : WriteSink) (buffer : list Z)
    (chunkSize cursor : Z) : list TxEvent * Completion :=
  if cursor <? Z.of_nat (length buffer) then
    match fuel with
    | O => ([], OutOfFuel)
    | S fuel' =>
        match sink with
        | NoWriteImplementation => ([], Threw "No write implementation")
        | Transport =>
            let chunk := subarray buffer cursor (cursor + chunkSize) in
            let '(events, completion) :=
              write_loop fuel' sink buffer chunkSize (cursor + chunkSize) in
            (WriteChunk chunk :: events, completion)
        end
    end
  else ([], Returned).

(** The outcome of a send: the engine and the message object after the call,
    the calls made to the outside, and how the call ended. *)
Record SendResult := Build_SendResult
  { engine : TinyFrame;
    sent : Message.t;
    trace : list TxEvent;
    completion : Completion }.

(** [sendFrame(message, callback, timeout)].  After a throw nothing further
    runs: [releaseTx] is not called. *)
Definition sendFrame (fuel : nat) (tf : TinyFrame) (message : Message.t)
    (callback : option ListenerRef) (timeout : option Z) : SendResult :=
  let '(tf, message, buffer) := composeHead tf message in
  let tf :=
    match callback with
    | Some cb => addIDListener (Message.frameID message) cb timeout tf
    | None => tf
    end in
  let body := Message.data message in
  let body :=
    match checksum tf with
    | Some c =>
        if (0 <? length body)%nat then
          let sumBuffer := new_Uint8Array (Checksum.size c) in
          let sumBuffer :=
            fst (writeUIntBE sumBuffer 0 (Checksum.sum c body) (Checksum.size c)) in
          concatUint8 [body; sumBuffer]
        else body
    | None => body
    end in
  let buffer := concatUint8 [buffer; body] in
  let '(events, completion) := write_loop fuel (write tf) buffer (chunkSize tf) 0 in
  {| engine := tf;
     sent := message;
     trace := ClaimTx :: events ++
                match completion with Returned => [ReleaseTx] | _ => [] end;
     completion := completion |}.

Definition send (fuel : nat) (tf : TinyFrame) (message : Message.t) : SendResult :=
  sendFrame fuel tf message None None.

Definition query (fuel : nat) (tf : TinyFrame) (message : Message.t)
    (listener : ListenerRef) (timeout : option Z) : SendResult :=
  sendFrame fuel tf message (Some listener) timeout.

(** [respond]: when [send] throws, the statement after it is not reached. *)
Definition respond (fuel : nat) (tf : TinyFrame) (message : Message.t) : SendResult :=
  let message := Message.set_isResponse true message in
  let r := send fuel tf message in
  match completion r with
  | Returned =>
      {| engine := engine r;
         sent := Message.set_isResponse false (sent r);
         trace := trace r;
         completion := Returned |}
  | _ => r
  end.

(** The bytes a send hands to the transport, in order. *)
Definition written (events : list TxEvent) : list (list Z) :=
  omap (fun e => match e with WriteChunk chunk => Some chunk | _ => None end) events.

(** *** Parsing *)

Definition beginFrame (tf : TinyFrame) : TinyFrame :=
  set_data []
    (set_cksum 0
       (set_currentType 0
          (set_len 0
             (set_currentID 0
                (set_partLen 0
                   (set_state st_id tf)))))).

(** [this.data.push(byte)] *)
Definition push_data (byte : Z) (tf : TinyFrame) : TinyFrame :=
  set_data (data tf ++ [byte]) tf.

(** One listener call: which listener, and the message as it was passed. *)
Definition Invocation : Type := ListenerRef * Message.t.

(** One call of [handleReceived]: the message it built and the listener
    calls it made, in order. *)
Record Dispatch := Build_Dispatch
  { dispatched : Message.t;
    invoked : list Invocation }.

Section Parser.

(** What each listener's callback does to the engine and to the message
    object it receives. *)
Variable run : ListenerRef -> TinyFrame -> Message.t -> TinyFrame * Message.t.

Definition DispatchState : Type := TinyFrame * Message.t * list Invocation.

Definition notify (listener : ListenerRef) (st : DispatchState) : DispatchState :=
  let '(tf, message, log) := st in
  let '(tf', message') := run listener tf message in
  (tf', message', log ++ [(listener, message)]).

Definition notify_id (st : DispatchState) (listener : IDListenerEntry.t)
  : DispatchState :=
  if IDListenerEntry.id listener =? Message.frameID (st.1.2)
  then notify (IDListenerEntry.callback listener) st else st.

Definition notify_type (st : DispatchState) (listener : TypedListenerEntry.t)
  : DispatchState :=
  if TypedListenerEntry.type listener =? Message.type (st.1.2)
  then notify (TypedListenerEntry.callback listener) st else st.

Definition notify_generic (st : DispatchState) (listener : ListenerRef)
  : DispatchState :=
  notify listener st.

(** Each loop runs over a [slice()] of its table, taken when the loop
    starts. *)
Definition handleReceived (tf : TinyFrame) : TinyFrame * Dispatch :=
  let message := Message.new (currentType tf) (toUint8Array (data tf)) in
  let message := Message.set_frameID (currentID tf) message in
  let st : DispatchState := (tf, message, []) in
  let st := foldl notify_id st (idListeners (st.1.1)) in
  let st := foldl notify_type st (typeListeners (st.1.1)) in
  let st := foldl notify_generic st (genericListeners (st.1.1)) in
  (st.1.1, {| dispatched := message; invoked := st.2 |}).

Definition dispatch_and_reset (tf : TinyFrame) : TinyFrame * list Dispatch :=
  let '(tf, d) := handleReceived tf in
  (resetParser tf, [d]).

Definition acceptByte (tf : TinyFrame) (byte : Z) : TinyFrame * list Dispatch :=
  let tf :=
    match parserTimeout tf with
    | Some limit => if limit <? parserTimeoutTicks tf then resetParser tf else tf
    | None => tf
    end in
  let tf :=
    match state tf, sofByte tf with
    | st_sof, None => beginFrame tf
    | _, _ => tf
    end in
  match state tf with
  | st_sof =>
      match sofByte tf with
      | Some sof =>
          if byte =? sof then (push_data byte (beginFrame tf), []) else (tf, [])
      | None => (tf, [])
      end
  | st_id =>
      let tf := push_data byte tf in
      let tf := set_currentID (js_or (js_shl (currentID tf) 8) byte) tf in
      let tf := set_partLen (S (partLen tf)) tf in
      if (partLen tf =? idSize tf)%nat
      then (set_partLen 0 (set_state st_len tf), [])
      else (tf, [])
  | st_len =>
      let tf := push_data byte tf in
      let tf := set_len (js_or (js_shl (len tf) 8) byte) tf in
      let tf := set_partLen (S (partLen tf)) tf in
      if (partLen tf =? lenSize tf)%nat
      then (set_partLen 0 (set_state st_type tf), [])
      else (tf, [])
  | st_type =>
      let tf := push_data byte tf in
      let tf := set_currentType (js_or (js_shl (currentType tf) 8) byte) tf in
      let tf := set_partLen (S (partLen tf)) tf in
      if (partLen tf =? typeSize tf)%nat
      then (set_partLen 0
              (set_state (match checksum tf with
                          | Some _ => st_headcksum
                          | None => st_data
                          end) tf), [])
      else (tf, [])
  | st_headcksum =>
      let tf := set_cksum (js_ushr (js_or (js_shl (cksum tf) 8) byte) 0) tf in
      let tf := set_partLen (S (partLen tf)) tf in
      if (partLen tf =? checksum_size tf)%nat then
        match checksum tf with
        | None => (resetParser tf, [])
        | Some c =>
            if negb (Checksum.sum c (data tf) =? cksum tf) then (resetParser tf, [])
            else
              let tf := push_data byte tf in
              if len tf =? 0 then dispatch_and_reset tf
              else (set_state st_data (set_data [] (set_partLen 0 tf)), [])
        end
      else (tf, [])
  | st_data =>
      let tf := push_data byte tf in
      let tf := set_partLen (S (partLen tf)) tf in
      if Z.of_nat (partLen tf) =? len tf then
        match checksum tf with
        | None => dispatch_and_reset tf
        | Some _ => (set_cksum 0 (set_partLen 0 (set_state st_datacksum tf)), [])
        end
      else (tf, [])
  | st_datacksum =>
      let tf := set_cksum (js_ushr (js_or (js_shl (cksum tf) 8) byte) 0) tf in
      let tf := set_partLen (S (partLen tf)) tf in
      if (partLen tf =? checksum_size tf)%nat then
        match checksum tf with
        | Some c =>
            if Checksum.sum c (data tf) =? cksum tf then dispatch_and_reset tf
            else (resetParser tf, [])
        | None => (resetParser tf, [])
        end
      else (tf, [])
  end.

(** [accept(buffer)]: every byte of the buffer, in order. *)
Fixpoint accept (tf : TinyFrame) (buffer : list Z) : TinyFrame * list Dispatch :=
  match buffer with
  | [] => (tf, [])
  | byte :: rest =>
      let '(tf, ds) := acceptByte tf byte in
      let '(tf, ds') := accept tf rest in
      (tf, ds ++ ds')
  end.

(** A sequence of [accept] calls, one per chunk delivered by the
    transport. *)
Fixpoint accept_chunks (tf : TinyFrame) (chunks : list (list Z))
  : TinyFrame * list Dispatch :=
  match chunks with
  | [] => (tf, [])
  | chunk :: rest =>
      let '(tf, ds) := accept tf chunk in
      let '(tf, ds') := accept_chunks tf rest in
      (tf, ds ++ ds')
  end.

End Parser.

(** *** Ticks *)

(** The first loop of [tick] at position [i]: count the entry down in place
    and note it for removal once its countdown is used up. *)
Definition tick_at (acc : list IDListenerEntry.t * list nat) (i : nat)
  : list IDListenerEntry.t * list nat :=
  let '(listeners, removeKeys) := acc in
  match listeners !! i with
  | Some listener =>
      match IDListenerEntry.timeout listener with
      | Some t =>
          let listeners :=
            <[i := IDListenerEntry.set_timeout (Some (t - 1)) listener]> listeners in
          if t - 1 <=? 0 then (listeners, removeKeys ++ [i]) else (listeners, removeKeys)
      | None => acc
      end
  | None => acc
  end.

(** The second loop of [tick]. *)
Definition tick_remove (acc : list IDListenerEntry.t * Z) (index : nat)
  : list IDListenerEntry.t * Z :=
  let '(listeners, offset) := acc in
  (splice1 listeners (Z.of_nat index + offset), offset - 1).

Definition tick (tf : TinyFrame) : TinyFrame :=
  let tf := set_parserTimeoutTicks (parserTimeoutTicks tf + 1) tf in
  let '(listeners, removeKeys) :=
    foldl tick_at (idListeners tf, []) (seq 0 (length (idListeners tf))) in
  let '(listeners, _) := foldl tick_remove (listeners, 0) removeKeys in
  set_idListeners listeners tf.

(** ** A checksum strategy for the examples

    Any object with a [size] and a [sum] can be assigned to [checksum]; the
    examples below use a one-byte strategy that XORs the bytes together. *)

Definition xor_sum (bytes : list Z) : Z := foldl Z.lxor 0 bytes.

Definition xor8 : Checksum.t := {| Checksum.size := 1; Checksum.sum := xor_sum |}.


(** ** Vocabulary of the statements *)

(** The [n] low bytes of [u], most significant first. *)
Fixpoint be_bytes (n : nat) (u : Z) : list Z :=
  match n with
  | O => []
  | S n' => be_bytes n' (u / 256) ++ [u mod 256]
  end.

(** What [writeUIntBE] puts into an [n]-byte field for [value]. *)
Definition big_endian (n : nat) (value : Z) : list Z := be_bytes n (ToUint32 value).

(** What the [id], [len] and [type] states accumulate from a run of bytes. *)
Definition read_field (acc : Z) (bytes : list Z) : Z :=
  foldl (fun acc byte => js_or (js_shl acc 8) byte) acc bytes.

(** What the two checksum states accumulate from a run of bytes. *)
Definition read_cksum (acc : Z) (bytes : list Z) : Z :=
  foldl (fun acc byte => js_ushr (js_or (js_shl acc 8) byte) 0) acc bytes.

(** The number a parser reads back from an [n]-byte field that was written
    with [value], and the numbers that survive the trip. *)
Definition field_value (n : nat) (value : Z) : Z :=
  ToInt32 (ToUint32 value mod 256 ^ Z.of_nat n).

Definition fits (n : nat) (value : Z) : Prop := field_value n value = value.

Definition cksum_value (n : nat) (value : Z) : Z :=
  ToUint32 value mod 256 ^ Z.of_nat n.

Definition is_byte (b : Z) : Prop := 0 <= b < 256.

(** The pieces of a frame as [composeHead] and [sendFrame] lay them out. *)
Definition sof_bytes (tf : TinyFrame) : list Z :=
  match sofByte tf with
  | Some sof => [ToUint8 sof]
  | None => []
  end.

Definition header_fields (tf : TinyFrame) (id : Z) (message : Message.t) : list Z :=
  big_endian (idSize tf) id
  ++ big_endian (lenSize tf) (Z.of_nat (length (Message.data message)))
  ++ big_endian (typeSize tf) (Message.type message).

Definition cksum_bytes (tf : TinyFrame) (covered : list Z) : list Z :=
  match checksum tf with
  | Some c => big_endian (Checksum.size c) (Checksum.sum c covered)
  | None => []
  end.

(** The frame ID that [composeHead] stamps into the message. *)
Definition stamped_id (tf : TinyFrame) (message : Message.t) : Z :=
  Message.frameID (composeHead tf message).1.2.

(** The ID [composeHead] starts from, with the engine after the allocation,
    and the peer bit it then sets. *)
Definition allocated (tf : TinyFrame) (message : Message.t) : Z * TinyFrame :=
  if Message.isResponse message then (Message.frameID message, tf) else getNextID tf.

Definition peer_stamp (tf : TinyFrame) (id : Z) : Z :=
  if peer tf =? 1 then js_or id (js_shl 1 (Z.of_nat (idSize tf) * 8 - 1)) else id.

(** The payload as [sendFrame] appends it: the bytes, followed by their
    checksum when a strategy is set and there is at least one byte. *)
Definition payload_bytes (tf : TinyFrame) (message : Message.t) : list Z :=
  Message.data message
  ++ match checksum tf with
     | Some c =>
         if (0 <? length (Message.data message))%nat
         then big_endian (Checksum.size c) (Checksum.sum c (Message.data message))
         else []
     | None => []
     end.

(** The whole frame of a send. *)
Definition frame_bytes (tf : TinyFrame) (message : Message.t) : list Z :=
  (composeHead tf message).2 ++ payload_bytes tf message.

(** The engine [tf] with its parser at the given point of a frame. *)
Definition with_parser (tf : TinyFrame) (st : TinyFrameState) (pl : nat)
    (id ln ty ck : Z) (dat : list Z) : TinyFrame :=
  set_data dat
    (set_cksum ck
       (set_currentType ty
          (set_len ln
             (set_currentID id
                (set_partLen pl
                   (set_state st tf)))))).

(** The tick count has not passed the parser timeout (or none is set). *)
Definition timeout_idle (tf : TinyFrame) : Prop :=
  match parserTimeout tf with
  | Some limit => parserTimeoutTicks tf <= limit
  | None => True
  end.

(** The message [handleReceived] builds from the parser's fields. *)
Definition received_message (tf : TinyFrame) : Message.t :=
  Message.set_frameID (currentID tf)
    (Message.new (currentType tf) (toUint8Array (data tf))).

(** A configured start-of-frame marker is a byte value. *)
Definition sof_is_byte (tf : TinyFrame) : Prop :=
  match sofByte tf with
  | Some sof => is_byte sof
  | None => True
  end.

(** Two engines configured alike, as a sender and its receiver must be. *)
Definition same_configuration (tx rx : TinyFrame) : Prop :=
  idSize rx = idSize tx /\ lenSize rx = lenSize tx /\ typeSize rx = typeSize tx
  /\ sofByte rx = sofByte tx /\ checksum rx = checksum tx /\ peer rx = peer tx.

(** A strategy at least one byte wide whose sums of byte arrays fit its
    width. *)
Definition strategy_fits (c : Checksum.t) : Prop :=
  (1 <= Checksum.size c)%nat
  /\ forall bytes, Forall is_byte bytes ->
       cksum_value (Checksum.size c) (Checksum.sum c bytes) = Checksum.sum c bytes.

(** Every field of the frame is at least one byte wide. *)
Definition widths_positive (tf : TinyFrame) : Prop :=
  (1 <= idSize tf)%nat /\ (1 <= lenSize tf)%nat /\ (1 <= typeSize tf)%nat.

(** The stamped ID, the payload length and the type survive their fields. *)
Definition representable (tf : TinyFrame) (message : Message.t) : Prop :=
  fits (idSize tf) (stamped_id tf message)
  /\ fits (lenSize tf) (Z.of_nat (length (Message.data message)))
  /\ fits (typeSize tf) (Message.type message).

(** The round-trip property of one send: whatever chunks carry the written
    bytes, the receiver dispatches exactly one message, equal to the
    original in type, payload and (stamped) frame ID. *)
Definition round_trip (run : ListenerRef -> TinyFrame -> Message.t -> TinyFrame * Message.t)
    (tx rx : TinyFrame) (message : Message.t) (fuel : nat) (chunks : list (list Z))
  : Prop :=
  let r := send fuel tx message in
  concat chunks = concat (written (trace r)) ->
  exists rx' d,
    accept_chunks run rx chunks = (rx', [d])
    /\ Message.type (dispatched d) = Message.type message
    /\ Message.data (dispatched d) = Message.data message
    /\ Message.frameID (dispatched d) = Message.frameID (sent r).

(** ** Engines and messages of the examples *)

(** Listeners that leave the engine and the message alone. *)
Definition passive_run (listener : ListenerRef) (tf : TinyFrame) (message : Message.t)
  : TinyFrame * Message.t :=
  (tf, message).

(** A sender as the test suite builds it: constructed with the defaults,
    then given a transport. *)
Definition example_tx : TinyFrame := set_write Transport (constructor xor8 None).

(** A receiver constructed with the defaults. *)
Definition example_rx : TinyFrame := constructor xor8 None.

Definition example_message : Message.t := Message.new 258 [222; 173; 190; 239; 0; 1].

(** The examples with a start-of-frame marker configured. *)
Definition example_sof_tx : TinyFrame := set_sofByte (Some 1) example_tx.

Definition example_sof_rx : TinyFrame := set_sofByte (Some 1) example_rx.

(** A receiver with a parse timeout of two ticks. *)
Definition example_timeout_rx : TinyFrame := set_parserTimeout (Some 2) example_rx.

(** The bytes of one frame carrying [example_message], as [example_tx]
    writes them. *)
Definition example_frame : list Z :=
  concat (written (trace (send 64 example_tx example_message))).

(** Listeners that leave the tick counter alone. *)
Definition keeps_ticks
    (run : ListenerRef -> TinyFrame -> Message.t -> TinyFrame * Message.t) : Prop :=
  forall listener tf message,
    parserTimeoutTicks (run listener tf message).1 = parserTimeoutTicks tf.

(** The engine after [n] further frame IDs have been allocated. *)
Definition after_allocations (n : nat) (tf : TinyFrame) : TinyFrame :=
  Nat.iter n (fun tf => (getNextID tf).2) tf.

(** A master-side sender ([peer = 0]) with a one-byte ID field. *)
Definition example_narrow_tx : TinyFrame :=
  set_idSize 1 (set_write Transport (constructor xor8 (Some 0))).

(** A response built from a received message. *)
Definition example_response : Message.t := Message.createResponse example_message [255].

(** Listeners that, while a frame is being dispatched, change neither the
    type table nor the generic table nor the frame ID and type of the
    message they are handed.  (The ID table may change freely.) *)
Definition leaves_dispatch_alone
    (run : ListenerRef -> TinyFrame -> Message.t -> TinyFrame * Message.t) : Prop :=
  forall listener tf message,
    typeListeners (run listener tf message).1 = typeListeners tf
    /\ genericListeners (run listener tf message).1 = genericListeners tf
    /\ Message.frameID (run listener tf message).2 = Message.frameID message
    /\ Message.type (run listener tf message).2 = Message.type message.

(** What a dispatch loop keeps fixed from one listener call to the next. *)
Definition dispatch_stable (st st' : DispatchState) : Prop :=
  typeListeners st'.1.1 = typeListeners st.1.1
  /\ genericListeners st'.1.1 = genericListeners st.1.1
  /\ Message.frameID st'.1.2 = Message.frameID st.1.2
  /\ Message.type st'.1.2 = Message.type st.1.2.

(** A listener that, when called, takes itself out of the ID table. *)
Definition one_shot_run (listener : ListenerRef) (tf : TinyFrame) (message : Message.t)
  : TinyFrame * Message.t :=
  (removeIDListener listener tf, message).

(** A receiver that has just validated a frame with ID 7 and type 3, with
    listeners 10, 11 (twice) and 12 on IDs 7, 7, 8 and 7, listeners 20 and 21
    on types 3 and 4, and generic listeners 30 and 31. *)
Definition example_dispatching : TinyFrame :=
  set_currentID 7
    (set_currentType 3
       (addGenericListener 31%nat
          (addGenericListener 30%nat
             (addTypeListener 4 21%nat
                (addTypeListener 3 20%nat
                   (addIDListener 7 11%nat None
                      (addIDListener 8 12%nat None
                         (addIDListener 7 11%nat (Some 5)
                            (addIDListener 7 10%nat None example_rx))))))))).

(** What [renewIDListener] does to one entry. *)
Definition renewed (callback : ListenerRef) (e : IDListenerEntry.t) : IDListenerEntry.t :=
  if (IDListenerEntry.callback e =? callback)%nat
  then IDListenerEntry.set_timeout (IDListenerEntry.maxTimeout e) e
  else e.

(** An engine with three ID listeners, two of them sharing callback 11,
    after two ticks. *)
Definition example_registry : TinyFrame :=
  tick (tick (addIDListener 9 11%nat (Some 4)
                (addIDListener 8 10%nat (Some 6)
                   (addIDListener 7 11%nat (Some 5) example_rx)))).

(** ** Further vocabulary *)

(** The number a run of bytes denotes, most significant byte first. *)
Definition be_value (bytes : list Z) : Z :=
  foldl (fun acc byte => acc * 256 + byte) 0 bytes.

(** The number of chunks of [size] bytes needed for [n] bytes. *)
Definition chunk_count (n : nat) (size : Z) : nat :=
  Z.to_nat ((Z.of_nat n + size - 1) / size).

(** [callback] is registered in none of the three tables. *)
Definition unregistered (callback : ListenerRef) (tf : TinyFrame) : Prop :=
  Forall (fun e => IDListenerEntry.callback e <> callback) (idListeners tf)
  /\ Forall (fun e => TypedListenerEntry.callback e <> callback) (typeListeners tf)
  /\ callback ∉ genericListeners tf.

(** What [n] ticks make of an ID listener entry: an entry without a timeout
    stays; an entry with a timeout [t] is counted down by [n] and is gone
    once that reaches zero or less. *)
Definition aged (n : nat) (e : IDListenerEntry.t) : option IDListenerEntry.t :=
  match n, IDListenerEntry.timeout e with
  | O, _ => Some e
  | _, None => Some e
  | _, Some t =>
      if t - Z.of_nat n <=? 0 then None
      else Some (IDListenerEntry.set_timeout (Some (t - Z.of_nat n)) e)
  end.

(** The entries of the first loop of [tick], counted down. *)
Definition counted_down (e : IDListenerEntry.t) : IDListenerEntry.t :=
  match IDListenerEntry.timeout e with
  | Some t => IDListenerEntry.set_timeout (Some (t - 1)) e
  | None => e
  end.

Definition used_up (e : IDListenerEntry.t) : bool :=
  match IDListenerEntry.timeout e with
  | Some t => t <=? 0
  | None => false
  end.

(** The positions, counted from [base], of the entries that one tick uses
    up. *)
Fixpoint used_up_keys (base : nat) (listeners : list IDListenerEntry.t) : list nat :=
  match listeners with
  | [] => []
  | e :: rest =>
      (if used_up (counted_down e) then [base] else []) ++ used_up_keys (S base) rest
  end.

(** Everything in the engine that is configuration or a counter: all fields
    but the parser's own and the three listener tables. *)
Definition same_settings (tf tf' : TinyFrame) : Prop :=
  peer tf' = peer tf /\ nextID tf' = nextID tf
  /\ parserTimeoutTicks tf' = parserTimeoutTicks tf
  /\ parserTimeout tf' = parserTimeout tf /\ sofByte tf' = sofByte tf
  /\ chunkSize tf' = chunkSize tf /\ checksum tf' = checksum tf
  /\ idSize tf' = idSize tf /\ lenSize tf' = lenSize tf
  /\ typeSize tf' = typeSize tf /\ write tf' = write tf.

Definition same_tables (tf tf' : TinyFrame) : Prop :=
  idListeners tf' = idListeners tf /\ typeListeners tf' = typeListeners tf
  /\ genericListeners tf' = genericListeners tf.

(** Listeners that leave the settings alone. *)
Definition keeps_settings
    (run : ListenerRef -> TinyFrame -> Message.t -> TinyFrame * Message.t) : Prop :=
  forall listener tf message, same_settings tf (run listener tf message).1.

(** A message that an engine can send and a like-configured engine can read
    back: a checksum strategy is set and fits, the widths are positive, the
    marker (if any) is a byte, the payload is a non-empty byte array, and
    the stamped ID, the length and the type fit their fields. *)
Definition sendable (tx : TinyFrame) (message : Message.t) : Prop :=
  widths_positive tx /\ sof_is_byte tx
  /\ (exists c, checksum tx = Some c /\ strategy_fits c)
  /\ Message.data message <> [] /\ Forall is_byte (Message.data message)
  /\ representable tx message.

(** The dispatch [d] hands over [message] as [tx] sent it. *)
Definition delivered (d : Dispatch) (tx : TinyFrame) (message : Message.t) : Prop :=
  Message.type (dispatched d) = Message.type message
  /\ Message.data (dispatched d) = Message.data message
  /\ Message.frameID (dispatched d) = stamped_id tx message.

(** Two messages sent one after the other by [example_tx]. *)
Definition example_stream : list (TinyFrame * Message.t) :=
  [ (example_tx, example_message);
    (engine (send 64 example_tx example_message), Message.new 66 [7]) ].

(** The byte stream of a sequence of frames, each built by its own sender
    state. *)
Definition stream_bytes (frames : list (TinyFrame * Message.t)) : list Z :=
  concat (map (fun f => frame_bytes f.1 f.2) frames).

(** Two engines that agree on the layout of a frame: field widths, marker
    and checksum strategy.  Their [peer] roles may differ. *)
Definition same_framing (tx rx : TinyFrame) : Prop :=
  idSize rx = idSize tx /\ lenSize rx = lenSize tx /\ typeSize rx = typeSize tx
  /\ sofByte rx = sofByte tx /\ checksum rx = checksum tx.

(** A master ([peer] 0) with a transport, facing the default slave. *)
Definition example_master : TinyFrame :=
  set_write Transport (constructor xor8 (Some 0)).

(** The request of [example_master] as the slave receives it, and the
    slave's answer. *)
Definition example_request_received : Message.t :=
  Message.set_frameID (stamped_id example_master example_message) example_message.

Definition example_answer : Message.t :=
  Message.createResponse example_request_received [9].

(** The tick count has passed the parser timeout. *)
Definition timed_out (tf : TinyFrame) : Prop :=
  match parserTimeout tf with
  | Some limit => limit < parserTimeoutTicks tf
  | None => False
  end.

(** What an application does to an engine over time: it calls [tick], or it
    hands a buffer to [accept]. *)
Inductive Event :=
| Tick
| Accept (buffer : list Z).

Definition drive_step
    (run : ListenerRef -> TinyFrame -> Message.t -> TinyFrame * Message.t)
    (acc : TinyFrame * list Dispatch) (e : Event) : TinyFrame * list Dispatch :=
  match e with
  | Tick => (tick acc.1, acc.2)
  | Accept buffer =>
      let '(tf, ds) := accept run acc.1 buffer in
      (tf, acc.2 ++ ds)
  end.

(** The engine after a sequence of such calls, with everything dispatched
    on the way. *)
Definition drive
    (run : ListenerRef -> TinyFrame -> Message.t -> TinyFrame * Message.t)
    (tf : TinyFrame) (events : list Event) : TinyFrame * list Dispatch :=
  foldl (drive_step run) (tf, []) events.

(** A receiver that has read the head of [message] from [tx] and has then
    seen [k] ticks go by with nothing arriving. *)
Definition stalled_after_head
    (run : ListenerRef -> TinyFrame -> Message.t -> TinyFrame * Message.t)
    (tx rx : TinyFrame) (message : Message.t) (k : nat) : TinyFrame :=
  Nat.iter k tick (accept run rx (composeHead tx message).2).1.

(** Listeners that leave the frame ID and the type of the message they are
    handed as they are.  (They may do anything to the engine, the listener
    tables included, and to the payload.) *)
Definition keeps_identity
    (run : ListenerRef -> TinyFrame -> Message.t -> TinyFrame * Message.t) : Prop :=
  forall listener tf message,
    Message.frameID (run listener tf message).2 = Message.frameID message
    /\ Message.type (run listener tf message).2 = Message.type message.

(** Calling the listeners of a list one after the other, each on the engine
    and the message as the one before left them. *)
Definition run_listeners
    (run : ListenerRef -> TinyFrame -> Message.t -> TinyFrame * Message.t)
    (st : TinyFrame * Message.t) (listeners : list ListenerRef)
  : TinyFrame * Message.t :=
  foldl (fun st listener => run listener st.1 st.2) st listeners.

(** Listener 10, when called, unsubscribes listener 20 from the type table;
    the other listeners do nothing. *)
Definition unsubscribing_run (listener : ListenerRef) (tf : TinyFrame)
    (message : Message.t) : TinyFrame * Message.t :=
  if (listener =? 10)%nat then (removeTypeListener 20%nat tf, message)
  else (tf, message).

(** * Properties *)

(** ** 32-bit arithmetic *)

Lemma ToUint32_range x : 0 <= ToUint32 x < 2 ^ 32.
Proof. unfold ToUint32. apply Z.mod_pos_bound. lia. Qed.

Lemma ToInt32_range x : - 2 ^ 31 <= ToInt32 x < 2 ^ 31.
Proof.
  unfold ToInt32. pose proof (Z.mod_pos_bound (x + 2 ^ 31) (2 ^ 32)). lia.
Qed.

Lemma ToInt32_cong x : ToInt32 x mod 2 ^ 32 = x mod 2 ^ 32.
Proof.
  unfold ToInt32.
  rewrite <- Zminus_mod_idemp_l, Z.mod_mod by lia.
  rewrite Zminus_mod_idemp_l. f_equal. lia.
Qed.

Lemma ToInt32_unique x y :
  - 2 ^ 31 <= y < 2 ^ 31 -> y mod 2 ^ 32 = x mod 2 ^ 32 -> ToInt32 x = y.
Proof.
  intros Hy Hxy. unfold ToInt32.
  assert (H : (x + 2 ^ 31) mod 2 ^ 32 = (y + 2 ^ 31) mod 2 ^ 32).
  { rewrite <- (Zplus_mod_idemp_l x), <- Hxy, Zplus_mod_idemp_l. done. }
  rewrite H, Z.mod_small; lia.
Qed.

Lemma ToInt32_small x : - 2 ^ 31 <= x < 2 ^ 31 -> ToInt32 x = x.
Proof. intros. by apply ToInt32_unique. Qed.

Lemma ToInt32_idemp x : ToInt32 (ToInt32 x) = ToInt32 x.
Proof. apply ToInt32_small, ToInt32_range. Qed.

Lemma ToInt32_ToUint32 x : ToInt32 (ToUint32 x) = ToInt32 x.
Proof.
  apply ToInt32_unique; [apply ToInt32_range|].
  unfold ToUint32. rewrite Z.mod_mod by lia. apply ToInt32_cong.
Qed.

Lemma ToUint32_ToInt32 x : ToUint32 (ToInt32 x) = ToUint32 x.
Proof. apply ToInt32_cong. Qed.

Lemma ToUint32_small x : 0 <= x < 2 ^ 32 -> ToUint32 x = x.
Proof. intros. unfold ToUint32. by apply Z.mod_small. Qed.

Lemma js_ushr_0 x : js_ushr x 0 = ToUint32 x.
Proof. unfold js_ushr. by rewrite Z.mod_0_l, Z.shiftr_0_r. Qed.

Lemma js_ushr_8 x : 0 <= x < 2 ^ 32 -> js_ushr x 8 = x / 256.
Proof.
  intros. unfold js_ushr. rewrite ToUint32_small by done.
  change (8 mod 32) with 8. by rewrite Z.shiftr_div_pow2.
Qed.

Lemma low_byte_cong x y : x mod 2 ^ 32 = y mod 2 ^ 32 -> x mod 256 = y mod 256.
Proof.
  intros H.
  rewrite <- (Z.mod_mod_divide x (2 ^ 32) 256), <- (Z.mod_mod_divide y (2 ^ 32) 256)
    by (by exists (2 ^ 24)).
  by rewrite H.
Qed.

Lemma js_and_255 x : js_and x 255 = x mod 256.
Proof.
  unfold js_and. rewrite (ToInt32_small 255) by lia.
  change 255 with (Z.ones 8). rewrite Z.land_ones by lia.
  change (2 ^ 8) with 256.
  apply low_byte_cong, ToInt32_cong.
Qed.

Lemma js_shl_8 x : js_shl x 8 = ToInt32 (x * 256).
Proof.
  unfold js_shl. change (8 mod 32) with 8. rewrite Z.shiftl_mul_pow2 by lia.
  change (2 ^ 8) with 256.
  apply ToInt32_unique; [apply ToInt32_range|].
  rewrite ToInt32_cong.
  rewrite <- Zmult_mod_idemp_l, <- (ToInt32_cong x), Zmult_mod_idemp_l. done.
Qed.

Lemma lor_low_byte x b :
  x mod 256 = 0 -> 0 <= b < 256 -> Z.lor x b = x + b.
Proof.
  intros Hx Hb.
  rewrite <- Z.lxor_lor, <- Z.add_nocarry_lxor; try done.
  all: apply Z.bits_inj'; intros n Hn; rewrite Z.land_spec, Z.bits_0.
  all: destruct (Z.lt_ge_cases n 8) as [Hlt|Hge].
  all: try (rewrite (Z.div_mod x 256), Hx, Z.add_0_r by lia;
            change 256 with (2 ^ 8); rewrite Z.mul_comm, Z.mul_pow2_bits_low by lia;
            done).
  all: assert (Z.testbit b n = false) as ->
         by (destruct (Z.eq_dec b 0) as [->|];
             [apply Z.bits_0 |
              apply Z.bits_above_log2; [lia|];
              apply Z.lt_le_trans with 8; [|lia];
              apply Z.log2_lt_pow2; lia]).
  all: apply andb_false_r.
Qed.

(** The parser's accumulation step [(acc << 8) | byte]. *)
Lemma accumulate_byte acc b :
  0 <= b < 256 -> js_or (js_shl acc 8) b = ToInt32 (acc * 256 + b).
Proof.
  intros Hb. unfold js_or. rewrite js_shl_8, ToInt32_idemp, (ToInt32_small b) by lia.
  pose proof (ToInt32_range (acc * 256)) as Hr.
  assert (Hm : ToInt32 (acc * 256) mod 256 = 0).
  { rewrite (low_byte_cong _ _ (ToInt32_cong (acc * 256))). apply Z_mod_mult. }
  rewrite lor_low_byte by done.
  symmetry. apply ToInt32_unique.
  - pose proof (Z.div_mod (ToInt32 (acc * 256)) 256). lia.
  - rewrite <- Zplus_mod_idemp_l, ToInt32_cong, Zplus_mod_idemp_l. done.
Qed.

(** ** Big-endian fields *)

Lemma be_bytes_length n u : length (be_bytes n u) = n.
Proof.
  revert u. induction n as [|n IH]; intros u; simpl; [done|].
  rewrite length_app, IH. simpl. lia.
Qed.

Lemma big_endian_length n v : length (big_endian n v) = n.
Proof. apply be_bytes_length. Qed.

Lemma be_bytes_is_byte n u : Forall is_byte (be_bytes n u).
Proof.
  revert u. induction n as [|n IH]; intros u; simpl; [constructor|].
  apply Forall_app. split; [apply IH|].
  constructor; [|constructor]. apply Z.mod_pos_bound. lia.
Qed.

Lemma big_endian_is_byte n v : Forall is_byte (big_endian n v).
Proof. apply be_bytes_is_byte. Qed.

Lemma snoc_of_length {A} (l : list A) n :
  length l = S n -> exists l' x, l = l' ++ [x] /\ length l' = n.
Proof.
  intros Hl. destruct l as [|a l] using rev_ind; [done|].
  exists l, a. rewrite length_app in Hl. simpl in Hl. split; [done|lia].
Qed.

Lemma writeUIntBE_loop_spec i : forall pre mid post cur,
  length mid = i -> 0 <= cur < 2 ^ 32 ->
  writeUIntBE_loop (pre ++ mid ++ post) (length pre) cur i
  = pre ++ be_bytes i cur ++ post.
Proof.
  induction i as [|i IH]; intros pre mid post cur Hmid Hcur; simpl.
  - by destruct mid.
  - destruct (snoc_of_length _ _ Hmid) as (mid' & x & -> & Hmid').
    unfold uint8_store. rewrite js_and_255, js_ushr_8 by done.
    unfold ToUint8. rewrite Z.mod_mod by lia.
    rewrite <- Hmid' at 1.
    rewrite insert_app_r, <- (assoc_L (++) mid'), insert_app_r_alt by lia.
    rewrite Nat.sub_diag. simpl.
    rewrite (IH pre mid' _ (cur / 256)); [|done|].
    + by rewrite <- (assoc_L (++) (be_bytes _ _)).
    + split; [apply Z.div_pos; lia|].
      apply Z.div_lt_upper_bound; lia.
Qed.

Lemma writeUIntBE_spec pre mid post value n :
  length mid = n ->
  writeUIntBE (pre ++ mid ++ post) (length pre) value n
  = (pre ++ big_endian n value ++ post, (length pre + n)%nat).
Proof.
  intros Hmid. unfold writeUIntBE, big_endian. rewrite js_ushr_0.
  by rewrite writeUIntBE_loop_spec by auto using ToUint32_range.
Qed.

Lemma ToInt32_accumulate a b : ToInt32 (ToInt32 a * 256 + b) = ToInt32 (a * 256 + b).
Proof.
  apply ToInt32_unique; [apply ToInt32_range|].
  rewrite ToInt32_cong.
  rewrite <- Zplus_mod_idemp_l, <- Zmult_mod_idemp_l, <- (ToInt32_cong a).
  by rewrite Zmult_mod_idemp_l, Zplus_mod_idemp_l.
Qed.

Lemma ToUint32_accumulate a b : ToUint32 (ToUint32 a * 256 + b) = ToUint32 (a * 256 + b).
Proof.
  unfold ToUint32.
  rewrite <- Zplus_mod_idemp_l, Zmult_mod_idemp_l, Zplus_mod_idemp_l. done.
Qed.

Lemma mod_256_pow_S n u :
  u mod 256 ^ Z.of_nat (S n) = (u / 256) mod 256 ^ Z.of_nat n * 256 + u mod 256.
Proof.
  rewrite Nat2Z.inj_succ, Z.pow_succ_r by lia.
  rewrite Z.rem_mul_r by lia. lia.
Qed.

Lemma read_field_snoc acc bytes b :
  read_field acc (bytes ++ [b]) = js_or (js_shl (read_field acc bytes) 8) b.
Proof. unfold read_field. by rewrite foldl_snoc. Qed.

Lemma read_cksum_snoc acc bytes b :
  read_cksum acc (bytes ++ [b])
  = js_ushr (js_or (js_shl (read_cksum acc bytes) 8) b) 0.
Proof. unfold read_cksum. by rewrite foldl_snoc. Qed.

Lemma read_field_be_bytes n : forall u,
  read_field 0 (be_bytes n u) = ToInt32 (u mod 256 ^ Z.of_nat n).
Proof.
  induction n as [|n IH]; intros u.
  - simpl. by rewrite Z.mod_1_r.
  - cbn [be_bytes]. rewrite read_field_snoc, IH.
    rewrite accumulate_byte by (apply Z.mod_pos_bound; lia).
    by rewrite ToInt32_accumulate, mod_256_pow_S.
Qed.

Lemma read_cksum_be_bytes n : forall u,
  read_cksum 0 (be_bytes n u) = ToUint32 (u mod 256 ^ Z.of_nat n).
Proof.
  induction n as [|n IH]; intros u.
  - simpl. by rewrite Z.mod_1_r.
  - cbn [be_bytes]. rewrite read_cksum_snoc, IH, js_ushr_0.
    rewrite accumulate_byte by (apply Z.mod_pos_bound; lia).
    rewrite ToUint32_ToInt32, ToUint32_accumulate. by rewrite mod_256_pow_S.
Qed.

Lemma read_field_big_endian n value :
  read_field 0 (big_endian n value) = field_value n value.
Proof. apply read_field_be_bytes. Qed.

Lemma read_cksum_big_endian n value :
  read_cksum 0 (big_endian n value) = cksum_value n value.
Proof.
  unfold big_endian, cksum_value. rewrite read_cksum_be_bytes.
  apply ToUint32_small.
  pose proof (ToUint32_range value).
  pose proof (Z.mod_le (ToUint32 value) (256 ^ Z.of_nat n)).
  pose proof (Z.mod_pos_bound (ToUint32 value) (256 ^ Z.of_nat n)).
  lia.
Qed.

(** ** The composed header *)

Lemma writeUIntBE_at target offset value n pre mid post :
  target = pre ++ mid ++ post -> offset = length pre -> length mid = n ->
  writeUIntBE target offset value n
  = (pre ++ big_endian n value ++ post, (offset + n)%nat).
Proof. intros -> -> Hmid. by apply writeUIntBE_spec. Qed.

Lemma subarray_prefix (array : list Z) (n : nat) :
  (n <= length array)%nat -> subarray array 0 (Z.of_nat n) = take n array.
Proof.
  intros Hn. unfold subarray, clamp_index. simpl.
  destruct (Z.ltb_spec (Z.of_nat n) 0); [lia|].
  rewrite Z.min_l, Z.min_l by lia.
  rewrite Z.sub_0_r, Nat2Z.id. done.
Qed.

Lemma subarray_covered (array covered rest : list Z) (n : nat) :
  array = covered ++ rest -> n = length covered ->
  subarray array 0 (Z.of_nat n) = covered.
Proof.
  intros -> ->. rewrite subarray_prefix by (rewrite length_app; lia).
  by rewrite take_app_length.
Qed.

Lemma header_writes pre a b c k va vb vc :
  let '(b0, o0) := writeUIntBE (pre ++ replicate (a + b + c + k) 0) (length pre) va a in
  let '(b1, o1) := writeUIntBE b0 o0 vb b in
  writeUIntBE b1 o1 vc c
  = (pre ++ big_endian a va ++ big_endian b vb ++ big_endian c vc ++ replicate k 0,
     length (pre ++ big_endian a va ++ big_endian b vb ++ big_endian c vc)).
Proof.
  rewrite !replicate_add, <- !(assoc_L (++) (replicate _ _)).
  rewrite writeUIntBE_spec by apply length_replicate.
  rewrite (writeUIntBE_at _ _ vb b (pre ++ big_endian a va) (replicate b 0)
             (replicate c 0 ++ replicate k 0)).
  2: by rewrite <- (assoc_L (++)).
  2: by rewrite length_app, big_endian_length.
  2: apply length_replicate.
  rewrite (writeUIntBE_at _ _ vc c (pre ++ big_endian a va ++ big_endian b vb)
             (replicate c 0) (replicate k 0)).
  2: by rewrite <- !(assoc_L (++)).
  2: by rewrite !length_app, !big_endian_length, Nat.add_assoc.
  2: apply length_replicate.
  f_equal.
  - by rewrite <- !(assoc_L (++)).
  - rewrite !length_app, !big_endian_length. lia.
Qed.

Lemma composeHead_spec tf message :
  composeHead tf message
  = let id := peer_stamp tf (allocated tf message).1 in
    ((allocated tf message).2,
     Message.set_frameID id message,
     sof_bytes tf
     ++ header_fields tf id message
     ++ cksum_bytes tf (sof_bytes tf ++ header_fields tf id message)).
Proof.
  unfold composeHead, allocated, peer_stamp, sof_bytes, header_fields, cksum_bytes,
    checksum_size.
  destruct tf as [pr nid st tk tmo sof chk ck idS lenS typeS pl cid ln ty cks dat idL tyL gL w].
  destruct (Message.isResponse message) eqn:Hresp; cbn [getNextID].
  all: cbn -[writeUIntBE subarray big_endian js_or js_shl Z.mul Z.sub Z.of_nat].
  all: match goal with
       | |- context [Message.set_frameID ?v _] => generalize v; intros id
       end.
  all: set (vlen := Z.of_nat (length (Message.data message))).
  all: set (vty := Message.type message).
  all: destruct sof as [sof|], ck as [c|].
  all: cbn -[writeUIntBE subarray big_endian js_or js_shl Z.mul Z.sub Z.of_nat].
  all: match goal with
       | |- context [writeUIntBE (?x :: replicate (_ + _ + _ + ?k) 0) _ _ _] =>
           pose proof (header_writes [x] idS lenS typeS k id vlen vty) as H
       | |- context [writeUIntBE (replicate (_ + _ + _ + ?k) 0) _ _ _] =>
           pose proof (header_writes [] idS lenS typeS k id vlen vty) as H
       end.
  all: cbn [app length] in H.
  all: destruct (writeUIntBE _ _ id idS) as [b0 o0].
  all: destruct (writeUIntBE b0 o0 vlen lenS) as [b1 o1].
  all: rewrite H; clear H.
  all: rewrite ?Nat.add_0_r; cbn [replicate].
  all: rewrite ?(right_id_L [] (++)).
  all: try reflexivity.
  all: match goal with
       | |- context [big_endian (Checksum.size ?c) (Checksum.sum ?c ?cov)] =>
           rewrite (subarray_covered _ cov (replicate (Checksum.size c) 0));
           [ rewrite (writeUIntBE_at _ _ _ _ cov (replicate (Checksum.size c) 0) []) | .. ]
       end.
  all: rewrite ?(right_id_L [] (++)); cbn [fst app length].
  all: rewrite <- ?(assoc_L (++)).
  all: try reflexivity.
  all: apply length_replicate.
Qed.

Lemma composeHead_config tf message :
  let tf' := (composeHead tf message).1.1 in
  peer tf' = peer tf /\ sofByte tf' = sofByte tf /\ chunkSize tf' = chunkSize tf
  /\ checksum tf' = checksum tf /\ idSize tf' = idSize tf /\ lenSize tf' = lenSize tf
  /\ typeSize tf' = typeSize tf /\ write tf' = write tf.
Proof.
  rewrite composeHead_spec. unfold allocated.
  by destruct (Message.isResponse message).
Qed.

(** ** Sending *)

Lemma subarray_chunk (buffer : list Z) (cursor size : Z) :
  0 <= cursor < Z.of_nat (length buffer) -> 0 < size ->
  subarray buffer cursor (cursor + size) ++ drop (Z.to_nat (cursor + size)) buffer
  = drop (Z.to_nat cursor) buffer.
Proof.
  intros Hc Hs. unfold subarray, clamp_index.
  destruct (Z.ltb_spec cursor 0); [lia|].
  destruct (Z.ltb_spec (cursor + size) 0); [lia|].
  rewrite (Z.min_l cursor) by lia.
  destruct (Z.le_gt_cases (cursor + size) (Z.of_nat (length buffer))) as [Hin|Hout].
  - rewrite Z.min_l by lia.
    replace (Z.to_nat (cursor + size))
      with (Z.to_nat cursor + Z.to_nat (cursor + size - cursor))%nat by lia.
    rewrite <- drop_drop. apply take_drop.
  - rewrite Z.min_r by lia.
    rewrite (drop_ge buffer (Z.to_nat (cursor + size))) by lia.
    rewrite take_ge by (rewrite length_drop; lia).
    apply (right_id_L [] (++)).
Qed.

Lemma write_loop_transport fuel : forall buffer size cursor,
  0 < size -> 0 <= cursor ->
  (length buffer - Z.to_nat cursor <= fuel)%nat ->
  exists events,
    write_loop fuel Transport buffer size cursor = (events, Returned)
    /\ concat (written events) = drop (Z.to_nat cursor) buffer.
Proof.
  induction fuel as [|fuel IH]; intros buffer size cursor Hs Hc Hfuel; simpl.
  - destruct (Z.ltb_spec cursor (Z.of_nat (length buffer))); [lia|].
    exists []. split; [done|]. by rewrite drop_ge by lia.
  - destruct (Z.ltb_spec cursor (Z.of_nat (length buffer))).
    + destruct (IH buffer size (cursor + size)) as (events & -> & Hev); [lia..|].
      eexists. split; [done|]. simpl. rewrite Hev.
      apply subarray_chunk; lia.
    + exists []. split; [done|]. by rewrite drop_ge by lia.
Qed.

Lemma write_loop_default fuel (buffer : list Z) size :
  buffer <> [] ->
  write_loop (S fuel) NoWriteImplementation buffer size 0
  = ([], Threw "No write implementation").
Proof. intros Hb. by destruct buffer. Qed.

Lemma sendFrame_payload tf message :
  match checksum tf with
  | Some c =>
      if (0 <? length (Message.data message))%nat then
        concatUint8
          [Message.data message;
           (writeUIntBE (new_Uint8Array (Checksum.size c)) 0
              (Checksum.sum c (Message.data message)) (Checksum.size c)).1]
      else Message.data message
  | None => Message.data message
  end = payload_bytes tf message.
Proof.
  unfold payload_bytes. destruct (checksum tf) as [c|].
  - destruct (0 <? _)%nat.
    + unfold concatUint8, new_Uint8Array.
      rewrite (writeUIntBE_at _ _ _ _ [] (replicate (Checksum.size c) 0) []);
        [|by rewrite (right_id_L [] (++))|done|apply length_replicate].
      simpl. by rewrite !(right_id_L [] (++)).
    + by rewrite (right_id_L [] (++)).
  - by rewrite (right_id_L [] (++)).
Qed.

Lemma stamped_id_spec tf message :
  stamped_id tf message = peer_stamp tf (allocated tf message).1.
Proof. unfold stamped_id. by rewrite composeHead_spec. Qed.

Lemma frame_bytes_spec tf message :
  frame_bytes tf message
  = sof_bytes tf
    ++ header_fields tf (stamped_id tf message) message
    ++ cksum_bytes tf (sof_bytes tf ++ header_fields tf (stamped_id tf message) message)
    ++ payload_bytes tf message.
Proof.
  unfold frame_bytes. rewrite stamped_id_spec, composeHead_spec. cbn [snd].
  by rewrite <- !(assoc_L (++)).
Qed.

Lemma written_app events events' :
  written (events ++ events') = written events ++ written events'.
Proof. apply omap_app. Qed.

Lemma sendFrame_sent fuel tf message callback timeout :
  sent (sendFrame fuel tf message callback timeout)
  = Message.set_frameID (stamped_id tf message) message.
Proof.
  rewrite stamped_id_spec. unfold sendFrame. rewrite composeHead_spec. cbv beta iota zeta.
  match goal with
  | |- context [write_loop ?a ?b ?c ?d ?e] => by destruct (write_loop a b c d e)
  end.
Qed.

Lemma sendFrame_transport fuel tf message callback timeout :
  write tf = Transport -> 0 < chunkSize tf ->
  (length (frame_bytes tf message) <= fuel)%nat ->
  let r := sendFrame fuel tf message callback timeout in
  completion r = Returned
  /\ concat (written (trace r)) = frame_bytes tf message.
Proof.
  intros Hw Hc Hfuel. cbv zeta. unfold sendFrame.
  unfold frame_bytes in *. rewrite composeHead_spec in *. cbv beta iota zeta in *. cbn [snd] in *.
  set (header := sof_bytes tf ++ _) in *.
  set (tf1 := match callback with Some _ => _ | None => _ end).
  assert (Hcfg : checksum tf1 = checksum tf /\ write tf1 = write tf
                 /\ chunkSize tf1 = chunkSize tf).
  { unfold tf1, allocated.
    by destruct callback, (Message.isResponse message). }
  destruct Hcfg as (Hck & Hwr & Hcs).
  rewrite Hck, Hwr, Hcs, Hw.
  cbn [Message.data Message.set_frameID].
  pose proof (sendFrame_payload tf message) as Hp. cbv zeta in Hp. rewrite Hp.
  unfold concatUint8. cbn [concat]. rewrite (right_id_L [] (++)).
  destruct (write_loop_transport fuel (header ++ payload_bytes tf message)
              (chunkSize tf) 0) as (events & -> & Hev); [lia..|].
  cbn [completion trace]. split; [done|].
  change (ClaimTx :: events ++ [ReleaseTx]) with ([ClaimTx] ++ events ++ [ReleaseTx]).
  rewrite !written_app. simpl. by rewrite (right_id_L [] (++)).
Qed.

(** ** The parser, state by state *)

Arguments js_or : simpl never.
Arguments js_shl : simpl never.
Arguments js_ushr : simpl never.
Arguments js_and : simpl never.
Arguments ToInt32 : simpl never.
Arguments ToUint32 : simpl never.
Arguments ToUint8 : simpl never.

Lemma with_parser_self tf :
  with_parser tf (state tf) (partLen tf) (currentID tf) (len tf) (currentType tf)
    (cksum tf) (data tf) = tf.
Proof. by destruct tf. Qed.

Lemma timeout_check_idle tf :
  timeout_idle tf ->
  match parserTimeout tf with
  | Some limit => if limit <? parserTimeoutTicks tf then resetParser tf else tf
  | None => tf
  end = tf.
Proof.
  unfold timeout_idle. destruct (parserTimeout tf) as [limit|]; [|done].
  intros H. by destruct (Z.ltb_spec limit (parserTimeoutTicks tf)); [lia|].
Qed.

Lemma with_parser_idle tf st pl cid ln ty ck dat :
  timeout_idle tf -> timeout_idle (with_parser tf st pl cid ln ty ck dat).
Proof. done. Qed.

(** Bring an engine expression with literal parser fields to a record. *)
Ltac tf_norm :=
  cbv beta iota zeta delta
    [with_parser resetParser beginFrame push_data checksum_size
     set_nextID set_state set_parserTimeoutTicks set_partLen set_currentID set_len
     set_currentType set_cksum set_data set_idListeners set_typeListeners
     set_genericListeners
     peer nextID state parserTimeoutTicks parserTimeout sofByte chunkSize checksum
     idSize lenSize typeSize partLen currentID len currentType cksum data
     idListeners typeListeners genericListeners write].

Ltac parser_step :=
  match goal with
  | Hidle : timeout_idle ?tf |- _ =>
      unfold acceptByte;
      rewrite timeout_check_idle by (by apply with_parser_idle);
      clear Hidle;
      destruct tf as [? ? ? ? ? ? ? strategy ? ? ? ? ? ? ? ? ? ? ? ? ?];
      tf_norm
  end.

Section ParserSteps.

Variable run : ListenerRef -> TinyFrame -> Message.t -> TinyFrame * Message.t.
Variable tf : TinyFrame.
Hypothesis Hidle : timeout_idle tf.

Lemma acceptByte_sof_marker sof pl cid ln ty ck dat :
  sofByte tf = Some sof ->
  acceptByte run (with_parser tf st_sof pl cid ln ty ck dat) sof
  = (with_parser tf st_id 0 0 0 0 0 [sof], []).
Proof.
  clear -Hidle. intros Hsof. parser_step.
  cbn in Hsof; subst. by rewrite Z.eqb_refl.
Qed.

Lemma acceptByte_sof_skip sof pl cid ln ty ck dat b :
  sofByte tf = Some sof -> b <> sof ->
  acceptByte run (with_parser tf st_sof pl cid ln ty ck dat) b
  = (with_parser tf st_sof pl cid ln ty ck dat, []).
Proof.
  clear -Hidle. intros Hsof Hb. parser_step.
  cbn in Hsof; subst. by destruct (Z.eqb_spec b sof).
Qed.

Lemma acceptByte_sof_none pl cid ln ty ck dat b :
  sofByte tf = None ->
  acceptByte run (with_parser tf st_sof pl cid ln ty ck dat) b
  = acceptByte run (with_parser tf st_id 0 0 0 0 0 []) b.
Proof.
  clear -Hidle. intros Hsof.
  unfold acceptByte. rewrite !timeout_check_idle by (by apply with_parser_idle).
  clear Hidle. destruct tf. cbn in Hsof; subst. tf_norm. reflexivity.
Qed.

Lemma acceptByte_id pl cid ln ty ck dat b :
  acceptByte run (with_parser tf st_id pl cid ln ty ck dat) b
  = (if (S pl =? idSize tf)%nat
     then with_parser tf st_len 0 (js_or (js_shl cid 8) b) ln ty ck (dat ++ [b])
     else with_parser tf st_id (S pl) (js_or (js_shl cid 8) b) ln ty ck (dat ++ [b]),
     []).
Proof. clear -Hidle. parser_step. by destruct (_ =? _)%nat. Qed.

Lemma acceptByte_len pl cid ln ty ck dat b :
  acceptByte run (with_parser tf st_len pl cid ln ty ck dat) b
  = (if (S pl =? lenSize tf)%nat
     then with_parser tf st_type 0 cid (js_or (js_shl ln 8) b) ty ck (dat ++ [b])
     else with_parser tf st_len (S pl) cid (js_or (js_shl ln 8) b) ty ck (dat ++ [b]),
     []).
Proof. clear -Hidle. parser_step. by destruct (_ =? _)%nat. Qed.

Lemma acceptByte_type pl cid ln ty ck dat b :
  acceptByte run (with_parser tf st_type pl cid ln ty ck dat) b
  = (if (S pl =? typeSize tf)%nat
     then with_parser tf
            (match checksum tf with Some _ => st_headcksum | None => st_data end)
            0 cid ln (js_or (js_shl ty 8) b) ck (dat ++ [b])
     else with_parser tf st_type (S pl) cid ln (js_or (js_shl ty 8) b) ck (dat ++ [b]),
     []).
Proof. clear -Hidle. parser_step. by destruct (_ =? _)%nat. Qed.

Lemma acceptByte_headcksum pl cid ln ty ck dat b :
  acceptByte run (with_parser tf st_headcksum pl cid ln ty ck dat) b
  = let ck' := js_ushr (js_or (js_shl ck 8) b) 0 in
    if (S pl =? checksum_size tf)%nat then
      match checksum tf with
      | None => (with_parser tf st_sof 0 cid ln ty ck' dat, [])
      | Some c =>
          if Checksum.sum c dat =? ck' then
            if ln =? 0 then
              dispatch_and_reset run
                (with_parser tf st_headcksum (S pl) cid ln ty ck' (dat ++ [b]))
            else (with_parser tf st_data 0 cid ln ty ck' [], [])
          else (with_parser tf st_sof 0 cid ln ty ck' dat, [])
      end
    else (with_parser tf st_headcksum (S pl) cid ln ty ck' dat, []).
Proof.
  clear -Hidle. parser_step.
  destruct strategy as [c|]; (destruct (_ =? _)%nat; [|reflexivity]); [|reflexivity].
  destruct (Checksum.sum c dat =? _); cbn [negb]; [|reflexivity].
  try (by destruct (ln =? 0)).
Qed.

Lemma acceptByte_data pl cid ln ty ck dat b :
  acceptByte run (with_parser tf st_data pl cid ln ty ck dat) b
  = if Z.of_nat (S pl) =? ln then
      match checksum tf with
      | None =>
          dispatch_and_reset run (with_parser tf st_data (S pl) cid ln ty ck (dat ++ [b]))
      | Some _ => (with_parser tf st_datacksum 0 cid ln ty 0 (dat ++ [b]), [])
      end
    else (with_parser tf st_data (S pl) cid ln ty ck (dat ++ [b]), []).
Proof.
  clear -Hidle. parser_step.
  destruct (_ =? ln); [|reflexivity].
  by destruct strategy.
Qed.

Lemma acceptByte_datacksum pl cid ln ty ck dat b :
  acceptByte run (with_parser tf st_datacksum pl cid ln ty ck dat) b
  = let ck' := js_ushr (js_or (js_shl ck 8) b) 0 in
    if (S pl =? checksum_size tf)%nat then
      match checksum tf with
      | Some c =>
          if Checksum.sum c dat =? ck' then
            dispatch_and_reset run (with_parser tf st_datacksum (S pl) cid ln ty ck' dat)
          else (with_parser tf st_sof 0 cid ln ty ck' dat, [])
      | None => (with_parser tf st_sof 0 cid ln ty ck' dat, [])
      end
    else (with_parser tf st_datacksum (S pl) cid ln ty ck' dat, []).
Proof.
  clear -Hidle. parser_step.
  destruct strategy as [c|]; (destruct (_ =? _)%nat; [|reflexivity]); [|reflexivity].
  destruct (Checksum.sum c dat =? _); cbn [negb]; [|reflexivity].
  try (by destruct (ln =? 0)).
Qed.

(** *** Whole fields *)

Lemma accept_cons t b bs :
  accept run t (b :: bs)
  = let '(t1, ds) := acceptByte run t b in
    let '(t2, ds') := accept run t1 bs in
    (t2, ds ++ ds').
Proof. reflexivity. Qed.

Lemma accept_cons_quiet t t1 b bs :
  acceptByte run t b = (t1, []) -> accept run t (b :: bs) = accept run t1 bs.
Proof. intros H. rewrite accept_cons, H. by destruct (accept run t1 bs). Qed.

Lemma accept_single t b : accept run t [b] = acceptByte run t b.
Proof.
  cbn [accept]. destruct (acceptByte run t b) as [t' ds].
  by rewrite (right_id_L [] (++)).
Qed.

Lemma accept_app t bs bs' :
  accept run t (bs ++ bs')
  = let '(t1, ds1) := accept run t bs in
    let '(t2, ds2) := accept run t1 bs' in
    (t2, ds1 ++ ds2).
Proof.
  revert t. induction bs as [|b bs IH]; intros t; cbn [accept app].
  - by destruct (accept run t bs').
  - destruct (acceptByte run t b) as [t1 ds1]. rewrite IH.
    destruct (accept run t1 bs) as [t2 ds2].
    destruct (accept run t2 bs') as [t3 ds3].
    by rewrite (assoc_L (++)).
Qed.

Lemma accept_id ln ty ck bs : forall pl cid dat,
  bs <> [] -> (pl + length bs = idSize tf)%nat ->
  accept run (with_parser tf st_id pl cid ln ty ck dat) bs
  = (with_parser tf st_len 0 (read_field cid bs) ln ty ck (dat ++ bs), []).
Proof.
  induction bs as [|b bs IH]; [done|]. intros pl cid dat _ Hlen.
  destruct bs as [|b' bs'].
  - rewrite accept_single, acceptByte_id.
    cbn in Hlen. by rewrite (proj2 (Nat.eqb_eq _ _)) by lia.
  - cbn [length] in Hlen. erewrite accept_cons_quiet; last first.
    { rewrite acceptByte_id. cbn [length] in Hlen.
      by rewrite (proj2 (Nat.eqb_neq _ _)) by lia. }
    rewrite IH by (done || (cbn [length]; lia)).
    by rewrite <- (assoc_L (++)).
Qed.

Lemma accept_len cid ty ck bs : forall pl ln dat,
  bs <> [] -> (pl + length bs = lenSize tf)%nat ->
  accept run (with_parser tf st_len pl cid ln ty ck dat) bs
  = (with_parser tf st_type 0 cid (read_field ln bs) ty ck (dat ++ bs), []).
Proof.
  induction bs as [|b bs IH]; [done|]. intros pl ln dat _ Hlen.
  destruct bs as [|b' bs'].
  - rewrite accept_single, acceptByte_len.
    cbn in Hlen. by rewrite (proj2 (Nat.eqb_eq _ _)) by lia.
  - cbn [length] in Hlen. erewrite accept_cons_quiet; last first.
    { rewrite acceptByte_len. cbn [length] in Hlen.
      by rewrite (proj2 (Nat.eqb_neq _ _)) by lia. }
    rewrite IH by (done || (cbn [length]; lia)).
    by rewrite <- (assoc_L (++)).
Qed.

Lemma accept_type cid ln ck bs : forall pl ty dat,
  bs <> [] -> (pl + length bs = typeSize tf)%nat ->
  accept run (with_parser tf st_type pl cid ln ty ck dat) bs
  = (with_parser tf
       (match checksum tf with Some _ => st_headcksum | None => st_data end)
       0 cid ln (read_field ty bs) ck (dat ++ bs), []).
Proof.
  induction bs as [|b bs IH]; [done|]. intros pl ty dat _ Hlen.
  destruct bs as [|b' bs'].
  - rewrite accept_single, acceptByte_type.
    cbn in Hlen. by rewrite (proj2 (Nat.eqb_eq _ _)) by lia.
  - cbn [length] in Hlen. erewrite accept_cons_quiet; last first.
    { rewrite acceptByte_type. cbn [length] in Hlen.
      by rewrite (proj2 (Nat.eqb_neq _ _)) by lia. }
    rewrite IH by (done || (cbn [length]; lia)).
    by rewrite <- (assoc_L (++)).
Qed.

Lemma accept_headcksum c cid ln ty dat bs : forall pl ck,
  checksum tf = Some c ->
  bs <> [] -> (pl + length bs = Checksum.size c)%nat ->
  accept run (with_parser tf st_headcksum pl cid ln ty ck dat) bs
  = let ck' := read_cksum ck bs in
    if Checksum.sum c dat =? ck' then
      if ln =? 0 then
        dispatch_and_reset run
          (with_parser tf st_headcksum (Checksum.size c) cid ln ty ck'
             (dat ++ [default 0 (last bs)]))
      else (with_parser tf st_data 0 cid ln ty ck' [], [])
    else (with_parser tf st_sof 0 cid ln ty ck' dat, []).
Proof.
  induction bs as [|b bs IH]; [done|]. intros pl ck Hc _ Hlen.
  destruct bs as [|b' bs'].
  - rewrite accept_single, acceptByte_headcksum. unfold checksum_size. rewrite Hc.
    cbn in Hlen. rewrite (proj2 (Nat.eqb_eq _ _)) by lia.
    cbv zeta. cbn [last default read_cksum foldl].
    by replace (S pl) with (Checksum.size c) by lia.
  - cbn [length] in Hlen. erewrite accept_cons_quiet; last first.
    { rewrite acceptByte_headcksum. unfold checksum_size. rewrite Hc.
      cbn [length] in Hlen. by rewrite (proj2 (Nat.eqb_neq _ _)) by lia. }
    rewrite IH by (done || (cbn [length]; lia)).
    cbv zeta. cbn [last]. cbn [read_cksum foldl].
    by repeat case_match.
Qed.

Lemma accept_data cid ln ty ck bs : forall pl dat,
  bs <> [] -> Z.of_nat (pl + length bs) = ln ->
  accept run (with_parser tf st_data pl cid ln ty ck dat) bs
  = match checksum tf with
    | None =>
        dispatch_and_reset run
          (with_parser tf st_data (pl + length bs) cid ln ty ck (dat ++ bs))
    | Some _ => (with_parser tf st_datacksum 0 cid ln ty 0 (dat ++ bs), [])
    end.
Proof.
  induction bs as [|b bs IH]; [done|]. intros pl dat _ Hlen.
  destruct bs as [|b' bs'].
  - rewrite accept_single, acceptByte_data.
    cbn [length] in *. rewrite (proj2 (Z.eqb_eq _ _)) by lia.
    by replace (pl + 1)%nat with (S pl) by lia.
  - cbn [length] in Hlen. erewrite accept_cons_quiet; last first.
    { rewrite acceptByte_data. cbn [length] in Hlen.
      by rewrite (proj2 (Z.eqb_neq _ _)) by lia. }
    rewrite IH by (done || (cbn [length]; lia)).
    rewrite <- (assoc_L (++)). cbn [length app].
    replace (S pl + S (length bs'))%nat with (pl + S (S (length bs')))%nat by lia.
    by repeat case_match.
Qed.

Lemma accept_datacksum c cid ln ty dat bs : forall pl ck,
  checksum tf = Some c ->
  bs <> [] -> (pl + length bs = Checksum.size c)%nat ->
  accept run (with_parser tf st_datacksum pl cid ln ty ck dat) bs
  = let ck' := read_cksum ck bs in
    if Checksum.sum c dat =? ck' then
      dispatch_and_reset run
        (with_parser tf st_datacksum (Checksum.size c) cid ln ty ck' dat)
    else (with_parser tf st_sof 0 cid ln ty ck' dat, []).
Proof.
  induction bs as [|b bs IH]; [done|]. intros pl ck Hc _ Hlen.
  destruct bs as [|b' bs'].
  - rewrite accept_single, acceptByte_datacksum. unfold checksum_size. rewrite Hc.
    cbn in Hlen. rewrite (proj2 (Nat.eqb_eq _ _)) by lia.
    cbv zeta. cbn [read_cksum foldl].
    by replace (S pl) with (Checksum.size c) by lia.
  - cbn [length] in Hlen. erewrite accept_cons_quiet; last first.
    { rewrite acceptByte_datacksum. unfold checksum_size. rewrite Hc.
      cbn [length] in Hlen. by rewrite (proj2 (Nat.eqb_neq _ _)) by lia. }
    rewrite IH by (done || (cbn [length]; lia)).
    cbv zeta. cbn [read_cksum foldl].
    by repeat case_match.
Qed.

End ParserSteps.

(** ** The parser on a whole frame *)

Lemma dispatch_and_reset_spec run tf :
  exists tf' d,
    dispatch_and_reset run tf = (tf', [d])
    /\ dispatched d = received_message tf
    /\ state tf' = st_sof.
Proof.
  unfold dispatch_and_reset, handleReceived. cbv zeta.
  eexists _, _. split; [reflexivity|]. split; reflexivity.
Qed.

Section ParseFrame.

Variable run : ListenerRef -> TinyFrame -> Message.t -> TinyFrame * Message.t.
Variable rx : TinyFrame.
Hypothesis Hsof : state rx = st_sof.
Hypothesis Hidle : timeout_idle rx.
Hypothesis Hmarker : sof_is_byte rx.

Lemma accept_app_quiet t t' bs rest :
  accept run t bs = (t', []) -> accept run t (bs ++ rest) = accept run t' rest.
Proof. intros H. rewrite accept_app, H. by destruct (accept run t' rest). Qed.

Lemma at_sof :
  rx = with_parser rx st_sof (partLen rx) (currentID rx) (len rx) (currentType rx)
         (cksum rx) (data rx).
Proof. rewrite <- Hsof. symmetry. apply with_parser_self. Qed.

Lemma accept_from_sof b rest :
  accept run rx (sof_bytes rx ++ b :: rest)
  = accept run (with_parser rx st_id 0 0 0 0 0 (sof_bytes rx)) (b :: rest).
Proof.
  rewrite at_sof at 1. unfold sof_bytes, sof_is_byte in *.
  destruct (sofByte rx) as [sof|] eqn:Hs.
  - unfold ToUint8. rewrite Z.mod_small by done. cbn [app].
    erewrite accept_cons_quiet; [done|].
    by apply acceptByte_sof_marker.
  - cbn [app]. rewrite !accept_cons. by rewrite acceptByte_sof_none.
Qed.

Lemma accept_header I L T :
  I <> [] -> L <> [] -> T <> [] ->
  length I = idSize rx -> length L = lenSize rx -> length T = typeSize rx ->
  accept run rx (sof_bytes rx ++ I ++ L ++ T)
  = (with_parser rx
       (match checksum rx with Some _ => st_headcksum | None => st_data end)
       0 (read_field 0 I) (read_field 0 L) (read_field 0 T) 0
       (sof_bytes rx ++ I ++ L ++ T), []).
Proof.
  intros HI HL HT HIn HLn HTn.
  destruct I as [|b I']; [done|]. cbn [app]. rewrite accept_from_sof.
  change (b :: I' ++ L ++ T) with ((b :: I') ++ L ++ T).
  erewrite accept_app_quiet; [|by apply accept_id].
  erewrite accept_app_quiet; [|by apply accept_len].
  rewrite accept_type by done.
  by rewrite <- !(assoc_L (++)).
Qed.

Lemma regroup_header (S I L T rest : list Z) :
  S ++ I ++ L ++ T ++ rest = (S ++ I ++ L ++ T) ++ rest.
Proof. by rewrite <- !(assoc_L (++)). Qed.

Lemma accept_frame_checked c I L T K D KD :
  I <> [] -> L <> [] -> T <> [] -> K <> [] -> D <> [] ->
  length I = idSize rx -> length L = lenSize rx -> length T = typeSize rx ->
  checksum rx = Some c ->
  length K = Checksum.size c -> length KD = Checksum.size c ->
  read_cksum 0 K = Checksum.sum c (sof_bytes rx ++ I ++ L ++ T) ->
  read_field 0 L = Z.of_nat (length D) ->
  read_cksum 0 KD = Checksum.sum c D ->
  accept run rx (sof_bytes rx ++ I ++ L ++ T ++ K ++ D ++ KD)
  = dispatch_and_reset run
      (with_parser rx st_datacksum (Checksum.size c) (read_field 0 I)
         (Z.of_nat (length D)) (read_field 0 T) (Checksum.sum c D) D).
Proof.
  intros HI HL HT HK HD HIn HLn HTn Hc HKn HKDn HKv HLv HKDv.
  assert (HKD : KD <> []) by (destruct KD, K; done || (cbn in *; lia)).
  rewrite regroup_header.
  erewrite accept_app_quiet; [|by apply accept_header].
  rewrite Hc, HLv.
  erewrite accept_app_quiet; last first.
  { rewrite (accept_headcksum run rx Hidle c) by done. cbv zeta.
    rewrite HKv, Z.eqb_refl.
    destruct (Z.eqb_spec (Z.of_nat (length D)) 0) as [Hz|]; [|done].
    destruct D; [done|]. cbn [length] in Hz. lia. }
  erewrite accept_app_quiet; last first.
  { rewrite accept_data by (done || (cbn; lia)). by rewrite Hc. }
  rewrite (accept_datacksum run rx Hidle c) by done. cbv zeta.
  by rewrite HKDv, Z.eqb_refl.
Qed.

Lemma accept_frame_plain I L T D :
  I <> [] -> L <> [] -> T <> [] -> D <> [] ->
  length I = idSize rx -> length L = lenSize rx -> length T = typeSize rx ->
  checksum rx = None ->
  read_field 0 L = Z.of_nat (length D) ->
  accept run rx (sof_bytes rx ++ I ++ L ++ T ++ D)
  = dispatch_and_reset run
      (with_parser rx st_data (length D) (read_field 0 I) (Z.of_nat (length D))
         (read_field 0 T) 0 (sof_bytes rx ++ I ++ L ++ T ++ D)).
Proof.
  intros HI HL HT HD HIn HLn HTn Hc HLv.
  rewrite regroup_header.
  erewrite accept_app_quiet; [|by apply accept_header].
  rewrite Hc, HLv.
  rewrite accept_data by (done || (cbn; lia)). rewrite Hc. cbn [Nat.add].
  by rewrite <- !(assoc_L (++)).
Qed.

Lemma accept_frame_empty c I L T K :
  I <> [] -> L <> [] -> T <> [] -> K <> [] ->
  length I = idSize rx -> length L = lenSize rx -> length T = typeSize rx ->
  checksum rx = Some c ->
  length K = Checksum.size c ->
  read_cksum 0 K = Checksum.sum c (sof_bytes rx ++ I ++ L ++ T) ->
  read_field 0 L = 0 ->
  accept run rx (sof_bytes rx ++ I ++ L ++ T ++ K)
  = dispatch_and_reset run
      (with_parser rx st_headcksum (Checksum.size c) (read_field 0 I) 0
         (read_field 0 T) (Checksum.sum c (sof_bytes rx ++ I ++ L ++ T))
         ((sof_bytes rx ++ I ++ L ++ T) ++ [default 0 (last K)])).
Proof.
  intros HI HL HT HK HIn HLn HTn Hc HKn HKv HLv.
  rewrite regroup_header.
  erewrite accept_app_quiet; [|by apply accept_header].
  rewrite Hc, HLv.
  rewrite (accept_headcksum run rx Hidle c) by done. cbv zeta.
  by rewrite HKv, Z.eqb_refl.
Qed.

Lemma accept_header_rejected c I L T K :
  I <> [] -> L <> [] -> T <> [] -> K <> [] ->
  length I = idSize rx -> length L = lenSize rx -> length T = typeSize rx ->
  checksum rx = Some c ->
  length K = Checksum.size c ->
  read_cksum 0 K <> Checksum.sum c (sof_bytes rx ++ I ++ L ++ T) ->
  accept run rx (sof_bytes rx ++ I ++ L ++ T ++ K)
  = (with_parser rx st_sof 0 (read_field 0 I) (read_field 0 L) (read_field 0 T)
       (read_cksum 0 K) (sof_bytes rx ++ I ++ L ++ T), []).
Proof.
  intros HI HL HT HK HIn HLn HTn Hc HKn HKv.
  rewrite regroup_header.
  erewrite accept_app_quiet; [|by apply accept_header].
  rewrite Hc.
  rewrite (accept_headcksum run rx Hidle c) by done. cbv zeta.
  by destruct (Z.eqb_spec (Checksum.sum c (sof_bytes rx ++ I ++ L ++ T))
                 (read_cksum 0 K)).
Qed.

Lemma accept_header_passed c I L T K :
  I <> [] -> L <> [] -> T <> [] -> K <> [] ->
  length I = idSize rx -> length L = lenSize rx -> length T = typeSize rx ->
  checksum rx = Some c ->
  length K = Checksum.size c ->
  read_cksum 0 K = Checksum.sum c (sof_bytes rx ++ I ++ L ++ T) ->
  read_field 0 L <> 0 ->
  accept run rx (sof_bytes rx ++ I ++ L ++ T ++ K)
  = (with_parser rx st_data 0 (read_field 0 I) (read_field 0 L) (read_field 0 T)
       (read_cksum 0 K) [], []).
Proof.
  intros HI HL HT HK HIn HLn HTn Hc HKn HKv HLv.
  rewrite regroup_header.
  erewrite accept_app_quiet; [|by apply accept_header].
  rewrite Hc.
  rewrite (accept_headcksum run rx Hidle c) by done. cbv zeta.
  rewrite HKv, Z.eqb_refl.
  by destruct (Z.eqb_spec (read_field 0 L) 0).
Qed.

End ParseFrame.

(** ** Round trip *)

Lemma accept_chunks_concat run tf chunks :
  accept_chunks run tf chunks = accept run tf (concat chunks).
Proof.
  revert tf. induction chunks as [|chunk chunks IH]; intros tf; [done|].
  cbn [accept_chunks concat]. rewrite accept_app.
  destruct (accept run tf chunk) as [tf1 ds1]. by rewrite IH.
Qed.

Lemma toUint8Array_bytes (bytes : list Z) :
  Forall is_byte bytes -> toUint8Array bytes = bytes.
Proof.
  unfold toUint8Array. induction 1 as [|b bytes Hb _ IH]; [done|].
  cbn [map]. rewrite IH. unfold ToUint8. by rewrite Z.mod_small.
Qed.

Lemma nonempty_of_length {A} (l : list A) : (1 <= length l)%nat -> l <> [].
Proof. destruct l; cbn; [lia|done]. Qed.

Lemma sof_bytes_is_byte tf : Forall is_byte (sof_bytes tf).
Proof.
  unfold sof_bytes. destruct (sofByte tf); [|constructor].
  constructor; [|constructor]. apply Z.mod_pos_bound. lia.
Qed.

Lemma header_fields_is_byte tf id message :
  Forall is_byte (header_fields tf id message).
Proof. unfold header_fields. rewrite !Forall_app. auto using big_endian_is_byte. Qed.

Lemma lxor_byte a b : is_byte a -> is_byte b -> is_byte (Z.lxor a b).
Proof.
  unfold is_byte. intros Ha Hb. split; [apply Z.lxor_nonneg; lia|].
  destruct (Z.eq_dec (Z.lxor a b) 0) as [->|Hnz]; [lia|].
  assert (0 < Z.lxor a b) by (pose proof (proj2 (Z.lxor_nonneg a b)); lia).
  apply (Z.log2_lt_pow2 _ 8); [done|].
  eapply Z.le_lt_trans; [apply Z.log2_lxor; lia|].
  apply Z.max_lub_lt.
  - destruct (Z.eq_dec a 0) as [->|]; [done|]. apply Z.log2_lt_pow2; lia.
  - destruct (Z.eq_dec b 0) as [->|]; [done|]. apply Z.log2_lt_pow2; lia.
Qed.

Lemma xor_sum_is_byte bytes : Forall is_byte bytes -> is_byte (xor_sum bytes).
Proof.
  unfold xor_sum. assert (is_byte 0) as H0 by (unfold is_byte; lia).
  revert H0. generalize 0. intros acc Hacc Hbytes. revert acc Hacc.
  induction Hbytes as [|b bytes Hb _ IH]; intros acc Hacc; [done|].
  cbn [foldl]. apply IH. by apply lxor_byte.
Qed.

Lemma xor8_fits : strategy_fits xor8.
Proof.
  split; [cbn; lia|]. intros bytes Hbytes. cbn.
  pose proof (xor_sum_is_byte bytes Hbytes) as [? ?].
  unfold cksum_value. rewrite ToUint32_small by lia.
  apply Z.mod_small. change (256 ^ Z.of_nat 1) with 256. lia.
Qed.

Lemma same_configuration_frame tx rx message :
  same_configuration tx rx ->
  frame_bytes tx message
  = sof_bytes rx
    ++ big_endian (idSize rx) (stamped_id tx message)
    ++ big_endian (lenSize rx) (Z.of_nat (length (Message.data message)))
    ++ big_endian (typeSize rx) (Message.type message)
    ++ cksum_bytes rx (sof_bytes rx ++ header_fields rx (stamped_id tx message) message)
    ++ payload_bytes rx message.
Proof.
  intros (Hi & Hl & Ht & Hs & Hc & _). rewrite frame_bytes_spec.
  unfold sof_bytes, header_fields, cksum_bytes, payload_bytes.
  rewrite Hi, Hl, Ht, Hs, Hc. by rewrite <- !(assoc_L (++)).
Qed.

(** C1 (as amended).  With a checksum strategy set whose sums fit its width,
    field widths of at least one byte, a start-of-frame marker (if any) that
    is a byte value, a positive chunk size and an assigned transport: a
    message with a non-empty payload whose stamped ID, payload length and
    type are representable in their fields is sent to completion, and
    however the written bytes are regrouped into chunks, a receiver with the
    same configuration, waiting in [sof] with its timeout not passed,
    dispatches exactly one message, with the type, the payload and the
    stamped frame ID of the original. *)
Theorem roundtrip_with_checksum run tx rx c message fuel :
  same_configuration tx rx ->
  state rx = st_sof -> timeout_idle rx ->
  write tx = Transport -> 0 < chunkSize tx ->
  widths_positive tx -> sof_is_byte tx ->
  checksum tx = Some c -> strategy_fits c ->
  Message.data message <> [] -> Forall is_byte (Message.data message) ->
  representable tx message ->
  (length (frame_bytes tx message) <= fuel)%nat ->
  completion (send fuel tx message) = Returned
  /\ forall chunks, round_trip run tx rx message fuel chunks.
Proof.
  intros Hcfg Hst Hidle Hw Hcs (Hi & Hl & Ht) Hmark Hc (Hsz & Hsum) Hne Hbytes
    (Hfid & Hflen & Hfty) Hfuel.
  pose proof Hcfg as (Hci & Hcl & Hct & Hcsof & Hcc & _).
  unfold round_trip, send. cbv zeta.
  destruct (sendFrame_transport fuel tx message None None Hw Hcs Hfuel)
    as [Hdone Hwire].
  split; [done|]. intros chunks Hchunks.
  rewrite accept_chunks_concat, Hchunks, Hwire, sendFrame_sent.
  rewrite (same_configuration_frame tx rx) by done.
  unfold cksum_bytes, payload_bytes. rewrite Hcc, Hc.
  assert ((0 <? length (Message.data message))%nat = true) as ->.
  { apply Nat.ltb_lt. destruct (Message.data message); [done|cbn; lia]. }
  set (hdr := sof_bytes rx ++ header_fields rx (stamped_id tx message) message).
  rewrite (accept_frame_checked run rx Hst Hidle) with (c := c); first last.
  - rewrite read_cksum_big_endian. by apply Hsum.
  - rewrite read_field_big_endian, Hcl. apply Hflen.
  - rewrite read_cksum_big_endian. apply Hsum.
    apply Forall_app. split; [apply sof_bytes_is_byte|apply header_fields_is_byte].
  - apply big_endian_length.
  - apply big_endian_length.
  - by rewrite Hcc.
  - apply big_endian_length.
  - apply big_endian_length.
  - apply big_endian_length.
  - done.
  - apply nonempty_of_length. by rewrite big_endian_length.
  - apply nonempty_of_length. rewrite big_endian_length. lia.
  - apply nonempty_of_length. rewrite big_endian_length. lia.
  - apply nonempty_of_length. rewrite big_endian_length. lia.
  - unfold sof_is_byte in *. by rewrite Hcsof.
  - edestruct (dispatch_and_reset_spec run) as (rx' & d & -> & Hd & _).
    exists rx', d. split; [done|]. rewrite Hd.
    unfold received_message. cbn.
    rewrite !read_field_big_endian, Hci, Hct, toUint8Array_bytes by done.
    auto.
Qed.

Lemma roundtrip_with_checksum_witness :
  completion (send 64 example_tx example_message) = Returned
  /\ forall chunks, round_trip passive_run example_tx example_rx example_message 64 chunks.
Proof.
  apply (roundtrip_with_checksum passive_run example_tx example_rx xor8
           example_message 64).
  - repeat split; reflexivity.
  - reflexivity.
  - exact I.
  - reflexivity.
  - vm_compute. reflexivity.
  - repeat split; vm_compute; lia.
  - exact I.
  - reflexivity.
  - apply xor8_fits.
  - discriminate.
  - repeat constructor; vm_compute; congruence.
  - repeat split; vm_compute; reflexivity.
  - vm_compute. lia.
Defined.

(** C1 as stated fails.  With the default configuration on both sides: a
    type that needs more than [typeSize] bytes comes back truncated; with
    the checksum switched off the dispatched payload is prefixed by the
    header bytes; and an empty payload does not come back empty. *)
Lemma roundtrip_counterexample :
  ~ round_trip passive_run example_tx example_rx (Message.new (2 ^ 32 + 5) [1]) 64
      (written (trace (send 64 example_tx (Message.new (2 ^ 32 + 5) [1]))))
  /\ ~ round_trip passive_run (set_checksum None example_tx)
        (set_checksum None example_rx) example_message 64
        (written (trace (send 64 (set_checksum None example_tx) example_message)))
  /\ ~ round_trip passive_run example_tx example_rx (Message.new 258 []) 64
        (written (trace (send 64 example_tx (Message.new 258 [])))).
Proof.
  repeat split.
  - intros H. destruct (H eq_refl) as (rx' & d & Heq & Hty & _).
    vm_compute in Heq. inversion Heq; subst. vm_compute in Hty. discriminate.
  - intros H. destruct (H eq_refl) as (rx' & d & Heq & _ & Hdata & _).
    vm_compute in Heq. inversion Heq; subst. vm_compute in Hdata. discriminate.
  - intros H. destruct (H eq_refl) as (rx' & d & Heq & _ & Hdata & _).
    vm_compute in Heq. inversion Heq; subst. vm_compute in Hdata. discriminate.
Qed.

(** Without a checksum strategy the parser goes from the type field straight
    to the payload and never empties its buffer in between: the one message
    dispatched carries the header bytes in front of the payload. *)
Lemma roundtrip_without_checksum_data run tx rx message fuel :
  same_configuration tx rx ->
  state rx = st_sof -> timeout_idle rx ->
  write tx = Transport -> 0 < chunkSize tx ->
  widths_positive tx -> sof_is_byte tx ->
  checksum tx = None ->
  Message.data message <> [] -> Forall is_byte (Message.data message) ->
  fits (lenSize tx) (Z.of_nat (length (Message.data message))) ->
  (length (frame_bytes tx message) <= fuel)%nat ->
  forall chunks,
    concat chunks = concat (written (trace (send fuel tx message))) ->
    exists rx' d,
      accept_chunks run rx chunks = (rx', [d])
      /\ Message.data (dispatched d)
         = sof_bytes tx ++ header_fields tx (stamped_id tx message) message
           ++ Message.data message.
Proof.
  intros Hcfg Hst Hidle Hw Hcs (Hi & Hl & Ht) Hmark Hc Hne Hbytes Hflen Hfuel
    chunks Hchunks.
  pose proof Hcfg as (Hci & Hcl & Hct & Hcsof & Hcc & _).
  unfold send in *.
  destruct (sendFrame_transport fuel tx message None None Hw Hcs Hfuel)
    as [_ Hwire].
  rewrite accept_chunks_concat, Hchunks, Hwire.
  rewrite (same_configuration_frame tx rx) by done.
  unfold cksum_bytes, payload_bytes. rewrite Hcc, Hc.
  rewrite (right_id_L [] (++)). cbn [app].
  rewrite (accept_frame_plain run rx Hst Hidle); first last.
  - rewrite read_field_big_endian, Hcl. apply Hflen.
  - by rewrite Hcc.
  - apply big_endian_length.
  - apply big_endian_length.
  - apply big_endian_length.
  - done.
  - apply nonempty_of_length. rewrite big_endian_length. lia.
  - apply nonempty_of_length. rewrite big_endian_length. lia.
  - apply nonempty_of_length. rewrite big_endian_length. lia.
  - unfold sof_is_byte in *. by rewrite Hcsof.
  - edestruct (dispatch_and_reset_spec run) as (rx' & d & -> & Hd & _).
    exists rx', d. split; [done|]. rewrite Hd.
    unfold received_message. cbn [Message.data Message.new Message.set_frameID].
    change (data (with_parser _ _ _ _ _ _ _ ?dat)) with dat.
    rewrite toUint8Array_bytes.
    + unfold sof_bytes, header_fields. rewrite Hci, Hcl, Hct, Hcsof.
      by rewrite <- !(assoc_L (++)).
    + rewrite !Forall_app. repeat split;
        auto using sof_bytes_is_byte, big_endian_is_byte.
Qed.

(** ** Empty payloads *)

Lemma be_bytes_zero n : be_bytes n 0 = replicate n 0.
Proof.
  induction n as [|n IH]; [done|]. cbn [be_bytes].
  change (0 / 256) with 0. change (0 mod 256) with 0. rewrite IH.
  change [0] with (replicate 1 0). rewrite <- replicate_add.
  by replace (n + 1)%nat with (S n) by lia.
Qed.

Lemma big_endian_zero n : big_endian n 0 = replicate n 0.
Proof. apply be_bytes_zero. Qed.

Lemma read_field_zero n : read_field 0 (big_endian n 0) = 0.
Proof.
  rewrite read_field_big_endian. unfold field_value.
  rewrite ToUint32_small by lia. by rewrite Z.mod_0_l by lia.
Qed.

(** With a checksum strategy set, an empty payload goes out as the header
    alone: the length field is all zeros and nothing follows the header
    checksum.  The receiver dispatches one message, whose data is the header
    followed by the last byte of the header checksum. *)
Lemma empty_payload_frame run tx rx c message fuel :
  same_configuration tx rx ->
  state rx = st_sof -> timeout_idle rx ->
  write tx = Transport -> 0 < chunkSize tx ->
  widths_positive tx -> sof_is_byte tx ->
  checksum tx = Some c -> strategy_fits c ->
  Message.data message = [] ->
  (length (frame_bytes tx message) <= fuel)%nat ->
  let r := send fuel tx message in
  let header := sof_bytes tx ++ header_fields tx (stamped_id tx message) message in
  let K := big_endian (Checksum.size c) (Checksum.sum c header) in
  concat (written (trace r)) = header ++ K
  /\ big_endian (lenSize tx) (Z.of_nat (length (Message.data message)))
     = replicate (lenSize tx) 0
  /\ forall chunks,
       concat chunks = concat (written (trace r)) ->
       exists rx' d,
         accept_chunks run rx chunks = (rx', [d])
         /\ Message.data (dispatched d) = header ++ [default 0 (last K)].
Proof.
  intros Hcfg Hst Hidle Hw Hcs (Hi & Hl & Ht) Hmark Hc (Hsz & Hsum) Hempty Hfuel.
  pose proof Hcfg as (Hci & Hcl & Hct & Hcsof & Hcc & _).
  unfold send. cbv zeta.
  destruct (sendFrame_transport fuel tx message None None Hw Hcs Hfuel)
    as [_ Hwire].
  assert (Hframe : frame_bytes tx message
                   = (sof_bytes tx ++ header_fields tx (stamped_id tx message) message)
                     ++ big_endian (Checksum.size c)
                          (Checksum.sum c
                             (sof_bytes tx
                              ++ header_fields tx (stamped_id tx message) message))).
  { rewrite frame_bytes_spec. unfold cksum_bytes, payload_bytes.
    rewrite Hc, Hempty. cbn. by rewrite (right_id_L [] (++)), <- (assoc_L (++)). }
  split; [|split].
  - by rewrite Hwire, Hframe.
  - rewrite Hempty. apply big_endian_zero.
  - intros chunks Hchunks.
    rewrite accept_chunks_concat, Hchunks, Hwire, Hframe.
    assert (Hhdr : sof_bytes tx ++ header_fields tx (stamped_id tx message) message
                   = sof_bytes rx ++ header_fields rx (stamped_id tx message) message).
    { unfold sof_bytes, header_fields. by rewrite Hci, Hcl, Hct, Hcsof. }
    rewrite Hhdr. unfold header_fields.
    rewrite <- !(assoc_L (++)).
    rewrite (accept_frame_empty run rx Hst Hidle) with (c := c); first last.
    + rewrite Hempty. apply read_field_zero.
    + rewrite read_cksum_big_endian. apply Hsum.
      apply Forall_app. split; [apply sof_bytes_is_byte|apply header_fields_is_byte].
    + apply big_endian_length.
    + by rewrite Hcc.
    + apply big_endian_length.
    + apply big_endian_length.
    + apply big_endian_length.
    + apply nonempty_of_length. by rewrite big_endian_length.
    + apply nonempty_of_length. rewrite big_endian_length. lia.
    + apply nonempty_of_length. rewrite big_endian_length. lia.
    + apply nonempty_of_length. rewrite big_endian_length. lia.
    + unfold sof_is_byte in *. by rewrite Hcsof.
    + edestruct (dispatch_and_reset_spec run) as (rx' & d & -> & Hd & _).
      exists rx', d. split; [done|]. rewrite Hd.
      unfold received_message. cbn.
      rewrite toUint8Array_bytes.
      { by rewrite <- !(assoc_L (++)). }
      rewrite !Forall_app. repeat split;
        auto using sof_bytes_is_byte, big_endian_is_byte.
      destruct (last _) as [b|] eqn:Hlast; cbn; [|repeat constructor; lia].
      constructor; [|constructor].
      apply last_Some_elem_of in Hlast.
      eapply Forall_forall in Hlast; [done|apply big_endian_is_byte].
Qed.

(** C2 at a failing input: the default configuration with a one-byte
    checksum and a message [Message(66, [])].  What goes out is ID, LEN = 0,
    TYPE and the header checksum, and nothing else; what the receiver
    dispatches carries thirteen bytes of data, not none. *)
Theorem empty_payload_dispatched_data :
  let r := send 64 example_tx (Message.new 66 []) in
  concat (written (trace r)) = [128; 0; 0; 0;  0; 0; 0; 0;  0; 0; 0; 66;  194]
  /\ exists rx' d,
       accept_chunks passive_run example_rx (written (trace r)) = (rx', [d])
       /\ Message.data (dispatched d) = [128; 0; 0; 0; 0; 0; 0; 0; 0; 0; 0; 66; 194].
Proof.
  cbv zeta. split; [by vm_compute|].
  eexists _, _. split; by vm_compute.
Qed.

(** ** The header checksum window *)

(** C3 (as amended).  With a start-of-frame marker and a checksum strategy
    set, the header checksum written by [composeHead] is the sum of the
    marker followed by the ID, length and type bytes; and a parser that has
    read a marker and fields [I], [L], [T] holds exactly those bytes, marker
    first, in its buffer, drops the frame when the checksum bytes [K] differ
    from that buffer's sum, and goes on to the payload when they agree. *)
Theorem header_checksum_covers_sof run tf message sof c I L T K :
  sofByte tf = Some sof -> is_byte sof ->
  checksum tf = Some c -> (1 <= Checksum.size c)%nat ->
  widths_positive tf ->
  state tf = st_sof -> timeout_idle tf ->
  length I = idSize tf -> length L = lenSize tf -> length T = typeSize tf ->
  length K = Checksum.size c ->
  let fields := header_fields tf (stamped_id tf message) message in
  let window := sof :: I ++ L ++ T in
  (composeHead tf message).2
  = sof :: fields ++ big_endian (Checksum.size c) (Checksum.sum c (sof :: fields))
  /\ (exists tf', accept run tf window = (tf', [])
                  /\ state tf' = st_headcksum /\ data tf' = window)
  /\ (read_cksum 0 K <> Checksum.sum c window ->
      exists tf', accept run tf (window ++ K) = (tf', []) /\ state tf' = st_sof)
  /\ (read_cksum 0 K = Checksum.sum c window -> read_field 0 L <> 0 ->
      exists tf', accept run tf (window ++ K) = (tf', []) /\ state tf' = st_data).
Proof.
  intros Hs Hbyte Hc Hsz (Hi & Hl & Ht) Hst Hidle HIn HLn HTn HKn. cbv zeta.
  assert (Hsb : sof_bytes tf = [sof]).
  { unfold sof_bytes, ToUint8. rewrite Hs. by rewrite Z.mod_small. }
  assert (Hmark : sof_is_byte tf) by (unfold sof_is_byte; by rewrite Hs).
  assert (HI : I <> []) by (apply nonempty_of_length; lia).
  assert (HL : L <> []) by (apply nonempty_of_length; lia).
  assert (HT : T <> []) by (apply nonempty_of_length; lia).
  assert (HK : K <> []) by (apply nonempty_of_length; lia).
  change (sof :: I ++ L ++ T) with ([sof] ++ I ++ L ++ T).
  rewrite <- !(assoc_L (++) _ _ K), <- Hsb.
  split; [|split; [|split]].
  - rewrite composeHead_spec, <- stamped_id_spec. cbn [snd].
    unfold cksum_bytes. by rewrite Hc, Hsb.
  - eexists. split; [by apply accept_header|]. by rewrite Hc.
  - intros Hne. eexists. split; [by apply (accept_header_rejected run tf Hst Hidle Hmark c)|done].
  - intros Heq Hlen. eexists.
    split; [by apply (accept_header_passed run tf Hst Hidle Hmark c)|done].
Qed.

Lemma header_checksum_covers_sof_witness :
  let tf := example_sof_rx in
  let fields := header_fields tf (stamped_id tf example_message) example_message in
  let window := 1 :: [128; 0; 0; 0] ++ [0; 0; 0; 6] ++ [0; 0; 1; 2] in
  (composeHead tf example_message).2
  = 1 :: fields ++ big_endian 1 (xor_sum (1 :: fields))
  /\ (exists tf', accept passive_run tf window = (tf', [])
                  /\ state tf' = st_headcksum /\ data tf' = window)
  /\ (read_cksum 0 [132] <> xor_sum window ->
      exists tf', accept passive_run tf (window ++ [132]) = (tf', [])
                  /\ state tf' = st_sof)
  /\ (read_cksum 0 [132] = xor_sum window -> read_field 0 [0; 0; 0; 6] <> 0 ->
      exists tf', accept passive_run tf (window ++ [132]) = (tf', [])
                  /\ state tf' = st_data).
Proof.
  apply (header_checksum_covers_sof passive_run example_sof_rx example_message 1 xor8
           [128; 0; 0; 0] [0; 0; 0; 6] [0; 0; 1; 2] [132]).
  - reflexivity.
  - vm_compute. split; congruence.
  - reflexivity.
  - vm_compute. lia.
  - repeat split; vm_compute; lia.
  - reflexivity.
  - exact I.
  - reflexivity.
  - reflexivity.
  - reflexivity.
  - reflexivity.
Defined.

(** C3 as stated fails: with marker byte 1 the checksum byte of the composed
    header is not the sum of the ID, length and type bytes alone, and a
    frame whose header checksum was computed over those bytes alone is
    dropped by the parser. *)
Lemma header_checksum_counterexample :
  let tf := example_sof_tx in
  let fields := header_fields tf (stamped_id tf example_message) example_message in
  drop 13 (composeHead tf example_message).2
  <> big_endian 1 (xor_sum fields)
  /\ (accept passive_run example_sof_rx
        (1 :: fields ++ big_endian 1 (xor_sum fields)
         ++ Message.data example_message
         ++ big_endian 1 (xor_sum (Message.data example_message)))).2
     = [].
Proof. cbv zeta. split; vm_compute; congruence. Qed.

(** ** A sent header, as a receiver reads it *)

Lemma composeHead_bytes tx rx message :
  same_framing tx rx ->
  (composeHead tx message).2
  = sof_bytes rx
    ++ big_endian (idSize rx) (stamped_id tx message)
    ++ big_endian (lenSize rx) (Z.of_nat (length (Message.data message)))
    ++ big_endian (typeSize rx) (Message.type message)
    ++ cksum_bytes rx (sof_bytes rx ++ header_fields rx (stamped_id tx message) message).
Proof.
  intros (Hi & Hl & Ht & Hs & Hc).
  rewrite stamped_id_spec, composeHead_spec. cbv zeta. cbn [snd].
  unfold sof_bytes, header_fields, cksum_bytes.
  rewrite Hi, Hl, Ht, Hs, Hc. by rewrite <- !(assoc_L (++)).
Qed.

(** A receiver waiting in [sof] reads the head of a sendable message up to
    the payload. *)
Lemma accept_sent_header run tx rx c message :
  same_framing tx rx -> state rx = st_sof -> timeout_idle rx ->
  widths_positive tx -> sof_is_byte tx ->
  checksum tx = Some c -> strategy_fits c ->
  Message.data message <> [] -> representable tx message ->
  accept run rx (composeHead tx message).2
  = (with_parser rx st_data 0 (stamped_id tx message)
       (Z.of_nat (length (Message.data message))) (Message.type message)
       (Checksum.sum c (sof_bytes rx ++ header_fields rx (stamped_id tx message) message))
       [], []).
Proof.
  intros Hcfg Hst Hidle (Hi & Hl & Ht) Hmark Hc (Hsz & Hsum) Hne (Hfid & Hflen & Hfty).
  pose proof Hcfg as (Hci & Hcl & Hct & Hcsof & Hcc).
  assert (Hmark' : sof_is_byte rx) by (unfold sof_is_byte in *; by rewrite Hcsof).
  assert (Hhdr : Forall is_byte
            (sof_bytes rx ++ header_fields rx (stamped_id tx message) message)).
  { apply Forall_app. split; [apply sof_bytes_is_byte|apply header_fields_is_byte]. }
  rewrite (composeHead_bytes tx rx) by done.
  unfold cksum_bytes. rewrite Hcc, Hc.
  rewrite (accept_header_passed run rx Hst Hidle Hmark' c); first last.
  - rewrite read_field_big_endian, Hcl.
    unfold fits in Hflen. rewrite Hflen.
    destruct (Message.data message); [done|cbn [length]; lia].
  - rewrite read_cksum_big_endian. by apply Hsum.
  - apply big_endian_length.
  - by rewrite Hcc.
  - apply big_endian_length.
  - apply big_endian_length.
  - apply big_endian_length.
  - apply nonempty_of_length. by rewrite big_endian_length.
  - apply nonempty_of_length. rewrite big_endian_length. lia.
  - apply nonempty_of_length. rewrite big_endian_length. lia.
  - apply nonempty_of_length. rewrite big_endian_length. lia.
  - rewrite !read_field_big_endian, read_cksum_big_endian, Hci, Hcl, Hct.
    unfold fits in Hfid, Hflen, Hfty. rewrite Hfid, Hflen, Hfty.
    by rewrite Hsum.
Qed.

(** From the payload on: the payload bytes and the bytes of a checksum
    field, which is compared with the sum over the payload. *)
Lemma accept_payload run rx c cid ty ck D KD :
  timeout_idle rx -> checksum rx = Some c ->
  D <> [] -> length KD = Checksum.size c -> (1 <= Checksum.size c)%nat ->
  accept run (with_parser rx st_data 0 cid (Z.of_nat (length D)) ty ck []) (D ++ KD)
  = if Checksum.sum c D =? read_cksum 0 KD then
      dispatch_and_reset run
        (with_parser rx st_datacksum (Checksum.size c) cid (Z.of_nat (length D)) ty
           (read_cksum 0 KD) D)
    else (with_parser rx st_sof 0 cid (Z.of_nat (length D)) ty (read_cksum 0 KD) D, []).
Proof.
  intros Hidle Hc HD HKD Hsz.
  erewrite accept_app_quiet; last first.
  { rewrite (accept_data run rx Hidle) by (done || (cbn; lia)). by rewrite Hc. }
  cbn [app].
  rewrite (accept_datacksum run rx Hidle c); [done|done| |cbn; lia].
  apply nonempty_of_length. lia.
Qed.

(** ** The parse timeout *)

Lemma tick_parserTimeoutTicks tf :
  parserTimeoutTicks (tick tf) = parserTimeoutTicks tf + 1.
Proof.
  unfold tick. cbv zeta.
  destruct (foldl tick_at _ _) as [listeners removeKeys].
  by destruct (foldl tick_remove _ _).
Qed.

Lemma tick_parser tf :
  state (tick tf) = state tf /\ partLen (tick tf) = partLen tf
  /\ parserTimeout (tick tf) = parserTimeout tf.
Proof.
  unfold tick. cbv zeta.
  destruct (foldl tick_at _ _) as [listeners removeKeys].
  by destruct (foldl tick_remove _ _).
Qed.

Lemma acceptByte_timed_out run tf limit byte :
  parserTimeout tf = Some limit -> limit < parserTimeoutTicks tf ->
  acceptByte run tf byte = acceptByte run (resetParser tf) byte.
Proof.
  intros Ht Hlt. unfold acceptByte.
  replace (parserTimeout (resetParser tf)) with (parserTimeout tf) by done.
  replace (parserTimeoutTicks (resetParser tf)) with (parserTimeoutTicks tf) by done.
  rewrite Ht. destruct (Z.ltb_spec limit (parserTimeoutTicks tf)); [|lia].
  by destruct tf.
Qed.

Section TickCounter.

Variable run : ListenerRef -> TinyFrame -> Message.t -> TinyFrame * Message.t.
Hypothesis Hrun : keeps_ticks run.

Lemma notify_ticks listener st :
  parserTimeoutTicks (notify run listener st).1.1 = parserTimeoutTicks st.1.1.
Proof.
  destruct st as [[tf message] log]. unfold notify.
  pose proof (Hrun listener tf message) as H.
  by destruct (run listener tf message).
Qed.

Lemma foldl_ticks {A} (f : DispatchState -> A -> DispatchState) (l : list A) :
  (forall st x, parserTimeoutTicks (f st x).1.1 = parserTimeoutTicks st.1.1) ->
  forall st, parserTimeoutTicks (foldl f st l).1.1 = parserTimeoutTicks st.1.1.
Proof.
  intros Hf. induction l as [|x l IH]; intros st; [done|].
  cbn [foldl]. by rewrite IH, Hf.
Qed.

Lemma handleReceived_ticks tf :
  parserTimeoutTicks (handleReceived run tf).1 = parserTimeoutTicks tf.
Proof.
  unfold handleReceived. cbv zeta. cbn [fst].
  rewrite !foldl_ticks; [done|..].
  - intros st x. unfold notify_id. case_match; [apply notify_ticks|done].
  - intros st x. unfold notify_type. case_match; [apply notify_ticks|done].
  - intros st x. apply notify_ticks.
Qed.

Lemma dispatch_and_reset_ticks tf :
  parserTimeoutTicks (dispatch_and_reset run tf).1 = parserTimeoutTicks tf.
Proof.
  unfold dispatch_and_reset.
  pose proof (handleReceived_ticks tf) as H.
  by destruct (handleReceived run tf).
Qed.

Lemma acceptByte_ticks tf byte :
  parserTimeoutTicks (acceptByte run tf byte).1 = parserTimeoutTicks tf.
Proof.
  unfold acceptByte.
  repeat (case_match; try done); cbn [fst];
    try (by rewrite dispatch_and_reset_ticks).
Qed.

Lemma accept_ticks bytes : forall tf,
  parserTimeoutTicks (accept run tf bytes).1 = parserTimeoutTicks tf.
Proof.
  induction bytes as [|b bytes IH]; intros tf; [done|].
  rewrite accept_cons.
  pose proof (acceptByte_ticks tf b) as Hb.
  destruct (acceptByte run tf b) as [tf1 ds1].
  pose proof (IH tf1) as Hrest.
  destruct (accept run tf1 bytes) as [tf2 ds2]. cbn [fst] in *. congruence.
Qed.

End TickCounter.

Lemma tick_spec tf :
  tick tf
  = set_idListeners (idListeners (tick tf))
      (set_parserTimeoutTicks (parserTimeoutTicks tf + 1) tf).
Proof.
  unfold tick. cbv zeta.
  destruct (foldl tick_at _ _) as [listeners removeKeys].
  by destruct (foldl tick_remove _ _).
Qed.

(** [tick] does not look at the parser, and the parser's fields do not look
    at [tick]. *)
Lemma tick_with_parser tf st pl cid ln ty ck dat :
  tick (with_parser tf st pl cid ln ty ck dat)
  = with_parser (tick tf) st pl cid ln ty ck dat.
Proof.
  unfold tick. cbv zeta.
  change (idListeners (set_parserTimeoutTicks _ (with_parser tf _ _ _ _ _ _ _)))
    with (idListeners tf).
  change (idListeners (set_parserTimeoutTicks _ tf)) with (idListeners tf).
  destruct (foldl tick_at _ _) as [listeners removeKeys].
  destruct (foldl tick_remove _ _) as [listeners' offset].
  by destruct tf.
Qed.

Lemma ticks_with_parser k tf st pl cid ln ty ck dat :
  Nat.iter k tick (with_parser tf st pl cid ln ty ck dat)
  = with_parser (Nat.iter k tick tf) st pl cid ln ty ck dat.
Proof.
  induction k as [|k IH]; [done|].
  by rewrite !Nat.iter_succ, IH, tick_with_parser.
Qed.

Lemma tick_framing tf :
  same_framing tf (tick tf) /\ parserTimeout (tick tf) = parserTimeout tf.
Proof.
  rewrite tick_spec. generalize (idListeners (tick tf)). intros listeners.
  by destruct tf.
Qed.

Lemma ticks_counted k tf :
  parserTimeoutTicks (Nat.iter k tick tf) = parserTimeoutTicks tf + Z.of_nat k
  /\ parserTimeout (Nat.iter k tick tf) = parserTimeout tf
  /\ same_framing tf (Nat.iter k tick tf).
Proof.
  induction k as [|k (IH1 & IH2 & IH3)].
  - change (Nat.iter 0 tick tf) with tf. split; [lia|]. by repeat split.
  - rewrite Nat.iter_succ, tick_parserTimeoutTicks, IH1.
    destruct (tick_framing (Nat.iter k tick tf)) as [Hf Hp].
    split; [lia|]. split; [congruence|].
    destruct IH3 as (?&?&?&?&?), Hf as (?&?&?&?&?). repeat split; congruence.
Qed.

(** Above the threshold a byte never gets further than the first field of
    a frame: nothing is dispatched, and the counter stays where it is. *)
Lemma acceptByte_deaf run tf byte :
  timed_out tf ->
  (acceptByte run tf byte).2 = [] /\ timed_out (acceptByte run tf byte).1.
Proof.
  unfold timed_out. destruct (parserTimeout tf) as [limit|] eqn:Ht; [|done].
  intros Hlt.
  rewrite (acceptByte_timed_out run tf limit byte Ht Hlt).
  unfold acceptByte.
  change (parserTimeout (resetParser tf)) with (parserTimeout tf).
  change (parserTimeoutTicks (resetParser tf)) with (parserTimeoutTicks tf).
  rewrite Ht. destruct (Z.ltb_spec limit (parserTimeoutTicks tf)); [|lia].
  destruct tf as [? ? ? ? ? marker ? ? ? ? ? ? ? ? ? ? ? ? ? ? ?].
  cbn in Ht, Hlt. subst. tf_norm.
  destruct marker as [sof|].
  - destruct (byte =? sof); by split.
  - destruct (_ =? _)%nat; by split.
Qed.

Lemma accept_deaf run bytes : forall tf,
  timed_out tf ->
  (accept run tf bytes).2 = [] /\ timed_out (accept run tf bytes).1.
Proof.
  induction bytes as [|b bytes IH]; intros tf Hout; [done|].
  rewrite accept_cons.
  destruct (acceptByte_deaf run tf b Hout) as [Hds Hout1].
  destruct (acceptByte run tf b) as [tf1 ds1]. cbn [fst snd] in *. subst ds1.
  destruct (IH tf1 Hout1) as [Hds2 Hout2].
  by destruct (accept run tf1 bytes) as [tf2 ds2].
Qed.

Lemma tick_timed_out tf : timed_out tf -> timed_out (tick tf).
Proof.
  unfold timed_out. destruct (tick_framing tf) as [_ ->].
  rewrite tick_parserTimeoutTicks.
  destruct (parserTimeout tf); [lia|done].
Qed.

Lemma drive_deaf run events : forall acc,
  timed_out acc.1 -> acc.2 = [] ->
  (foldl (drive_step run) acc events).2 = []
  /\ timed_out (foldl (drive_step run) acc events).1.
Proof.
  induction events as [|e events IH]; intros [tf ds] Hout Hds; [done|].
  cbn [fst snd] in *. subst ds. cbn [foldl]. apply IH.
  - destruct e as [|buffer]; cbn [drive_step fst snd].
    + by apply tick_timed_out.
    + destruct (accept_deaf run buffer tf Hout) as [_ H].
      by destruct (accept run tf buffer).
  - destruct e as [|buffer]; cbn [drive_step fst snd]; [done|].
    destruct (accept_deaf run buffer tf Hout) as [H _].
    destruct (accept run tf buffer) as [tf' ds']. cbn [snd] in *. by subst.
Qed.

(** C4 (what the code does).  A receiver with a finite [parserTimeout], its
    counter not above it, waits in [sof]; the head of a frame arrives, then
    [k] ticks go by, then the rest.  [tick] only counts: after the [k] ticks
    the counter is [k] higher and the parser is still in the middle of the
    frame.  If the counter is still at most the threshold, nothing has been
    reset: the payload completes the frame and it is dispatched as sent; but
    the completed frame does not restart the counter (given listeners that
    leave it alone).  If the counter is above the threshold, the next byte is
    processed from a parser put back to [sof], and so is every byte after
    it: whatever is accepted from then on, with whatever ticks in between,
    nothing is dispatched ever again. *)
Theorem parser_timeout_counts_every_tick run tx rx message limit k :
  parserTimeout rx = Some limit -> parserTimeoutTicks rx <= limit ->
  same_framing tx rx -> state rx = st_sof -> sendable tx message ->
  let stalled := stalled_after_head run tx rx message k in
  state stalled = st_data
  /\ parserTimeoutTicks stalled = parserTimeoutTicks rx + Z.of_nat k
  /\ (parserTimeoutTicks rx + Z.of_nat k <= limit ->
      exists rx' d,
        accept run stalled (payload_bytes tx message) = (rx', [d])
        /\ delivered d tx message
        /\ state rx' = st_sof
        /\ (keeps_ticks run ->
            parserTimeoutTicks rx' = parserTimeoutTicks rx + Z.of_nat k))
  /\ (limit < parserTimeoutTicks rx + Z.of_nat k ->
      (forall byte,
         acceptByte run stalled byte = acceptByte run (resetParser stalled) byte)
      /\ forall events, (drive run stalled events).2 = []).
Proof.
  intros Ht Hle Hfr Hst (Hw & Hmark & (c & Hc & Hfit) & Hne & Hbytes & Hrep).
  cbv zeta. unfold stalled_after_head.
  assert (Hidle : timeout_idle rx) by (unfold timeout_idle; by rewrite Ht).
  rewrite (accept_sent_header run tx rx c message) by done. cbn [fst].
  rewrite ticks_with_parser.
  destruct (ticks_counted k rx) as (Hticks & Hpt & Hfrk).
  set (rxk := Nat.iter k tick rx) in *.
  set (stalled := with_parser rxk _ _ _ _ _ _ _).
  assert (Hsticks : parserTimeoutTicks stalled = parserTimeoutTicks rx + Z.of_nat k)
    by (rewrite <- Hticks; unfold stalled; by destruct rxk).
  assert (Hspt : parserTimeout stalled = Some limit)
    by (rewrite <- Ht, <- Hpt; unfold stalled; by destruct rxk).
  split; [unfold stalled; by destruct rxk|]. split; [done|]. split.
  - intros Hin.
    assert (Hidlek : timeout_idle rxk).
    { unfold timeout_idle. rewrite Hpt, Ht, Hticks. done. }
    assert (Hck : checksum rxk = Some c).
    { destruct Hfr as (_&_&_&_&Hcc), Hfrk as (_&_&_&_&Hcck). congruence. }
    destruct Hfit as (Hsz & Hsum).
    unfold payload_bytes. rewrite Hc.
    assert ((0 <? length (Message.data message))%nat = true) as ->.
    { apply Nat.ltb_lt. destruct (Message.data message); [done|cbn; lia]. }
    unfold stalled.
    rewrite (accept_payload run rxk c) by (done || apply big_endian_length).
    rewrite read_cksum_big_endian, Hsum, Z.eqb_refl by done.
    set (mid := with_parser rxk _ _ _ _ _ _ _).
    destruct (dispatch_and_reset_spec run mid) as (rx' & d & Heq & Hd & Hst').
    exists rx', d. split; [done|]. split; [|split; [done|]].
    + unfold delivered. rewrite Hd. unfold received_message, mid. cbn.
      by rewrite toUint8Array_bytes.
    + intros Hrun.
      pose proof (dispatch_and_reset_ticks run Hrun mid) as Hk.
      rewrite Heq in Hk. cbn [fst] in Hk. rewrite Hk, <- Hticks.
      unfold mid. by destruct rxk.
  - intros Hout.
    assert (Hto : timed_out stalled).
    { unfold timed_out. rewrite Hspt, Hsticks. done. }
    split.
    + intros byte. apply (acceptByte_timed_out run stalled limit); [done|lia].
    + intros events. by apply (drive_deaf run events (stalled, [])).
Qed.

Lemma parser_timeout_counts_every_tick_witness :
  let stalled :=
    stalled_after_head passive_run example_tx example_timeout_rx example_message 3 in
  state stalled = st_data
  /\ parserTimeoutTicks stalled = parserTimeoutTicks example_timeout_rx + Z.of_nat 3
  /\ (parserTimeoutTicks example_timeout_rx + Z.of_nat 3 <= 2 ->
      exists rx' d,
        accept passive_run stalled (payload_bytes example_tx example_message)
        = (rx', [d])
        /\ delivered d example_tx example_message
        /\ state rx' = st_sof
        /\ (keeps_ticks passive_run ->
            parserTimeoutTicks rx'
            = parserTimeoutTicks example_timeout_rx + Z.of_nat 3))
  /\ (2 < parserTimeoutTicks example_timeout_rx + Z.of_nat 3 ->
      (forall byte,
         acceptByte passive_run stalled byte
         = acceptByte passive_run (resetParser stalled) byte)
      /\ forall events, (drive passive_run stalled events).2 = []).
Proof.
  apply (parser_timeout_counts_every_tick passive_run example_tx example_timeout_rx
           example_message 2 3).
  - reflexivity.
  - vm_compute. discriminate.
  - repeat split; reflexivity.
  - reflexivity.
  - split; [repeat split; vm_compute; lia|]. split; [exact I|].
    split; [exists xor8; split; [reflexivity|apply xor8_fits]|].
    split; [discriminate|].
    split; [repeat constructor; vm_compute; congruence|].
    repeat split; vm_compute; reflexivity.
Defined.

(** A stall of two ticks is within the threshold of the example: the
    payload completes the frame.  After a stall of three ticks the same
    payload, and three whole frames after it, dispatch nothing. *)
Example parser_timeout_stall_example :
  let stalled k :=
    stalled_after_head passive_run example_tx example_timeout_rx example_message k in
  length (accept passive_run (stalled 2%nat)
            (payload_bytes example_tx example_message)).2 = 1%nat
  /\ (accept passive_run (stalled 3%nat)
        (payload_bytes example_tx example_message
         ++ example_frame ++ example_frame ++ example_frame)).2 = [].
Proof. cbv zeta. split; by vm_compute. Qed.

(** C4 as stated fails.  A receiver with a timeout of two ticks is fed one
    complete frame between any two ticks, so no frame ever takes more than
    one tick.  The first three frames are dispatched; after the third tick
    the same frame is dropped, and the parser never gets past the first byte
    of a frame again. *)
Lemma parser_timeout_counterexample :
  let feed tf := accept passive_run tf example_frame in
  let rx1 := (feed example_timeout_rx).1 in
  let rx2 := (feed (tick rx1)).1 in
  let rx3 := (feed (tick rx2)).1 in
  length (feed example_timeout_rx).2 = 1%nat
  /\ length (feed (tick rx1)).2 = 1%nat
  /\ length (feed (tick rx2)).2 = 1%nat
  /\ (feed (tick rx3)).2 = []
  /\ state (feed (tick rx3)).1 = st_id
  /\ partLen (feed (tick rx3)).1 = 1%nat.
Proof. cbv zeta. repeat split; by vm_compute. Qed.

(** ** The ID field of a composed head *)

Lemma be_value_snoc bytes b : be_value (bytes ++ [b]) = be_value bytes * 256 + b.
Proof. unfold be_value. by rewrite foldl_snoc. Qed.

Lemma be_value_be_bytes n : forall u,
  0 <= u -> be_value (be_bytes n u) = u mod 256 ^ Z.of_nat n.
Proof.
  induction n as [|n IH]; intros u Hu.
  - cbn. by rewrite Z.mod_1_r.
  - cbn [be_bytes]. rewrite be_value_snoc, IH by (apply Z.div_pos; lia).
    by rewrite mod_256_pow_S.
Qed.


(** The [idSize] bytes that [composeHead] writes after the start-of-frame
    byte, if there is one. *)
Lemma composeHead_id_field tf message :
  take (idSize tf) (drop (length (sof_bytes tf)) (composeHead tf message).2)
  = big_endian (idSize tf) (stamped_id tf message).
Proof.
  rewrite stamped_id_spec, composeHead_spec. cbv zeta. cbn [snd].
  rewrite drop_app_length. unfold header_fields.
  rewrite <- !(assoc_L (++)).
  by rewrite take_app_length' by (symmetry; apply big_endian_length).
Qed.

(** ** respond *)

(** C5 (as amended).  [respond] sends the message exactly as [send] sends it
    with [isResponse] set: same engine afterwards, same trace, same outcome,
    no frame ID allocated, the message's own ID (with the peer bit) on the
    wire.  When the send returns, the flag is left [false], whatever it was
    before the call. *)
Theorem respond_leaves_flag_false fuel tf message :
  let r := respond fuel tf message in
  let s := send fuel tf (Message.set_isResponse true message) in
  trace r = trace s /\ engine r = engine s /\ completion r = completion s
  /\ nextID (engine r) = nextID tf
  /\ Message.frameID (sent r) = peer_stamp tf (Message.frameID message)
  /\ (completion r = Returned -> Message.isResponse (sent r) = false).
Proof.
  cbv zeta. unfold respond.
  set (s := send fuel tf (Message.set_isResponse true message)).
  assert (Hsent : sent s = Message.set_frameID
                             (peer_stamp tf (Message.frameID message))
                             (Message.set_isResponse true message)).
  { unfold s, send. rewrite sendFrame_sent, stamped_id_spec. done. }
  assert (Hid : nextID (engine s) = nextID tf).
  { unfold s, send, sendFrame. rewrite composeHead_spec. cbv beta iota zeta.
    match goal with
    | |- context [write_loop ?a ?b ?c ?d ?e] => by destruct (write_loop a b c d e)
    end. }
  destruct (completion s) eqn:Hc; cbn [trace engine completion sent];
    rewrite ?Hc, ?Hsent; repeat split; try done.
Qed.

(** C5 as stated fails: a response made by [createResponse] carries
    [isResponse = true]; after [respond] has sent it the flag is [false]. *)
Lemma respond_counterexample :
  let r := respond 64 example_tx example_response in
  completion r = Returned
  /\ Message.isResponse example_response = true
  /\ Message.isResponse (sent r) = false.
Proof. cbv zeta. repeat split; by vm_compute. Qed.

(** ** Frame ID allocation *)






(** The witness written out: with a one-byte ID field the 257th frame of a
    peer-0 engine is stamped 256 and carries the ID byte 0. *)
Example frame_id_narrow_example :
  let tf_n := after_allocations 256 example_narrow_tx in
  stamped_id tf_n example_message = 256
  /\ take 1 (composeHead tf_n example_message).2 = [0].
Proof. cbv zeta. split; by vm_compute. Qed.


(** ** Dispatch *)

Section Dispatch.

Variable run : ListenerRef -> TinyFrame -> Message.t -> TinyFrame * Message.t.
Hypothesis Hrun : leaves_dispatch_alone run.

Lemma dispatch_stable_refl st : dispatch_stable st st.
Proof. by repeat split. Qed.

Lemma dispatch_stable_trans st1 st2 st3 :
  dispatch_stable st1 st2 -> dispatch_stable st2 st3 -> dispatch_stable st1 st3.
Proof. unfold dispatch_stable. intros (?&?&?&?) (?&?&?&?). repeat split; congruence. Qed.

Lemma notify_spec listener st :
  dispatch_stable st (notify run listener st)
  /\ map fst (notify run listener st).2 = map fst st.2 ++ [listener].
Proof.
  destruct st as [[tf message] log]. unfold notify, dispatch_stable.
  pose proof (Hrun listener tf message) as (H1 & H2 & H3 & H4).
  destruct (run listener tf message) as [tf' message']. cbn in *.
  by rewrite map_app.
Qed.

Lemma notify_id_loop listeners : forall st,
  let st' := foldl (notify_id run) st listeners in
  dispatch_stable st st'
  /\ map fst st'.2
     = map fst st.2
       ++ map IDListenerEntry.callback
            (filter (fun e => IDListenerEntry.id e = Message.frameID st.1.2) listeners).
Proof.
  induction listeners as [|e listeners IH]; intros st; cbv zeta.
  - cbn. split; [apply dispatch_stable_refl|by rewrite (right_id_L [] (++))].
  - cbn [foldl]. destruct (IH (notify_id run st e)) as [Hst Hlog].
    rewrite Hlog, filter_cons. unfold notify_id in *.
    destruct (Z.eqb_spec (IDListenerEntry.id e) (Message.frameID st.1.2)) as [Heq|Hne].
    + destruct (notify_spec (IDListenerEntry.callback e) st) as [Hn Hnlog].
      rewrite decide_True by done.
      split; [by eapply dispatch_stable_trans|].
      rewrite Hnlog. destruct Hn as (_ & _ & -> & _).
      by rewrite <- (assoc_L (++)).
    + by rewrite decide_False by done.
Qed.

Lemma notify_type_loop listeners : forall st,
  let st' := foldl (notify_type run) st listeners in
  dispatch_stable st st'
  /\ map fst st'.2
     = map fst st.2
       ++ map TypedListenerEntry.callback
            (filter (fun e => TypedListenerEntry.type e = Message.type st.1.2) listeners).
Proof.
  induction listeners as [|e listeners IH]; intros st; cbv zeta.
  - cbn. split; [apply dispatch_stable_refl|by rewrite (right_id_L [] (++))].
  - cbn [foldl]. destruct (IH (notify_type run st e)) as [Hst Hlog].
    rewrite Hlog, filter_cons. unfold notify_type in *.
    destruct (Z.eqb_spec (TypedListenerEntry.type e) (Message.type st.1.2)) as [Heq|Hne].
    + destruct (notify_spec (TypedListenerEntry.callback e) st) as [Hn Hnlog].
      rewrite decide_True by done.
      split; [by eapply dispatch_stable_trans|].
      rewrite Hnlog. destruct Hn as (_ & _ & _ & ->).
      by rewrite <- (assoc_L (++)).
    + by rewrite decide_False by done.
Qed.

Lemma notify_generic_loop listeners : forall st,
  let st' := foldl (notify_generic run) st listeners in
  dispatch_stable st st' /\ map fst st'.2 = map fst st.2 ++ listeners.
Proof.
  induction listeners as [|e listeners IH]; intros st; cbv zeta.
  - cbn. split; [apply dispatch_stable_refl|by rewrite (right_id_L [] (++))].
  - cbn [foldl]. destruct (IH (notify_generic run st e)) as [Hst Hlog].
    rewrite Hlog. unfold notify_generic in *.
    destruct (notify_spec e st) as [Hn Hnlog].
    split; [by eapply dispatch_stable_trans|].
    rewrite Hnlog. by rewrite <- (assoc_L (++)).
Qed.

End Dispatch.

Section DispatchOrder.

Variable run : ListenerRef -> TinyFrame -> Message.t -> TinyFrame * Message.t.
Hypothesis Hrun : keeps_identity run.

Lemma notify_calls listener st :
  (notify run listener st).1 = run listener st.1.1 st.1.2
  /\ map fst (notify run listener st).2 = map fst st.2 ++ [listener].
Proof.
  destruct st as [[tf message] log]. unfold notify. cbn [fst snd].
  destruct (run listener tf message) as [tf' message']. cbn [fst snd].
  by rewrite map_app.
Qed.

Lemma run_listeners_app st l1 l2 :
  run_listeners run st (l1 ++ l2) = run_listeners run (run_listeners run st l1) l2.
Proof. unfold run_listeners. apply foldl_app. Qed.

Lemma notify_id_calls entries : forall st,
  let matching :=
    map IDListenerEntry.callback
      (filter (fun e => IDListenerEntry.id e = Message.frameID st.1.2) entries) in
  (foldl (notify_id run) st entries).1 = run_listeners run st.1 matching
  /\ map fst (foldl (notify_id run) st entries).2 = map fst st.2 ++ matching.
Proof.
  induction entries as [|e entries IH]; intros st; cbv zeta.
  - cbn. by rewrite (right_id_L [] (++)).
  - cbn [foldl]. rewrite filter_cons. unfold notify_id at 2 4.
    destruct (Z.eqb_spec (IDListenerEntry.id e) (Message.frameID st.1.2)) as [Heq|Hne].
    + rewrite decide_True by done.
      destruct (notify_calls (IDListenerEntry.callback e) st) as [Hst Hlog].
      destruct (IH (notify run (IDListenerEntry.callback e) st)) as [IH1 IH2].
      assert (Hid : Message.frameID (notify run (IDListenerEntry.callback e) st).1.2
                    = Message.frameID st.1.2).
      { rewrite Hst. apply Hrun. }
      rewrite Hid in IH1, IH2. rewrite IH1, IH2, Hst, Hlog.
      cbn [map]. split; [done|]. by rewrite <- (assoc_L (++)).
    + rewrite decide_False by done. apply IH.
Qed.

Lemma notify_type_calls entries : forall st,
  let matching :=
    map TypedListenerEntry.callback
      (filter (fun e => TypedListenerEntry.type e = Message.type st.1.2) entries) in
  (foldl (notify_type run) st entries).1 = run_listeners run st.1 matching
  /\ map fst (foldl (notify_type run) st entries).2 = map fst st.2 ++ matching.
Proof.
  induction entries as [|e entries IH]; intros st; cbv zeta.
  - cbn. by rewrite (right_id_L [] (++)).
  - cbn [foldl]. rewrite filter_cons. unfold notify_type at 2 4.
    destruct (Z.eqb_spec (TypedListenerEntry.type e) (Message.type st.1.2)) as [Heq|Hne].
    + rewrite decide_True by done.
      destruct (notify_calls (TypedListenerEntry.callback e) st) as [Hst Hlog].
      destruct (IH (notify run (TypedListenerEntry.callback e) st)) as [IH1 IH2].
      assert (Hty : Message.type (notify run (TypedListenerEntry.callback e) st).1.2
                    = Message.type st.1.2).
      { rewrite Hst. apply Hrun. }
      rewrite Hty in IH1, IH2. rewrite IH1, IH2, Hst, Hlog.
      cbn [map]. split; [done|]. by rewrite <- (assoc_L (++)).
    + rewrite decide_False by done. apply IH.
Qed.

Lemma notify_generic_calls listeners : forall st,
  (foldl (notify_generic run) st listeners).1 = run_listeners run st.1 listeners
  /\ map fst (foldl (notify_generic run) st listeners).2 = map fst st.2 ++ listeners.
Proof.
  induction listeners as [|l listeners IH]; intros st.
  - cbn. by rewrite (right_id_L [] (++)).
  - cbn [foldl]. unfold notify_generic at 2 4.
    destruct (notify_calls l st) as [Hst Hlog].
    destruct (IH (notify run l st)) as [IH1 IH2].
    rewrite IH1, IH2, Hst, Hlog. split; [done|]. by rewrite <- (assoc_L (++)).
Qed.

Lemma run_listeners_identity listeners : forall st,
  Message.frameID (run_listeners run st listeners).2 = Message.frameID st.2
  /\ Message.type (run_listeners run st listeners).2 = Message.type st.2.
Proof.
  induction listeners as [|l listeners IH]; intros st; [done|].
  unfold run_listeners in *. cbn [foldl].
  destruct (IH (run l st.1 st.2)) as [-> ->]. apply Hrun.
Qed.

End DispatchOrder.

(** C7 (as amended).  With listeners that leave the message's frame ID and
    type alone, whatever else they do: one dispatch calls, in this order,
    the callbacks of the entries of the ID table as it is when the dispatch
    starts whose [id] is the frame's ID; then the callbacks of the entries of
    the type table as the ID listeners have left it whose [type] is the
    frame's type; then the generic listeners of the table as the type
    listeners have left it.  Each group is in table order, one call per
    entry; what a listener does to a table is not seen by the loop that
    called it.  The engine afterwards is what these calls, in this order,
    make of it.  If the ID listeners leave the type table alone and the ID
    and type listeners leave the generic table alone, these are the matching
    entries of the three tables as they were when the frame arrived. *)
Theorem dispatch_fan_out_order run tf :
  keeps_identity run ->
  let message := received_message tf in
  let by_id :=
    map IDListenerEntry.callback
      (filter (fun e => IDListenerEntry.id e = currentID tf) (idListeners tf)) in
  let after_id := run_listeners run (tf, message) by_id in
  let by_type :=
    map TypedListenerEntry.callback
      (filter (fun e => TypedListenerEntry.type e = currentType tf)
         (typeListeners after_id.1)) in
  let after_type := run_listeners run after_id by_type in
  let generic := genericListeners after_type.1 in
  let calls := map fst (invoked (handleReceived run tf).2) in
  calls = by_id ++ by_type ++ generic
  /\ (handleReceived run tf).1 = (run_listeners run after_type generic).1
  /\ dispatched (handleReceived run tf).2 = message
  /\ Message.frameID message = currentID tf
  /\ Message.type message = currentType tf
  /\ (typeListeners after_id.1 = typeListeners tf ->
      genericListeners after_type.1 = genericListeners tf ->
      calls
      = by_id
        ++ map TypedListenerEntry.callback
             (filter (fun e => TypedListenerEntry.type e = currentType tf)
                (typeListeners tf))
        ++ genericListeners tf).
Proof.
  intros Hrun. cbv zeta.
  set (message := received_message tf).
  set (by_id := map IDListenerEntry.callback
                  (filter (fun e => IDListenerEntry.id e = currentID tf)
                     (idListeners tf))).
  set (after_id := run_listeners run (tf, message) by_id).
  set (by_type := map TypedListenerEntry.callback
                    (filter (fun e => TypedListenerEntry.type e = currentType tf)
                       (typeListeners after_id.1))).
  set (after_type := run_listeners run after_id by_type).
  set (generic := genericListeners after_type.1).
  assert (Hcalls :
    map fst (invoked (handleReceived run tf).2) = by_id ++ by_type ++ generic
    /\ (handleReceived run tf).1 = (run_listeners run after_type generic).1).
  { unfold handleReceived. cbv zeta. cbn [snd invoked fst].
    change (Message.set_frameID _ _) with message.
    set (st0 := (tf, message, []) : DispatchState).
    pose proof (notify_id_calls run Hrun (idListeners tf) st0) as H1.
    cbv zeta in H1. destruct H1 as [S1 L1].
    change (Message.frameID st0.1.2) with (currentID tf) in S1, L1.
    change (st0.1) with (tf, message) in S1.
    change (map fst st0.2) with (@nil ListenerRef) in L1. cbn [app] in L1.
    fold by_id in S1, L1. fold after_id in S1.
    set (st1 := foldl (notify_id run) st0 (idListeners tf)) in *.
    pose proof (notify_type_calls run Hrun (typeListeners st1.1.1) st1) as H2.
    cbv zeta in H2. destruct H2 as [S2 L2].
    assert (Hty : Message.type st1.1.2 = currentType tf).
    { rewrite S1. unfold after_id.
      by destruct (run_listeners_identity run Hrun by_id (tf, message)) as [_ ->]. }
    set (st2 := foldl (notify_type run) st1 (typeListeners st1.1.1)) in *.
    rewrite Hty, S1 in S2, L2. fold by_type in S2, L2. fold after_type in S2.
    destruct (notify_generic_calls run (genericListeners st2.1.1) st2) as [S3 L3].
    rewrite L3, S3, L2, L1, !S2. fold generic.
    split; [by rewrite <- (assoc_L (++))|done]. }
  destruct Hcalls as [Hcalls Hengine].
  split; [exact Hcalls|]. split; [exact Hengine|].
  split; [done|]. split; [done|]. split; [done|].
  intros Htype Hgeneric. rewrite Hcalls, Hgeneric. unfold by_type.
  by rewrite Htype.
Qed.

Lemma dispatch_fan_out_order_witness :
  let run := unsubscribing_run in
  let tf := example_dispatching in
  let message := received_message tf in
  let by_id :=
    map IDListenerEntry.callback
      (filter (fun e => IDListenerEntry.id e = currentID tf) (idListeners tf)) in
  let after_id := run_listeners run (tf, message) by_id in
  let by_type :=
    map TypedListenerEntry.callback
      (filter (fun e => TypedListenerEntry.type e = currentType tf)
         (typeListeners after_id.1)) in
  let after_type := run_listeners run after_id by_type in
  let generic := genericListeners after_type.1 in
  let calls := map fst (invoked (handleReceived run tf).2) in
  calls = by_id ++ by_type ++ generic
  /\ (handleReceived run tf).1 = (run_listeners run after_type generic).1
  /\ dispatched (handleReceived run tf).2 = message
  /\ Message.frameID message = currentID tf
  /\ Message.type message = currentType tf
  /\ (typeListeners after_id.1 = typeListeners tf ->
      genericListeners after_type.1 = genericListeners tf ->
      calls
      = by_id
        ++ map TypedListenerEntry.callback
             (filter (fun e => TypedListenerEntry.type e = currentType tf)
                (typeListeners tf))
        ++ genericListeners tf).
Proof.
  apply (dispatch_fan_out_order unsubscribing_run example_dispatching).
  intros listener tf message. unfold unsubscribing_run.
  by destruct (listener =? 10)%nat.
Defined.

(** C7 as stated fails.  Type listener 20 is registered for type 3 when a
    frame of type 3 and ID 7 is dispatched; ID listener 10, called first,
    unsubscribes it; the calls are those of the ID listeners 10, 11, 11 and
    of the generic listeners 30, 31, and listener 20 is not among them. *)
Lemma dispatch_fan_out_counterexample :
  let tf := example_dispatching in
  let d := (handleReceived unsubscribing_run tf).2 in
  map TypedListenerEntry.callback
    (filter (fun e => TypedListenerEntry.type e = Message.type (dispatched d))
       (typeListeners tf)) = [20%nat]
  /\ map fst (invoked d) = [10; 11; 11; 30; 31]%nat
  /\ 20%nat ∉ map fst (invoked d).
Proof.
  cbv zeta. split; [by vm_compute|]. split; [by vm_compute|].
  replace (map fst (invoked (handleReceived unsubscribing_run example_dispatching).2))
    with [10; 11; 11; 30; 31]%nat by (by vm_compute).
  intros H. repeat (apply elem_of_cons in H as [H|H]; [discriminate|]).
  by apply elem_of_nil in H.
Qed.

(** The calls of the example with listeners that remove themselves from the
    ID table, written out: the ID listeners 10, 11 and 11 again (two
    entries), then the type listener 20, then the generic listeners 30 and
    31. *)
Example dispatch_example_calls :
  map fst (invoked (handleReceived one_shot_run example_dispatching).2)
  = [10; 11; 11; 20; 30; 31]%nat.
Proof. by vm_compute. Qed.

(** ** The default write sink *)

Lemma frame_bytes_length tf message :
  length (frame_bytes tf message)
  = (length (sof_bytes tf) + idSize tf + lenSize tf + typeSize tf
     + length (cksum_bytes tf []) + length (payload_bytes tf message))%nat.
Proof.
  rewrite frame_bytes_spec. unfold header_fields, cksum_bytes.
  destruct (checksum tf); rewrite !length_app, !big_endian_length; cbn; lia.
Qed.

Lemma sendFrame_default_sink fuel tf message callback timeout :
  write tf = NoWriteImplementation ->
  (0 < length (frame_bytes tf message))%nat ->
  let r := sendFrame (S fuel) tf message callback timeout in
  completion r = Threw "No write implementation" /\ trace r = [ClaimTx].
Proof.
  intros Hw Hlen. cbv zeta. unfold sendFrame.
  unfold frame_bytes in Hlen. rewrite composeHead_spec in *.
  cbv beta iota zeta in *. cbn [snd] in Hlen.
  set (header := sof_bytes tf ++ _) in *.
  set (tf1 := match callback with Some _ => _ | None => _ end).
  assert (Hcfg : checksum tf1 = checksum tf /\ write tf1 = write tf).
  { unfold tf1, allocated. by destruct callback, (Message.isResponse message). }
  destruct Hcfg as (Hck & Hwr). rewrite Hck, Hwr, Hw.
  cbn [Message.data Message.set_frameID].
  pose proof (sendFrame_payload tf message) as Hp. cbv zeta in Hp. rewrite Hp.
  unfold concatUint8. cbn [concat]. rewrite (right_id_L [] (++)).
  rewrite write_loop_default; [done|].
  intros Hnil. rewrite Hnil in Hlen. cbn in Hlen. lia.
Qed.

(** C8.  On an engine whose [write] is still the constructor's default,
    every send that has at least one byte to transmit ends with the error
    "No write implementation" thrown to the caller, through [sendFrame],
    [send], [query] and [respond] alike: the pre-transmit hook has run,
    nothing was written and the post-transmit hook is not reached. *)
Theorem default_write_sink_throws fuel tf message listener timeout :
  write tf = NoWriteImplementation ->
  (0 < length (frame_bytes tf message))%nat ->
  let error := Threw "No write implementation" in
  (forall callback,
      completion (sendFrame (S fuel) tf message callback timeout) = error
      /\ trace (sendFrame (S fuel) tf message callback timeout) = [ClaimTx])
  /\ completion (send (S fuel) tf message) = error
  /\ completion (query (S fuel) tf message listener timeout) = error
  /\ completion (respond (S fuel) tf message) = error.
Proof.
  intros Hw Hlen. cbv zeta.
  split; [|split; [|split]].
  - intros callback. by apply sendFrame_default_sink.
  - by apply sendFrame_default_sink.
  - by apply sendFrame_default_sink.
  - unfold respond, send.
    destruct (sendFrame_default_sink fuel tf (Message.set_isResponse true message)
                None None Hw) as [Hc _].
    { rewrite frame_bytes_length in *. exact Hlen. }
    by rewrite Hc.
Qed.

Lemma default_write_sink_throws_witness :
  let tf := constructor xor8 None in
  let error := Threw "No write implementation" in
  (forall callback,
      completion (sendFrame 1 tf example_message callback None) = error
      /\ trace (sendFrame 1 tf example_message callback None) = [ClaimTx])
  /\ completion (send 1 tf example_message) = error
  /\ completion (query 1 tf example_message 5%nat None) = error
  /\ completion (respond 1 tf example_message) = error.
Proof.
  apply (default_write_sink_throws 0 (constructor xor8 None) example_message 5%nat None).
  - reflexivity.
  - vm_compute. lia.
Defined.

(** ** Removing and renewing ID listeners *)

Lemma findIndex_from_first {A} (p : A -> bool) before x after i :
  Forall (fun y => p y = false) before -> p x = true ->
  findIndex_from p (before ++ x :: after) i = i + Z.of_nat (length before).
Proof.
  intros Hb Hx. revert i. induction Hb as [|y before Hy _ IH]; intros i.
  - cbn. rewrite Hx. lia.
  - cbn [app findIndex_from length]. rewrite Hy, IH. lia.
Qed.

Lemma splice1_middle {A} (before : list A) x after :
  splice1 (before ++ x :: after) (Z.of_nat (length before)) = before ++ after.
Proof.
  unfold splice1, clamp_index.
  destruct (Z.ltb_spec (Z.of_nat (length before)) 0); [lia|].
  rewrite Z.min_l by (rewrite length_app; cbn; lia).
  rewrite Nat2Z.id. apply delete_middle.
Qed.

Lemma renew_at_middle callback done_ e rest :
  renew_at callback (done_ ++ e :: rest) (length done_)
  = done_ ++ renewed callback e :: rest.
Proof.
  unfold renew_at, renewed. rewrite list_lookup_middle by done.
  destruct (_ =? _)%nat; [|done].
  rewrite insert_app_r_alt, Nat.sub_diag by lia. done.
Qed.

Lemma renew_loop callback rest : forall done_,
  foldl (renew_at callback) (done_ ++ rest) (seq (length done_) (length rest))
  = done_ ++ map (renewed callback) rest.
Proof.
  induction rest as [|e rest IH]; intros done_; [done|].
  cbn [length seq foldl map]. rewrite renew_at_middle.
  replace (done_ ++ renewed callback e :: rest)
    with ((done_ ++ [renewed callback e]) ++ rest) by by rewrite <- (assoc_L (++)).
  replace (S (length done_)) with (length (done_ ++ [renewed callback e]))
    by (rewrite length_app; cbn; lia).
  rewrite IH. by rewrite <- (assoc_L (++)).
Qed.

(** C9.  When the ID table holds an entry for [callback] at some position,
    with no earlier entry for it, [removeIDListener] takes out that entry
    only: everything before and everything after it, later entries for the
    same callback included, stays as it was.  [renewIDListener] visits every
    entry: each entry for [callback] gets its countdown set back to its own
    [maxTimeout], every other entry is unchanged. *)
Theorem remove_first_renew_all tf callback before entry after :
  idListeners tf = before ++ entry :: after ->
  IDListenerEntry.callback entry = callback ->
  Forall (fun e => IDListenerEntry.callback e <> callback) before ->
  idListeners (removeIDListener callback tf) = before ++ after
  /\ idListeners (renewIDListener callback tf)
     = map (renewed callback) (idListeners tf)
  /\ (forall e, e ∈ idListeners tf -> IDListenerEntry.callback e = callback ->
        IDListenerEntry.timeout (renewed callback e) = IDListenerEntry.maxTimeout e)
  /\ (forall e, IDListenerEntry.callback e <> callback -> renewed callback e = e).
Proof.
  intros Hl He Hb. split; [|split; [|split]].
  - unfold removeIDListener, findIndex. rewrite Hl.
    rewrite findIndex_from_first; first last.
    + by apply Nat.eqb_eq.
    + eapply Forall_impl; [exact Hb|]. intros e Hne. by apply Nat.eqb_neq.
    + rewrite Z.add_0_l.
      destruct (Z.leb_spec 0 (Z.of_nat (length before))); [|lia].
      change (idListeners (set_idListeners ?v _)) with v.
      apply splice1_middle.
  - unfold renewIDListener. change (idListeners (set_idListeners ?v _)) with v.
    apply (renew_loop callback (idListeners tf) []).
  - intros e _ Hc. unfold renewed. by rewrite (proj2 (Nat.eqb_eq _ _) Hc).
  - intros e Hc. unfold renewed. by rewrite (proj2 (Nat.eqb_neq _ _) Hc).
Qed.

Lemma remove_first_renew_all_witness :
  let tf := example_registry in
  let first := {| IDListenerEntry.id := 7; IDListenerEntry.callback := 11%nat;
                  IDListenerEntry.timeout := Some 3;
                  IDListenerEntry.maxTimeout := Some 5 |} in
  let others :=
    [ {| IDListenerEntry.id := 8; IDListenerEntry.callback := 10%nat;
         IDListenerEntry.timeout := Some 4; IDListenerEntry.maxTimeout := Some 6 |};
      {| IDListenerEntry.id := 9; IDListenerEntry.callback := 11%nat;
         IDListenerEntry.timeout := Some 2; IDListenerEntry.maxTimeout := Some 4 |} ] in
  idListeners (removeIDListener 11%nat tf) = [] ++ others
  /\ idListeners (renewIDListener 11%nat tf)
     = map (renewed 11%nat) (idListeners tf)
  /\ (forall e, e ∈ idListeners tf -> IDListenerEntry.callback e = 11%nat ->
        IDListenerEntry.timeout (renewed 11%nat e) = IDListenerEntry.maxTimeout e)
  /\ (forall e, IDListenerEntry.callback e <> 11%nat -> renewed 11%nat e = e).
Proof.
  cbv zeta.
  apply (remove_first_renew_all example_registry 11%nat []
           {| IDListenerEntry.id := 7; IDListenerEntry.callback := 11%nat;
              IDListenerEntry.timeout := Some 3;
              IDListenerEntry.maxTimeout := Some 5 |}).
  - vm_compute. reflexivity.
  - reflexivity.
  - constructor.
Defined.

(** The example written out: the two entries of callback 11 are counted down
    to 3 and 2; removing 11 leaves the entries on IDs 8 and 9, renewing 11
    puts 5 and 4 back and leaves the entry of callback 10 at 4. *)
Example registry_example :
  map (fun e => (IDListenerEntry.id e, IDListenerEntry.timeout e))
      (idListeners (removeIDListener 11%nat example_registry))
  = [(8, Some 4); (9, Some 2)]
  /\ map (fun e => (IDListenerEntry.id e, IDListenerEntry.timeout e))
         (idListeners (renewIDListener 11%nat example_registry))
     = [(7, Some 5); (8, Some 4); (9, Some 4)].
Proof. split; by vm_compute. Qed.

(** ** The peer bit *)

Lemma peer_bit_set id (k : nat) :
  (1 <= k <= 4)%nat ->
  Z.testbit (js_or id (js_shl 1 (Z.of_nat k * 8 - 1))) (Z.of_nat k * 8 - 1) = true.
Proof.
  intros Hk. unfold js_or. rewrite Z.lor_spec.
  assert (k = 1 \/ k = 2 \/ k = 3 \/ k = 4)%nat as [-> | [-> | [-> | ->]]] by lia.
  all: apply orb_true_iff; right; by vm_compute.
Qed.

Lemma ToUint32_testbit v n : 0 <= n < 32 -> Z.testbit (ToUint32 v) n = Z.testbit v n.
Proof. intros Hn. unfold ToUint32. apply Z.mod_pow2_bits_low. lia. Qed.

Lemma big_endian_first_byte (k : nat) v :
  (1 <= k <= 4)%nat ->
  exists b rest,
    big_endian k v = b :: rest
    /\ Z.testbit b 7 = Z.testbit v (Z.of_nat k * 8 - 1).
Proof.
  intros Hk. unfold big_endian.
  assert (Hbit : forall u j, 0 <= j ->
            Z.testbit ((u / 2 ^ j) mod 256) 7 = Z.testbit u (7 + j)).
  { intros u j Hj. change 256 with (2 ^ 8).
    rewrite Z.mod_pow2_bits_low by lia. rewrite Z.div_pow2_bits by lia. done. }
  assert (k = 1 \/ k = 2 \/ k = 3 \/ k = 4)%nat as [-> | [-> | [-> | ->]]] by lia.
  all: cbn [be_bytes app]; eexists _, _; split; [reflexivity|].
  - rewrite <- (Z.div_1_r (ToUint32 v)). change 1 with (2 ^ 0) at 1.
    rewrite Hbit by lia. by apply ToUint32_testbit.
  - change 256 with (2 ^ 8) at 1. rewrite Hbit by lia. by apply ToUint32_testbit.
  - rewrite Z.div_div by lia.
    match goal with |- context [ToUint32 v / ?d] => change d with (2 ^ 16) end.
    rewrite Hbit by lia. by apply ToUint32_testbit.
  - rewrite !Z.div_div by lia.
    match goal with |- context [ToUint32 v / ?d] => change d with (2 ^ 24) end.
    rewrite Hbit by lia. by apply ToUint32_testbit.
Qed.

(** C10.  An engine constructed without a peer argument has [peer = 1] (and
    a four-byte ID field).  Whenever [peer] is 1 and the ID field is one to
    four bytes wide, the frame ID that a send stamps into the message,
    freshly allocated or reused from a response, has bit [8 * idSize - 1]
    set, and the first byte of the ID field on the wire has its top bit
    set. *)
Theorem default_peer_sets_top_bit xor tf message :
  peer tf = peer (constructor xor None) ->
  (1 <= idSize tf <= 4)%nat ->
  peer (constructor xor None) = 1
  /\ idSize (constructor xor None) = 4%nat
  /\ Z.testbit (stamped_id tf message) (Z.of_nat (idSize tf) * 8 - 1) = true
  /\ exists b rest,
       big_endian (idSize tf) (stamped_id tf message) = b :: rest
       /\ Z.testbit b 7 = true.
Proof.
  intros Hpeer Hk. cbn in Hpeer.
  assert (Hbit : Z.testbit (stamped_id tf message) (Z.of_nat (idSize tf) * 8 - 1)
                 = true).
  { rewrite stamped_id_spec. unfold peer_stamp. rewrite Hpeer. cbn [Z.eqb Pos.eqb].
    by apply peer_bit_set. }
  split; [done|]. split; [done|]. split; [done|].
  destruct (big_endian_first_byte (idSize tf) (stamped_id tf message) Hk)
    as (b & rest & Hbe & Hb).
  exists b, rest. split; [done|]. by rewrite Hb.
Qed.

Lemma default_peer_sets_top_bit_witness :
  let tf := after_allocations 5 example_tx in
  peer (constructor xor8 None) = 1
  /\ idSize (constructor xor8 None) = 4%nat
  /\ Z.testbit (stamped_id tf example_message) (Z.of_nat (idSize tf) * 8 - 1) = true
  /\ exists b rest,
       big_endian (idSize tf) (stamped_id tf example_message) = b :: rest
       /\ Z.testbit b 7 = true.
Proof.
  apply (default_peer_sets_top_bit xor8 (after_allocations 5 example_tx)
           example_message).
  - reflexivity.
  - vm_compute. lia.
Defined.

(** The default engine's sixth frame: the stamped ID is [5 | 1 << 31], a
    negative number to JavaScript, and the ID field reads 80 00 00 05. *)
Example default_peer_example :
  stamped_id (after_allocations 5 example_tx) example_message = 5 - 2 ^ 31
  /\ take 4 (composeHead (after_allocations 5 example_tx) example_message).2
     = [128; 0; 0; 5].
Proof. split; by vm_compute. Qed.

(** Beyond four bytes the shift count of [1 << (idSize * 8 - 1)] wraps
    modulo 32: with a five-byte field the bit that gets set is bit 7. *)
Example peer_bit_five_bytes :
  stamped_id (set_idSize 5 example_tx) example_message = 128.
Proof. by vm_compute. Qed.

(** * Further properties *)

(** ** writeUIntBE and the fields it fills *)

Lemma writeUIntBE_loop_length i : forall target offset current,
  length (writeUIntBE_loop target offset current i) = length target.
Proof.
  induction i as [|i IH]; intros target offset current; [done|].
  cbn [writeUIntBE_loop]. rewrite IH. unfold uint8_store. apply length_insert.
Qed.

Lemma writeUIntBE_loop_outside i : forall target offset current j,
  (j < offset \/ offset + i <= j)%nat ->
  writeUIntBE_loop target offset current i !! j = target !! j.
Proof.
  induction i as [|i IH]; intros target offset current j Hj; [done|].
  cbn [writeUIntBE_loop]. rewrite IH by lia. unfold uint8_store.
  apply list_lookup_insert_ne. lia.
Qed.

(** X1.  [writeUIntBE] never changes the length of its target and touches
    nothing outside the [byteLength] positions from [offset] on, whatever the
    target's size; it returns [offset + byteLength]; and where the field lies
    inside the target it holds the big-endian digits of the value reduced to
    32 bits (so bytes beyond the fourth from the right are zero). *)
Theorem writeUIntBE_in_place target offset value byteLength :
  let r := writeUIntBE target offset value byteLength in
  length r.1 = length target
  /\ r.2 = (offset + byteLength)%nat
  /\ (forall j, (j < offset \/ offset + byteLength <= j)%nat -> r.1 !! j = target !! j)
  /\ ((offset + byteLength <= length target)%nat ->
      take byteLength (drop offset r.1) = big_endian byteLength value)
  /\ length (big_endian byteLength value) = byteLength
  /\ Forall is_byte (big_endian byteLength value)
  /\ be_value (big_endian byteLength value)
     = ToUint32 value mod 256 ^ Z.of_nat byteLength.
Proof.
  cbv zeta. unfold writeUIntBE. cbn [fst snd].
  split; [apply writeUIntBE_loop_length|]. split; [done|].
  split; [intros j Hj; by apply writeUIntBE_loop_outside|].
  split; [|split; [apply big_endian_length|split; [apply big_endian_is_byte|]]].
  - intros Hfit.
    assert (exists pre mid post,
               target = pre ++ mid ++ post /\ length pre = offset
               /\ length mid = byteLength)
      as (pre & mid & post & -> & <- & Hmid).
    { exists (take offset target), (take byteLength (drop offset target)),
        (drop byteLength (drop offset target)).
      split; [by rewrite !take_drop|].
      rewrite !length_take, length_drop. lia. }
    rewrite js_ushr_0, writeUIntBE_loop_spec by auto using ToUint32_range.
    rewrite drop_app_length.
    by rewrite take_app_length' by (by rewrite be_bytes_length).
  - unfold big_endian. apply be_value_be_bytes. apply ToUint32_range.
Qed.

Lemma fits_narrow (n : nat) v : (n < 4)%nat -> fits n v <-> 0 <= v < 256 ^ Z.of_nat n.
Proof.
  intros Hn. unfold fits, field_value.
  assert (Hpow : 0 < 256 ^ Z.of_nat n <= 2 ^ 24).
  { split; [apply Z.pow_pos_nonneg; lia|].
    change (2 ^ 24) with (256 ^ 3). apply Z.pow_le_mono_r; lia. }
  pose proof (Z.mod_pos_bound (ToUint32 v) (256 ^ Z.of_nat n) ltac:(lia)) as Hm.
  rewrite ToInt32_small by lia.
  split.
  - intros <-. lia.
  - intros Hv. rewrite ToUint32_small by lia. apply Z.mod_small. lia.
Qed.

Lemma fits_wide (n : nat) v : (4 <= n)%nat -> fits n v <-> - 2 ^ 31 <= v < 2 ^ 31.
Proof.
  intros Hn. unfold fits, field_value.
  assert (Hpow : 2 ^ 32 <= 256 ^ Z.of_nat n).
  { change (2 ^ 32) with (256 ^ 4). apply Z.pow_le_mono_r; lia. }
  pose proof (ToUint32_range v).
  rewrite Z.mod_small by lia. rewrite ToInt32_ToUint32.
  split.
  - intros <-. apply ToInt32_range.
  - apply ToInt32_small.
Qed.

Lemma writeUIntBE_fresh n value :
  (writeUIntBE (new_Uint8Array n) 0 value n).1 = big_endian n value.
Proof.
  pose proof (writeUIntBE_spec [] (new_Uint8Array n) [] value n) as H.
  cbn [app length] in H. rewrite (right_id_L [] (++)) in H.
  rewrite H by apply length_replicate.
  cbn [fst]. by rewrite (right_id_L [] (++)).
Qed.

Lemma fits_range (n : nat) v :
  fits n v
  <-> if (n <? 4)%nat then 0 <= v < 256 ^ Z.of_nat n else - 2 ^ 31 <= v < 2 ^ 31.
Proof. destruct (Nat.ltb_spec n 4); [by apply fits_narrow|by apply fits_wide]. Qed.

(** X2.  Which numbers survive a field.  [writeUIntBE] writes a number into
    a new buffer of [n >= 1] bytes, and [accept] reads these bytes with a
    parser that stands at the start of a field of that width (its timeout
    not passed): of the ID field in state [id], of the length field in state
    [len], of the type field in state [type].  What the parser then holds in
    [currentID], [len] or [currentType] is the number that was written
    exactly when, for a field of one to three bytes, the number is an
    unsigned number of that width, and for a field of four bytes or more, it
    is a signed 32-bit number (so 2^31 and above do not survive a four-byte
    field, and negative numbers do). *)
Theorem field_round_trip_range run tf (n : nat) value :
  timeout_idle tf -> (1 <= n)%nat ->
  let field := (writeUIntBE (new_Uint8Array n) 0 value n).1 in
  let survives :=
    if (n <? 4)%nat then 0 <= value < 256 ^ Z.of_nat n
    else - 2 ^ 31 <= value < 2 ^ 31 in
  (idSize tf = n -> forall ln ty ck dat,
     currentID (accept run (with_parser tf st_id 0 0 ln ty ck dat) field).1 = value
     <-> survives)
  /\ (lenSize tf = n -> forall cid ty ck dat,
        len (accept run (with_parser tf st_len 0 cid 0 ty ck dat) field).1 = value
        <-> survives)
  /\ (typeSize tf = n -> forall cid ln ck dat,
        currentType (accept run (with_parser tf st_type 0 cid ln 0 ck dat) field).1
        = value
        <-> survives).
Proof.
  intros Hidle Hn. cbv zeta. rewrite writeUIntBE_fresh.
  assert (Hne : big_endian n value <> []).
  { apply nonempty_of_length. by rewrite big_endian_length. }
  split; [|split].
  - intros Hsize ln ty ck dat.
    rewrite (accept_id run tf Hidle) by (done || by rewrite big_endian_length).
    cbn [fst]. rewrite <- fits_range. unfold fits.
    rewrite <- read_field_big_endian. by destruct tf.
  - intros Hsize cid ty ck dat.
    rewrite (accept_len run tf Hidle) by (done || by rewrite big_endian_length).
    cbn [fst]. rewrite <- fits_range. unfold fits.
    rewrite <- read_field_big_endian. by destruct tf.
  - intros Hsize cid ln ck dat.
    rewrite (accept_type run tf Hidle) by (done || by rewrite big_endian_length).
    cbn [fst]. rewrite <- fits_range. unfold fits.
    rewrite <- read_field_big_endian. by destruct tf.
Qed.

Lemma field_round_trip_range_witness :
  let field := (writeUIntBE (new_Uint8Array 4) 0 (2 ^ 31) 4).1 in
  let survives :=
    if (4 <? 4)%nat then 0 <= 2 ^ 31 < 256 ^ Z.of_nat 4
    else - 2 ^ 31 <= 2 ^ 31 < 2 ^ 31 in
  (idSize example_rx = 4%nat -> forall ln ty ck dat,
     currentID (accept passive_run (with_parser example_rx st_id 0 0 ln ty ck dat)
                  field).1 = 2 ^ 31
     <-> survives)
  /\ (lenSize example_rx = 4%nat -> forall cid ty ck dat,
        len (accept passive_run (with_parser example_rx st_len 0 cid 0 ty ck dat)
               field).1 = 2 ^ 31
        <-> survives)
  /\ (typeSize example_rx = 4%nat -> forall cid ln ck dat,
        currentType
          (accept passive_run (with_parser example_rx st_type 0 cid ln 0 ck dat)
             field).1 = 2 ^ 31
        <-> survives).
Proof.
  apply (field_round_trip_range passive_run example_rx 4 (2 ^ 31)).
  - exact I.
  - lia.
Defined.

(** The witness written out: 2^31 written into the four-byte ID field is
    read back as -2^31. *)
Example field_round_trip_example :
  currentID
    (accept passive_run (with_parser example_rx st_id 0 0 0 0 0 [])
       (writeUIntBE (new_Uint8Array 4) 0 (2 ^ 31) 4).1).1
  = - 2 ^ 31.
Proof. by vm_compute. Qed.

(** ** What a send writes *)

Lemma ceil_div_step rem size :
  0 < size -> 0 < rem ->
  (rem + size - 1) / size = 1 + (Z.max 0 (rem - size) + size - 1) / size.
Proof.
  intros Hs Hr. destruct (Z.le_gt_cases size rem) as [Hge|Hlt].
  - rewrite Z.max_r by lia.
    replace (rem + size - 1) with (rem - size + size - 1 + 1 * size) by lia.
    rewrite Z.div_add by lia. lia.
  - rewrite Z.max_l by lia.
    rewrite (Z.div_small (0 + size - 1)) by lia.
    symmetry. apply Z.div_unique with (rem - 1); lia.
Qed.

Lemma write_loop_chunks fuel : forall buffer size cursor,
  0 < size -> 0 <= cursor ->
  (length buffer - Z.to_nat cursor <= fuel)%nat ->
  exists chunks,
    write_loop fuel Transport buffer size cursor = (map WriteChunk chunks, Returned)
    /\ concat chunks = drop (Z.to_nat cursor) buffer
    /\ Forall (fun chunk => 0 < Z.of_nat (length chunk) <= size) chunks
    /\ (forall i chunk, chunks !! i = Some chunk -> (S i < length chunks)%nat ->
          Z.of_nat (length chunk) = size)
    /\ (chunks = [] <-> Z.of_nat (length buffer) <= cursor)
    /\ Z.of_nat (length chunks)
       = (Z.max 0 (Z.of_nat (length buffer) - cursor) + size - 1) / size.
Proof.
  induction fuel as [|fuel IH]; intros buffer size cursor Hs Hc Hfuel;
    cbn [write_loop]; destruct (Z.ltb_spec cursor (Z.of_nat (length buffer))) as [Hlt|Hge].
  - lia.
  - exists []. repeat split; try done; try lia.
    + by rewrite drop_ge by lia.
    + cbn. rewrite Z.max_l by lia. by rewrite Z.div_small by lia.
  - destruct (IH buffer size (cursor + size)) as (rest & -> & Hcat & Hall & Hfull & Hnil & Hcount);
      [lia..|].
    set (chunk := subarray buffer cursor (cursor + size)).
    assert (Hchunk : chunk ++ drop (Z.to_nat (cursor + size)) buffer
                     = drop (Z.to_nat cursor) buffer) by (apply subarray_chunk; lia).
    assert (Hlen : Z.of_nat (length chunk)
                   = Z.min size (Z.of_nat (length buffer) - cursor)).
    { apply (f_equal length) in Hchunk. rewrite length_app, !length_drop in Hchunk. lia. }
    exists (chunk :: rest). split; [done|]. split; [|split; [|split; [|split]]].
    + cbn [concat]. by rewrite Hcat.
    + constructor; [lia|done].
    + intros [|i] c Hi Hn; cbn in Hi, Hn.
      * injection Hi as <-.
        assert (rest <> []) as Hne by (destruct rest; cbn in Hn; [lia|done]).
        assert (~ Z.of_nat (length buffer) <= cursor + size) by (rewrite <- Hnil; done).
        lia.
      * apply (Hfull i c Hi). lia.
    + split; [done|lia].
    + cbn [length]. rewrite Nat2Z.inj_succ, Hcount.
      rewrite (ceil_div_step (Z.max 0 (Z.of_nat (length buffer) - cursor)) size) by lia.
      replace (Z.max 0 (Z.of_nat (length buffer) - (cursor + size)))
        with (Z.max 0 (Z.max 0 (Z.of_nat (length buffer) - cursor) - size)) by lia.
      lia.
  - exists []. repeat split; try done; try lia.
    + by rewrite drop_ge by lia.
    + cbn. rewrite Z.max_l by lia. by rewrite Z.div_small by lia.
Qed.

(** X3.  On an engine with a transport and a positive chunk size, a send
    calls [claimTx], then [write] once per chunk, then [releaseTx], and
    returns.  The chunks, put end to end, are the frame: the start-of-frame
    byte if one is configured, the stamped ID, the payload length and the
    type, each big-endian in its own width, the header checksum if a strategy
    is set, the payload, and the payload checksum if a strategy is set and
    the payload is not empty.  Every chunk has at least one byte and at most
    [chunkSize]; every chunk but the last has exactly [chunkSize]; their
    number is the frame length divided by [chunkSize], rounded up. *)
Theorem sent_frame_layout fuel tf message callback timeout :
  write tf = Transport -> 0 < chunkSize tf ->
  (length (frame_bytes tf message) <= fuel)%nat ->
  let r := sendFrame fuel tf message callback timeout in
  let id := Message.frameID (sent r) in
  let payload := Message.data message in
  let header :=
    sof_bytes tf ++ big_endian (idSize tf) id
    ++ big_endian (lenSize tf) (Z.of_nat (length payload))
    ++ big_endian (typeSize tf) (Message.type message) in
  let frame :=
    header ++ cksum_bytes tf header ++ payload
    ++ (if (0 <? length payload)%nat then cksum_bytes tf payload else []) in
  exists chunks,
    completion r = Returned
    /\ trace r = [ClaimTx] ++ map WriteChunk chunks ++ [ReleaseTx]
    /\ concat chunks = frame
    /\ Forall (fun chunk => 0 < Z.of_nat (length chunk) <= chunkSize tf) chunks
    /\ (forall i chunk, chunks !! i = Some chunk -> (S i < length chunks)%nat ->
          Z.of_nat (length chunk) = chunkSize tf)
    /\ length chunks = chunk_count (length frame) (chunkSize tf).
Proof.
  intros Hw Hc Hfuel. cbv zeta. rewrite sendFrame_sent.
  cbn [Message.frameID Message.set_frameID].
  assert (Hframe : frame_bytes tf message
                   = (sof_bytes tf ++ big_endian (idSize tf) (stamped_id tf message)
                      ++ big_endian (lenSize tf) (Z.of_nat (length (Message.data message)))
                      ++ big_endian (typeSize tf) (Message.type message))
                     ++ cksum_bytes tf
                          (sof_bytes tf ++ big_endian (idSize tf) (stamped_id tf message)
                           ++ big_endian (lenSize tf)
                                (Z.of_nat (length (Message.data message)))
                           ++ big_endian (typeSize tf) (Message.type message))
                     ++ Message.data message
                     ++ (if (0 <? length (Message.data message))%nat
                         then cksum_bytes tf (Message.data message) else [])).
  { rewrite frame_bytes_spec. unfold header_fields, payload_bytes, cksum_bytes.
    rewrite <- !(assoc_L (++)). do 5 f_equal.
    destruct (checksum tf), (0 <? _)%nat; done. }
  rewrite <- Hframe. clear Hframe.
  unfold sendFrame.
  unfold frame_bytes in *. rewrite composeHead_spec in *.
  cbv beta iota zeta in *. cbn [snd] in *.
  set (header := sof_bytes tf ++ _) in *.
  set (tf1 := match callback with Some _ => _ | None => _ end).
  assert (Hcfg : checksum tf1 = checksum tf /\ write tf1 = write tf
                 /\ chunkSize tf1 = chunkSize tf).
  { unfold tf1, allocated. by destruct callback, (Message.isResponse message). }
  destruct Hcfg as (Hck & Hwr & Hcs). rewrite Hck, Hwr, Hcs, Hw.
  cbn [Message.data Message.set_frameID].
  pose proof (sendFrame_payload tf message) as Hp. cbv zeta in Hp. rewrite Hp.
  unfold concatUint8. cbn [concat]. rewrite (right_id_L [] (++)).
  destruct (write_loop_chunks fuel (header ++ payload_bytes tf message)
              (chunkSize tf) 0) as (chunks & -> & Hcat & Hall & Hfull & _ & Hcount);
    [lia..|].
  exists chunks. cbn [completion trace]. repeat split; try done.
  unfold chunk_count. rewrite Z.sub_0_r, Z.max_r in Hcount by lia. lia.
Qed.

Lemma sent_frame_layout_witness :
  let tf := set_chunkSize 5 example_tx in
  let r := sendFrame 64 tf example_message None None in
  let id := Message.frameID (sent r) in
  let payload := Message.data example_message in
  let header :=
    sof_bytes tf ++ big_endian (idSize tf) id
    ++ big_endian (lenSize tf) (Z.of_nat (length payload))
    ++ big_endian (typeSize tf) (Message.type example_message) in
  let frame :=
    header ++ cksum_bytes tf header ++ payload
    ++ (if (0 <? length payload)%nat then cksum_bytes tf payload else []) in
  exists chunks,
    completion r = Returned
    /\ trace r = [ClaimTx] ++ map WriteChunk chunks ++ [ReleaseTx]
    /\ concat chunks = frame
    /\ Forall (fun chunk => 0 < Z.of_nat (length chunk) <= chunkSize tf) chunks
    /\ (forall i chunk, chunks !! i = Some chunk -> (S i < length chunks)%nat ->
          Z.of_nat (length chunk) = chunkSize tf)
    /\ length chunks = chunk_count (length frame) (chunkSize tf).
Proof.
  apply (sent_frame_layout 64 (set_chunkSize 5 example_tx) example_message None None).
  - reflexivity.
  - vm_compute. reflexivity.
  - vm_compute. lia.
Defined.

(** ** Registering and removing listeners *)

Lemma allocated_tables tf message :
  idListeners (allocated tf message).2 = idListeners tf
  /\ typeListeners (allocated tf message).2 = typeListeners tf
  /\ genericListeners (allocated tf message).2 = genericListeners tf.
Proof. unfold allocated. by destruct (Message.isResponse message). Qed.

(** X4.  [query] puts its listener at the end of the ID table, under the
    frame ID that was stamped into the message, with [timeout] as both the
    countdown and the value to renew to, and leaves the other two tables
    alone.  This holds however the call ends: the entry is also there after
    the transport has thrown.  [send] registers nothing. *)
Theorem query_registers_listener fuel tf message listener timeout :
  let r := query fuel tf message listener timeout in
  idListeners (engine r)
  = idListeners tf
    ++ [ {| IDListenerEntry.id := Message.frameID (sent r);
            IDListenerEntry.callback := listener;
            IDListenerEntry.timeout := timeout;
            IDListenerEntry.maxTimeout := timeout |} ]
  /\ typeListeners (engine r) = typeListeners tf
  /\ genericListeners (engine r) = genericListeners tf
  /\ idListeners (engine (send fuel tf message)) = idListeners tf.
Proof.
  cbv zeta. unfold query, send. rewrite sendFrame_sent, stamped_id_spec.
  destruct (allocated_tables tf message) as (Hi & Ht & Hg).
  unfold sendFrame. rewrite composeHead_spec. cbv beta iota zeta.
  repeat match goal with
         | |- context [write_loop ?a ?b ?c ?d ?e] => destruct (write_loop a b c d e)
         end.
  cbn [engine]. unfold addIDListener.
  cbn [Message.frameID Message.set_frameID].
  change (idListeners (set_idListeners ?v _)) with v.
  change (typeListeners (set_idListeners _ ?t)) with (typeListeners t).
  change (genericListeners (set_idListeners _ ?t)) with (genericListeners t).
  by rewrite Hi, Ht, Hg.
Qed.

Lemma findIndex_from_none {A} (p : A -> bool) l i :
  Forall (fun y => p y = false) l -> findIndex_from p l i = -1.
Proof.
  intros Hl. revert i. induction Hl as [|y l Hy _ IH]; intros i; [done|].
  cbn [findIndex_from]. by rewrite Hy.
Qed.

(** X5.  Removing a listener that is not registered changes nothing, in any
    of the three tables. *)
Theorem remove_unregistered_is_noop tf callback :
  unregistered callback tf ->
  removeIDListener callback tf = tf
  /\ removeTypeListener callback tf = tf
  /\ removeGenericListener callback tf = tf.
Proof.
  intros (H1 & H2 & H3). split; [|split].
  - revert H1. intros H. unfold removeIDListener, findIndex.
    rewrite findIndex_from_none; [done|].
    eapply Forall_impl; [exact H|]. intros e He. by apply Nat.eqb_neq.
  - revert H2. intros H. unfold removeTypeListener, findIndex.
    rewrite findIndex_from_none; [done|].
    eapply Forall_impl; [exact H|]. intros e He. by apply Nat.eqb_neq.
  - revert H3. intros H. unfold removeGenericListener, findIndex.
    rewrite findIndex_from_none; [done|].
    apply Forall_forall. intros e He. apply Nat.eqb_neq. intros ->. done.
Qed.

Lemma unregistered_example : unregistered 99%nat example_dispatching.
Proof.
  split; [|split].
  - vm_compute. repeat constructor; discriminate.
  - vm_compute. repeat constructor; discriminate.
  - vm_compute. intros H. repeat (apply elem_of_cons in H as [H|H]; [discriminate|]).
    by apply elem_of_nil in H.
Qed.

Lemma remove_unregistered_is_noop_witness :
  removeIDListener 99%nat example_dispatching = example_dispatching
  /\ removeTypeListener 99%nat example_dispatching = example_dispatching
  /\ removeGenericListener 99%nat example_dispatching = example_dispatching.
Proof.
  apply (remove_unregistered_is_noop example_dispatching 99%nat).
  apply unregistered_example.
Defined.

(** X6.  Registering a listener that was not registered before and removing
    it again gives back the engine as it was, for each of the three tables.
    (If the listener was registered already, it is the older entry that
    goes.) *)
Theorem add_then_remove_restores tf callback id type timeout :
  unregistered callback tf ->
  removeIDListener callback (addIDListener id callback timeout tf) = tf
  /\ removeTypeListener callback (addTypeListener type callback tf) = tf
  /\ removeGenericListener callback (addGenericListener callback tf) = tf.
Proof.
  intros (H1 & H2 & H3). split; [|split].
  - revert H1. intros H. unfold removeIDListener, addIDListener, findIndex.
    change (idListeners (set_idListeners ?v _)) with v.
    rewrite findIndex_from_first; first last.
    + cbn. apply Nat.eqb_refl.
    + eapply Forall_impl; [exact H|]. intros e He. by apply Nat.eqb_neq.
    + rewrite Z.add_0_l.
      destruct (Z.leb_spec 0 (Z.of_nat (length (idListeners tf)))); [|lia].
      rewrite splice1_middle, (right_id_L [] (++)). by destruct tf.
  - revert H2. intros H. unfold removeTypeListener, addTypeListener, findIndex.
    change (typeListeners (set_typeListeners ?v _)) with v.
    rewrite findIndex_from_first; first last.
    + cbn. apply Nat.eqb_refl.
    + eapply Forall_impl; [exact H|]. intros e He. by apply Nat.eqb_neq.
    + rewrite Z.add_0_l.
      destruct (Z.leb_spec 0 (Z.of_nat (length (typeListeners tf)))); [|lia].
      rewrite splice1_middle, (right_id_L [] (++)). by destruct tf.
  - revert H3. intros H. unfold removeGenericListener, addGenericListener, findIndex.
    change (genericListeners (set_genericListeners ?v _)) with v.
    rewrite findIndex_from_first; first last.
    + apply Nat.eqb_refl.
    + apply Forall_forall. intros e He. apply Nat.eqb_neq. intros ->. done.
    + rewrite Z.add_0_l.
      match goal with
      | |- context [0 <=? ?x] => destruct (Z.leb_spec 0 x); [|lia]
      end.
      rewrite splice1_middle, (right_id_L [] (++)). by destruct tf.
Qed.

Lemma add_then_remove_restores_witness :
  removeIDListener 99%nat (addIDListener 7 99%nat (Some 3) example_dispatching)
  = example_dispatching
  /\ removeTypeListener 99%nat (addTypeListener 3 99%nat example_dispatching)
     = example_dispatching
  /\ removeGenericListener 99%nat (addGenericListener 99%nat example_dispatching)
     = example_dispatching.
Proof.
  apply (add_then_remove_restores example_dispatching 99%nat 7 3 (Some 3)).
  apply unregistered_example.
Defined.

(** ** tick and the lifetime of ID listeners *)

Lemma tick_at_middle done_ e rest keys :
  tick_at (done_ ++ e :: rest, keys) (length done_)
  = (done_ ++ counted_down e :: rest,
     keys ++ (if used_up (counted_down e) then [length done_] else [])).
Proof.
  unfold tick_at, counted_down, used_up. rewrite list_lookup_middle by done.
  destruct (IDListenerEntry.timeout e) as [t|] eqn:Ht.
  - rewrite insert_app_r_alt, Nat.sub_diag by lia. cbn.
    destruct (t - 1 <=? 0); [done|]. by rewrite (right_id_L [] (++)).
  - rewrite Ht. by rewrite (right_id_L [] (++)).
Qed.

Lemma tick_count_loop rest : forall done_ keys,
  foldl tick_at (done_ ++ rest, keys) (seq (length done_) (length rest))
  = (done_ ++ map counted_down rest, keys ++ used_up_keys (length done_) rest).
Proof.
  induction rest as [|e rest IH]; intros done_ keys.
  - cbn. by rewrite !(right_id_L [] (++)).
  - cbn [length seq foldl map used_up_keys]. rewrite tick_at_middle.
    replace (done_ ++ counted_down e :: rest)
      with ((done_ ++ [counted_down e]) ++ rest) by by rewrite <- (assoc_L (++)).
    replace (S (length done_)) with (length (done_ ++ [counted_down e]))
      by (rewrite length_app; cbn; lia).
    rewrite IH. by rewrite <- !(assoc_L (++)).
Qed.

Lemma tick_remove_loop rest : forall kept (removed : nat),
  (foldl tick_remove (kept ++ map counted_down rest, - Z.of_nat removed)
     (used_up_keys (length kept + removed) rest)).1
  = kept ++ filter (fun e => used_up e = false) (map counted_down rest).
Proof.
  induction rest as [|e rest IH]; intros kept removed.
  - done.
  - cbn [map used_up_keys]. rewrite filter_cons.
    destruct (used_up (counted_down e)) eqn:Hu.
    + rewrite decide_False by done. cbn [app foldl]. unfold tick_remove at 2.
      replace (Z.of_nat (length kept + removed) + - Z.of_nat removed)
        with (Z.of_nat (length kept)) by lia.
      rewrite splice1_middle.
      replace (- Z.of_nat removed - 1) with (- Z.of_nat (S removed)) by lia.
      replace (S (length kept + removed)) with (length kept + S removed)%nat by lia.
      apply IH.
    + rewrite decide_True by done. cbn [app].
      replace (kept ++ counted_down e :: map counted_down rest)
        with ((kept ++ [counted_down e]) ++ map counted_down rest)
        by by rewrite <- (assoc_L (++)).
      replace (S (length kept + removed))
        with (length (kept ++ [counted_down e]) + removed)%nat
        by (rewrite length_app; cbn; lia).
      rewrite IH. by rewrite <- (assoc_L (++)).
Qed.

Lemma aged_one e :
  aged 1 e = if used_up (counted_down e) then None else Some (counted_down e).
Proof.
  unfold aged, used_up, counted_down.
  destruct (IDListenerEntry.timeout e) as [t|] eqn:Ht; cbn -[Z.of_nat]; [|by rewrite Ht].
  change (Z.of_nat 1) with 1. by destruct (t - 1 <=? 0).
Qed.

Lemma filter_counted_down l :
  filter (fun e => used_up e = false) (map counted_down l) = omap (aged 1) l.
Proof.
  induction l as [|e l IH]; [done|].
  cbn [map]. rewrite filter_cons, IH.
  change (omap (aged 1) (e :: l))
    with (match aged 1 e with
          | Some y => y :: omap (aged 1) l
          | None => omap (aged 1) l
          end).
  rewrite aged_one.
  destruct (used_up (counted_down e)); [by rewrite decide_False|by rewrite decide_True].
Qed.

Lemma tick_idListeners tf :
  idListeners (tick tf) = omap (aged 1) (idListeners tf).
Proof.
  unfold tick. cbv zeta.
  change (idListeners (set_parserTimeoutTicks _ ?t)) with (idListeners t).
  pose proof (tick_count_loop (idListeners tf) [] []) as H1. cbn [app length] in H1.
  rewrite H1.
  pose proof (tick_remove_loop (idListeners tf) [] 0) as H2.
  cbn [app length Nat.add] in H2. change (- Z.of_nat 0) with 0 in H2.
  destruct (foldl tick_remove _ _) as [listeners offset]. cbn [fst] in H2.
  change (idListeners (set_idListeners ?v _)) with v. rewrite H2.
  apply filter_counted_down.
Qed.

Lemma aged_compose n e :
  (aged n e ≫= aged 1) = aged (S n) e.
Proof.
  unfold aged. destruct n as [|n].
  - cbn. done.
  - destruct (IDListenerEntry.timeout e) as [t|] eqn:Ht; cbn -[Z.of_nat]; [|by rewrite Ht].
    destruct (Z.leb_spec (t - Z.of_nat (S n)) 0) as [Hle|Hgt]; cbn -[Z.of_nat].
    + by rewrite (proj2 (Z.leb_le _ _)) by lia.
    + replace (t - Z.of_nat (S n) - Z.of_nat 1) with (t - Z.of_nat (S (S n))) by lia.
      by destruct (_ <=? 0).
Qed.

Lemma omap_aged_0 (l : list IDListenerEntry.t) : omap (aged 0) l = l.
Proof.
  induction l as [|e l IH]; [done|].
  change (omap (aged 0) (e :: l)) with (e :: omap (aged 0) l). by rewrite IH.
Qed.

Lemma omap_aged_succ n (l : list IDListenerEntry.t) :
  omap (aged 1) (omap (aged n) l) = omap (aged (S n)) l.
Proof.
  induction l as [|e l IH]; [done|].
  change (omap (aged (S n)) (e :: l))
    with (match aged (S n) e with
          | Some y => y :: omap (aged (S n)) l
          | None => omap (aged (S n)) l
          end).
  change (omap (aged n) (e :: l))
    with (match aged n e with
          | Some y => y :: omap (aged n) l
          | None => omap (aged n) l
          end).
  rewrite <- aged_compose, <- IH.
  by destruct (aged n e) as [e'|].
Qed.

Lemma ticks_idListeners n tf :
  idListeners (Nat.iter n tick tf) = omap (aged n) (idListeners tf).
Proof.
  induction n as [|n IH].
  - cbn [Nat.iter]. by rewrite omap_aged_0.
  - by rewrite Nat.iter_succ, tick_idListeners, IH, omap_aged_succ.
Qed.

(** X7.  One tick adds one to the tick counter and goes through the ID
    table: an entry without a timeout is kept as it is; an entry with a
    timeout is counted down by one and, when that leaves zero or less, taken
    out.  The entries that stay keep their order, their [id], their callback
    and their [maxTimeout].  Nothing else in the engine changes: not the
    type and generic tables, not the parser, not [nextID], not the
    configuration. *)
Theorem tick_ages_id_listeners tf :
  idListeners (tick tf) = omap (aged 1) (idListeners tf)
  /\ tick tf
     = set_idListeners (omap (aged 1) (idListeners tf))
         (set_parserTimeoutTicks (parserTimeoutTicks tf + 1) tf)
  /\ (forall e e', aged 1 e = Some e' ->
        IDListenerEntry.id e' = IDListenerEntry.id e
        /\ IDListenerEntry.callback e' = IDListenerEntry.callback e
        /\ IDListenerEntry.maxTimeout e' = IDListenerEntry.maxTimeout e).
Proof.
  split; [apply tick_idListeners|]. split.
  - rewrite <- tick_idListeners. unfold tick. cbv zeta.
    destruct (foldl tick_at _ _) as [listeners removeKeys].
    by destruct (foldl tick_remove _ _).
  - intros e e'. unfold aged.
    destruct (IDListenerEntry.timeout e) as [t|]; [|by intros [= <-]].
    destruct (_ <=? _); [done|]. by intros [= <-].
Qed.

(** X8.  The lifetime of an ID listener.  After [n] ticks the ID table holds,
    in their original order, the entries without a timeout and the entries
    whose timeout is above [n], the latter with [n] taken off their
    countdown.  So a listener registered with timeout [T >= 1] is still in the
    table after [T - 1] ticks, with one tick left, and is gone after [T]
    ticks; one registered with a timeout of zero or less goes at the first
    tick; one registered without a timeout never goes. *)
Theorem id_listener_lifetime n tf :
  idListeners (Nat.iter n tick tf) = omap (aged n) (idListeners tf)
  /\ parserTimeoutTicks (Nat.iter n tick tf) = parserTimeoutTicks tf + Z.of_nat n
  /\ (forall e, IDListenerEntry.timeout e = None -> aged n e = Some e)
  /\ (forall e t, IDListenerEntry.timeout e = Some t -> Z.of_nat n < t ->
        aged n e = Some (IDListenerEntry.set_timeout (Some (t - Z.of_nat n)) e))
  /\ (forall e t, IDListenerEntry.timeout e = Some t -> (1 <= n)%nat ->
        t <= Z.of_nat n -> aged n e = None).
Proof.
  split; [apply ticks_idListeners|]. split; [|split; [|split]].
  - induction n as [|n IH]; [cbn; lia|].
    rewrite Nat.iter_succ, tick_parserTimeoutTicks, IH. lia.
  - intros e He. unfold aged. rewrite He. by destruct n.
  - intros e t He Hlt. unfold aged. rewrite He. destruct n as [|n].
    + change (Z.of_nat 0) with 0. rewrite Z.sub_0_r.
      destruct e; cbn in He. by subst.
    + by rewrite (proj2 (Z.leb_gt _ _)) by lia.
  - intros e t He Hn Hle. unfold aged. rewrite He. destruct n as [|n]; [lia|].
    by rewrite (proj2 (Z.leb_le _ _)) by lia.
Qed.

(** ** The parser: chunks, markers, settings *)

(** X9.  Chunk boundaries do not matter to the parser: two sequences of
    chunks that carry the same bytes leave the engine in the same state and
    produce the same dispatches, and both do what one [accept] of all the
    bytes does. *)
Theorem accept_ignores_chunk_boundaries run tf chunks chunks' :
  concat chunks = concat chunks' ->
  accept_chunks run tf chunks = accept_chunks run tf chunks'
  /\ accept_chunks run tf chunks = accept run tf (concat chunks).
Proof.
  intros H. rewrite !accept_chunks_concat. by rewrite H.
Qed.

Lemma accept_ignores_chunk_boundaries_witness :
  accept_chunks passive_run example_rx [[128; 0]; [0; 0; 0]; []; [0; 0; 6]]
  = accept_chunks passive_run example_rx [[128]; [0; 0; 0; 0; 0; 0]; [6]]
  /\ accept_chunks passive_run example_rx [[128; 0]; [0; 0; 0]; []; [0; 0; 6]]
     = accept passive_run example_rx (concat [[128; 0]; [0; 0; 0]; []; [0; 0; 6]]).
Proof.
  apply (accept_ignores_chunk_boundaries passive_run example_rx
           [[128; 0]; [0; 0; 0]; []; [0; 0; 6]] [[128]; [0; 0; 0; 0; 0; 0]; [6]]).
  reflexivity.
Defined.

Lemma accept_skips run tf sof noise : forall pl cid ln ty ck dat,
  timeout_idle tf -> sofByte tf = Some sof -> Forall (fun b => b <> sof) noise ->
  accept run (with_parser tf st_sof pl cid ln ty ck dat) noise
  = (with_parser tf st_sof pl cid ln ty ck dat, []).
Proof.
  intros pl cid ln ty ck dat Hidle Hs Hnoise.
  induction Hnoise as [|b noise Hb _ IH]; [done|].
  erewrite accept_cons_quiet; [exact IH|].
  by apply (acceptByte_sof_skip run tf Hidle sof).
Qed.

(** X10.  Hunting for the start of a frame.  With a start-of-frame byte
    configured, a parser waiting in [sof] (its timeout not passed) lets every
    byte that is not the marker go by without any effect on the engine:
    whatever follows is parsed exactly as if the noise had not been there. *)
Theorem sof_hunt_skips_noise run tf sof noise bytes :
  sofByte tf = Some sof -> state tf = st_sof -> timeout_idle tf ->
  Forall (fun b => b <> sof) noise ->
  accept run tf noise = (tf, [])
  /\ accept run tf (noise ++ bytes) = accept run tf bytes.
Proof.
  intros Hs Hst Hidle Hnoise.
  assert (H : accept run tf noise = (tf, [])).
  { pose proof (accept_skips run tf sof noise (partLen tf) (currentID tf) (len tf)
                  (currentType tf) (cksum tf) (data tf) Hidle Hs Hnoise) as H.
    rewrite <- Hst in H. by rewrite with_parser_self in H. }
  split; [done|]. rewrite accept_app, H. by destruct (accept run tf bytes).
Qed.

Lemma sof_hunt_skips_noise_witness :
  accept passive_run example_sof_rx [0; 255; 7; 2] = (example_sof_rx, [])
  /\ accept passive_run example_sof_rx ([0; 255; 7; 2] ++ 1 :: example_frame)
     = accept passive_run example_sof_rx (1 :: example_frame).
Proof.
  apply (sof_hunt_skips_noise passive_run example_sof_rx 1 [0; 255; 7; 2]
           (1 :: example_frame)).
  - reflexivity.
  - reflexivity.
  - exact I.
  - repeat constructor; discriminate.
Defined.

Lemma same_settings_refl tf : same_settings tf tf.
Proof. by repeat split. Qed.

Lemma same_settings_trans tf1 tf2 tf3 :
  same_settings tf1 tf2 -> same_settings tf2 tf3 -> same_settings tf1 tf3.
Proof.
  unfold same_settings.
  intros (?&?&?&?&?&?&?&?&?&?&?) (?&?&?&?&?&?&?&?&?&?&?). repeat split; congruence.
Qed.

Lemma same_settings_idle tf tf' :
  same_settings tf tf' -> timeout_idle tf -> timeout_idle tf'.
Proof.
  unfold same_settings, timeout_idle. intros (_&_&Ht&Hp&_). by rewrite Ht, Hp.
Qed.

Lemma same_settings_configuration tx rx rx' :
  same_settings rx rx' -> same_configuration tx rx -> same_configuration tx rx'.
Proof.
  unfold same_settings, same_configuration.
  intros (?&?&?&?&?&?&?&?&?&?&?) (?&?&?&?&?&?). repeat split; congruence.
Qed.

Section Settings.

Variable run : ListenerRef -> TinyFrame -> Message.t -> TinyFrame * Message.t.
Hypothesis Hrun : keeps_settings run.

Lemma notify_settings listener st : same_settings st.1.1 (notify run listener st).1.1.
Proof.
  destruct st as [[tf message] log]. unfold notify.
  pose proof (Hrun listener tf message) as H.
  by destruct (run listener tf message).
Qed.

Lemma foldl_settings {A} (f : DispatchState -> A -> DispatchState) (l : list A) :
  (forall st x, same_settings st.1.1 (f st x).1.1) ->
  forall st, same_settings st.1.1 (foldl f st l).1.1.
Proof.
  intros Hf. induction l as [|x l IH]; intros st; [apply same_settings_refl|].
  cbn [foldl]. eapply same_settings_trans; [apply Hf|apply IH].
Qed.

Lemma handleReceived_settings tf : same_settings tf (handleReceived run tf).1.
Proof.
  unfold handleReceived. cbv zeta. cbn [fst].
  eapply same_settings_trans; [|apply foldl_settings; intros; apply notify_settings].
  eapply same_settings_trans; [|apply foldl_settings].
  - apply (foldl_settings (notify_id run) _ ltac:(intros st x; unfold notify_id;
      case_match; [apply notify_settings|apply same_settings_refl]) (tf, _, [])).
  - intros st x. unfold notify_type.
    case_match; [apply notify_settings|apply same_settings_refl].
Qed.

Lemma dispatch_and_reset_settings tf :
  same_settings tf (dispatch_and_reset run tf).1.
Proof.
  unfold dispatch_and_reset.
  pose proof (handleReceived_settings tf) as H.
  by destruct (handleReceived run tf).
Qed.

Lemma acceptByte_settings tf byte : same_settings tf (acceptByte run tf byte).1.
Proof.
  unfold acceptByte.
  repeat (case_match; try (by repeat split)); cbn [fst];
    try (eapply same_settings_trans; [|apply dispatch_and_reset_settings];
         by repeat split).
Qed.

Lemma accept_settings bytes : forall tf, same_settings tf (accept run tf bytes).1.
Proof.
  induction bytes as [|b bytes IH]; intros tf; [apply same_settings_refl|].
  rewrite accept_cons.
  pose proof (acceptByte_settings tf b) as Hb.
  destruct (acceptByte run tf b) as [tf1 ds1].
  pose proof (IH tf1) as Hrest.
  destruct (accept run tf1 bytes) as [tf2 ds2]. cbn [fst] in *.
  by eapply same_settings_trans.
Qed.

End Settings.

Lemma acceptByte_quiet_tables run tf byte :
  (acceptByte run tf byte).2 = [] -> same_tables tf (acceptByte run tf byte).1.
Proof.
  unfold acceptByte, dispatch_and_reset.
  repeat (case_match; try (by repeat split)); cbn [fst snd]; done.
Qed.

Lemma accept_quiet_tables run bytes : forall tf,
  (accept run tf bytes).2 = [] -> same_tables tf (accept run tf bytes).1.
Proof.
  induction bytes as [|b bytes IH]; intros tf; [by repeat split|].
  rewrite accept_cons.
  pose proof (acceptByte_quiet_tables run tf b) as Hb.
  destruct (acceptByte run tf b) as [tf1 ds1].
  pose proof (IH tf1) as Hrest.
  destruct (accept run tf1 bytes) as [tf2 ds2]. cbn [fst snd] in *.
  intros Hnil. apply app_eq_nil in Hnil as [-> ->].
  destruct (Hb eq_refl) as (?&?&?), (Hrest eq_refl) as (?&?&?).
  repeat split; congruence.
Qed.

(** X11.  What parsing leaves alone.  Accepting bytes changes nothing but the
    parser's own fields, except through listeners: if the listeners leave the
    settings (configuration, [nextID], tick counter, [write]) alone, so does
    any run of accepted bytes; and as long as no frame is dispatched the
    three listener tables are as they were, whatever the bytes. *)
Theorem accept_leaves_settings run tf bytes :
  keeps_settings run ->
  same_settings tf (accept run tf bytes).1
  /\ ((accept run tf bytes).2 = [] -> same_tables tf (accept run tf bytes).1).
Proof.
  intros Hrun. split; [by apply accept_settings|apply accept_quiet_tables].
Qed.

Lemma accept_leaves_settings_witness :
  same_settings example_dispatching
    (accept one_shot_run example_dispatching example_frame).1
  /\ ((accept one_shot_run example_dispatching example_frame).2 = [] ->
      same_tables example_dispatching
        (accept one_shot_run example_dispatching example_frame).1).
Proof.
  apply (accept_leaves_settings one_shot_run example_dispatching example_frame).
  intros listener tf message. unfold one_shot_run, removeIDListener. cbn [fst].
  destruct (0 <=? _); by repeat split.
Defined.

(** ** Frames in a stream *)

Lemma same_settings_framing tx rx rx' :
  same_settings rx rx' -> same_framing tx rx -> same_framing tx rx'.
Proof.
  unfold same_settings, same_framing.
  intros (?&?&?&?&?&?&?&?&?&?&?) (?&?&?&?&?). repeat split; congruence.
Qed.

Lemma accept_sent_frame run tx rx c message :
  same_framing tx rx -> state rx = st_sof -> timeout_idle rx ->
  widths_positive tx -> sof_is_byte tx ->
  checksum tx = Some c -> strategy_fits c ->
  Message.data message <> [] -> Forall is_byte (Message.data message) ->
  representable tx message ->
  accept run rx (frame_bytes tx message)
  = dispatch_and_reset run
      (with_parser rx st_datacksum (Checksum.size c) (stamped_id tx message)
         (Z.of_nat (length (Message.data message))) (Message.type message)
         (Checksum.sum c (Message.data message)) (Message.data message)).
Proof.
  intros Hcfg Hst Hidle Hw Hmark Hc Hfit Hne Hbytes Hrep.
  pose proof Hcfg as (_ & _ & _ & _ & Hcc).
  pose proof Hfit as (Hsz & Hsum).
  unfold frame_bytes, payload_bytes. rewrite Hc.
  assert ((0 <? length (Message.data message))%nat = true) as ->.
  { apply Nat.ltb_lt. destruct (Message.data message); [done|cbn; lia]. }
  erewrite accept_app_quiet; [|by eapply accept_sent_header].
  rewrite (accept_payload run rx c); try done.
  - rewrite read_cksum_big_endian, Hsum by done. by rewrite Z.eqb_refl.
  - by rewrite Hcc.
  - apply big_endian_length.
Qed.

Lemma with_parser_settings tf st pl id ln ty ck dat :
  same_settings tf (with_parser tf st pl id ln ty ck dat).
Proof. by repeat split. Qed.

Lemma with_parser_tables tf st pl id ln ty ck dat :
  same_tables tf (with_parser tf st pl id ln ty ck dat).
Proof. by repeat split. Qed.

(** One sendable frame, read by a receiver that frames alike waiting in [sof]:
    one dispatch, of the message as sent, and the receiver waits in [sof]
    again. *)
Lemma accept_sent_frame_delivered run tx rx message :
  same_framing tx rx -> state rx = st_sof -> timeout_idle rx ->
  sendable tx message ->
  exists rx' d,
    accept run rx (frame_bytes tx message) = (rx', [d])
    /\ delivered d tx message
    /\ state rx' = st_sof
    /\ (keeps_settings run -> same_settings rx rx').
Proof.
  intros Hcfg Hst Hidle (Hw & Hmark & (c & Hc & Hfit) & Hne & Hbytes & Hrep).
  rewrite (accept_sent_frame run tx rx c) by done.
  set (mid := with_parser _ _ _ _ _ _ _ _).
  destruct (dispatch_and_reset_spec run mid) as (rx' & d & Heq & Hd & Hst').
  exists rx', d. split; [done|]. split; [|split; [done|]].
  - unfold delivered. rewrite Hd. unfold received_message, mid. cbn.
    by rewrite toUint8Array_bytes.
  - intros Hrun.
    pose proof (dispatch_and_reset_settings run Hrun mid) as Hs.
    rewrite Heq in Hs. cbn [fst] in Hs.
    eapply same_settings_trans; [apply with_parser_settings|exact Hs].
Qed.

(** X12.  Frames back to back.  A receiver waiting in [sof], whose listeners
    leave the settings alone, is fed the frames of any number of sendable
    messages, each built by a sender that frames like the receiver, one after
    the other in one byte stream: it dispatches one message per frame, in the
    order of the frames, each with the type, payload and stamped ID it was
    sent with, and ends waiting in [sof] with its settings as they were. *)
Theorem frames_back_to_back run frames : forall rx,
  keeps_settings run ->
  state rx = st_sof -> timeout_idle rx ->
  Forall (fun f => same_framing f.1 rx /\ sendable f.1 f.2) frames ->
  exists rx' ds,
    accept run rx (stream_bytes frames) = (rx', ds)
    /\ Forall2 (fun d f => delivered d f.1 f.2) ds frames
    /\ state rx' = st_sof
    /\ same_settings rx rx'.
Proof.
  induction frames as [|[tx message] frames IH]; intros rx Hrun Hst Hidle Hall.
  - exists rx, []. repeat split; done.
  - apply Forall_cons in Hall as [[Hcfg Hsend] Hall]. cbn [fst snd] in *.
    destruct (accept_sent_frame_delivered run tx rx message Hcfg Hst Hidle Hsend)
      as (rx1 & d & Heq1 & Hd & Hst1 & Hs1).
    specialize (Hs1 Hrun).
    destruct (IH rx1 Hrun Hst1) as (rx2 & ds & Heq2 & Hds & Hst2 & Hs2).
    { by eapply same_settings_idle. }
    { eapply Forall_impl; [exact Hall|]. intros f [Hf ?]. split; [|done].
      by eapply same_settings_framing. }
    exists rx2, (d :: ds). unfold stream_bytes. cbn [map concat fst snd].
    rewrite accept_app, Heq1. fold (stream_bytes frames). rewrite Heq2.
    split; [done|]. split; [by constructor|]. split; [done|].
    by eapply same_settings_trans.
Qed.

Lemma frames_back_to_back_witness :
  exists rx' ds,
    accept passive_run example_rx (stream_bytes example_stream) = (rx', ds)
    /\ Forall2 (fun d f => delivered d f.1 f.2) ds example_stream
    /\ state rx' = st_sof
    /\ same_settings example_rx rx'.
Proof.
  apply (frames_back_to_back passive_run example_stream example_rx).
  - intros listener tf message. apply same_settings_refl.
  - reflexivity.
  - exact I.
  - assert (Hx : exists c, Some xor8 = Some c /\ strategy_fits c)
      by (exists xor8; split; [reflexivity|apply xor8_fits]).
    apply Forall_cons; split; [|apply Forall_cons; split; [|constructor]].
    + split; [repeat split; reflexivity|].
      split; [repeat split; vm_compute; lia|]. split; [exact I|].
      split; [exact Hx|]. split; [discriminate|].
      split; [repeat constructor; vm_compute; congruence|].
      repeat split; vm_compute; reflexivity.
    + split; [repeat split; reflexivity|].
      split; [repeat split; vm_compute; lia|]. split; [exact I|].
      split; [exact Hx|]. split; [discriminate|].
      split; [repeat constructor; vm_compute; congruence|].
      repeat split; vm_compute; reflexivity.
Defined.

(** ** Frames the parser drops or never finishes *)

(** X13.  A damaged payload is dropped, and only it.  A receiver waiting in
    [sof] reads the head of a sendable message, then as many payload bytes
    as the head announces and a checksum field that does not match them: no
    message is dispatched, the parser waits in [sof] again, and settings and
    listener tables are untouched.  A sendable frame that follows on the
    same stream is dispatched as if nothing had come before it. *)
Theorem corrupted_payload_dropped run tx rx c message D KD :
  same_framing tx rx -> state rx = st_sof -> timeout_idle rx ->
  sendable tx message -> checksum tx = Some c ->
  length D = length (Message.data message) -> length KD = Checksum.size c ->
  read_cksum 0 KD <> Checksum.sum c D ->
  (exists rx',
     accept run rx ((composeHead tx message).2 ++ D ++ KD) = (rx', [])
     /\ state rx' = st_sof /\ same_settings rx rx' /\ same_tables rx rx')
  /\ forall tx2 message2,
       same_framing tx2 rx -> sendable tx2 message2 ->
       exists rx' d,
         accept run rx (((composeHead tx message).2 ++ D ++ KD)
                        ++ frame_bytes tx2 message2) = (rx', [d])
         /\ delivered d tx2 message2.
Proof.
  intros Hcfg Hst Hidle (Hw & Hmark & (c' & Hc' & Hfit) & Hne & Hbytes & Hrep)
    Hc HD HKD Hbad.
  assert (c' = c) as -> by congruence.
  pose proof Hcfg as (_ & _ & _ & _ & Hcc).
  pose proof Hfit as (Hsz & _).
  assert (HDne : D <> []).
  { apply nonempty_of_length. rewrite HD.
    destruct (Message.data message); [done|cbn; lia]. }
  assert (Hjunk : exists rx',
     accept run rx ((composeHead tx message).2 ++ D ++ KD) = (rx', [])
     /\ state rx' = st_sof /\ same_settings rx rx' /\ same_tables rx rx').
  { erewrite accept_app_quiet; [|by eapply accept_sent_header].
    rewrite <- HD.
    rewrite (accept_payload run rx c) by (done || by rewrite Hcc).
    destruct (Z.eqb_spec (Checksum.sum c D) (read_cksum 0 KD)); [congruence|].
    eexists. split; [reflexivity|]. split; [by destruct rx|].
    split; [apply with_parser_settings|apply with_parser_tables]. }
  split; [exact Hjunk|]. intros tx2 message2 Hcfg2 Hsend2.
  destruct Hjunk as (rx1 & Heq1 & Hst1 & Hs1 & _).
  rewrite (accept_app_quiet run rx rx1) by done.
  destruct (accept_sent_frame_delivered run tx2 rx1 message2)
    as (rx2 & d & Heq2 & Hd & _); [| | |done|by exists rx2, d].
  - by eapply same_settings_framing.
  - done.
  - by eapply same_settings_idle.
Qed.

Lemma corrupted_payload_dropped_witness :
  (exists rx',
     accept passive_run example_rx
       ((composeHead example_tx example_message).2 ++ [1; 2; 3; 4; 5; 6] ++ [0])
     = (rx', [])
     /\ state rx' = st_sof /\ same_settings example_rx rx'
     /\ same_tables example_rx rx')
  /\ forall tx2 message2,
       same_framing tx2 example_rx -> sendable tx2 message2 ->
       exists rx' d,
         accept passive_run example_rx
           (((composeHead example_tx example_message).2 ++ [1; 2; 3; 4; 5; 6] ++ [0])
            ++ frame_bytes tx2 message2) = (rx', [d])
         /\ delivered d tx2 message2.
Proof.
  apply (corrupted_payload_dropped passive_run example_tx example_rx xor8
           example_message [1; 2; 3; 4; 5; 6] [0]).
  - repeat split; reflexivity.
  - reflexivity.
  - exact I.
  - split; [repeat split; vm_compute; lia|]. split; [exact I|].
    split; [exists xor8; split; [reflexivity|apply xor8_fits]|].
    split; [discriminate|].
    split; [repeat constructor; vm_compute; congruence|].
    repeat split; vm_compute; reflexivity.
  - reflexivity.
  - reflexivity.
  - reflexivity.
  - vm_compute. discriminate.
Defined.

Lemma accept_data_stuck run tf cid ln ty ck bs : forall pl dat,
  timeout_idle tf -> ln <= Z.of_nat pl ->
  accept run (with_parser tf st_data pl cid ln ty ck dat) bs
  = (with_parser tf st_data (pl + length bs) cid ln ty ck (dat ++ bs), []).
Proof.
  induction bs as [|b bs IH]; intros pl dat Hidle Hln.
  - cbn [accept length]. by rewrite Nat.add_0_r, (right_id_L [] (++)).
  - erewrite accept_cons_quiet; last first.
    { rewrite (acceptByte_data run tf Hidle).
      destruct (Z.eqb_spec (Z.of_nat (S pl)) ln); [lia|reflexivity]. }
    rewrite IH by (done || lia). cbn [length].
    by rewrite <- (assoc_L (++)), Nat.add_succ_r.
Qed.

Lemma field_value_zero n : field_value n 0 = 0.
Proof. unfold field_value. change (ToUint32 0) with 0. by rewrite Zmod_0_l. Qed.

(** X14.  Without a checksum strategy an empty frame never ends.  The
    sender writes the head alone; the receiver, having read a length of 0,
    waits in [data] for a byte count that its counter has already passed.
    Whatever bytes follow, later frames included, are appended to the
    payload buffer and nothing is dispatched. *)
Theorem plain_empty_frame_never_ends run tx rx message more :
  same_framing tx rx -> state rx = st_sof -> timeout_idle rx ->
  widths_positive tx -> sof_is_byte tx ->
  checksum tx = None -> Message.data message = [] ->
  exists rx',
    accept run rx (frame_bytes tx message ++ more) = (rx', [])
    /\ state rx' = st_data
    /\ data rx' = frame_bytes tx message ++ more.
Proof.
  intros Hcfg Hst Hidle (Hi & Hl & Ht) Hmark Hc Hempty.
  pose proof Hcfg as (Hci & Hcl & Hct & Hcsof & Hcc).
  assert (Hmark' : sof_is_byte rx) by (unfold sof_is_byte in *; by rewrite Hcsof).
  unfold frame_bytes. rewrite (composeHead_bytes tx rx) by done.
  unfold cksum_bytes, payload_bytes. rewrite Hcc, Hc, Hempty.
  cbn [app length]. rewrite !(right_id_L [] (++)).
  erewrite accept_app_quiet; last first.
  { apply (accept_header run rx Hst Hidle Hmark');
      try apply big_endian_length;
      apply nonempty_of_length; rewrite big_endian_length; lia. }
  rewrite Hcc, Hc, !read_field_big_endian.
  change (Z.of_nat 0) with 0. rewrite (field_value_zero (lenSize rx)).
  rewrite accept_data_stuck by (done || (cbn; lia)).
  eexists. split; [reflexivity|]. split; by destruct rx.
Qed.

Lemma plain_empty_frame_never_ends_witness :
  exists rx',
    accept passive_run (set_checksum None example_rx)
      (frame_bytes (set_checksum None example_tx) (Message.new 258 [])
       ++ frame_bytes (set_checksum None example_tx) example_message) = (rx', [])
    /\ state rx' = st_data
    /\ data rx'
       = frame_bytes (set_checksum None example_tx) (Message.new 258 [])
         ++ frame_bytes (set_checksum None example_tx) example_message.
Proof.
  apply (plain_empty_frame_never_ends passive_run (set_checksum None example_tx)
           (set_checksum None example_rx) (Message.new 258 [])
           (frame_bytes (set_checksum None example_tx) example_message)).
  - repeat split; reflexivity.
  - reflexivity.
  - exact I.
  - repeat split; vm_compute; lia.
  - exact I.
  - reflexivity.
  - reflexivity.
Defined.

(** ** A query and its response *)

Lemma int32_range_div z : - 2 ^ 31 <= z < 2 ^ 31 <-> Z.shiftr z 31 = 0 \/ Z.shiftr z 31 = -1.
Proof.
  rewrite Z.shiftr_div_pow2 by lia.
  pose proof (Z.div_mod z (2 ^ 31)). pose proof (Z.mod_pos_bound z (2 ^ 31)). lia.
Qed.

Lemma int32_lor a b : ToInt32 (Z.lor (ToInt32 a) (ToInt32 b)) = Z.lor (ToInt32 a) (ToInt32 b).
Proof.
  apply ToInt32_small, int32_range_div. rewrite Z.shiftr_lor.
  destruct (proj1 (int32_range_div _) (ToInt32_range a)) as [-> | ->],
           (proj1 (int32_range_div _) (ToInt32_range b)) as [-> | ->]; auto.
Qed.

Lemma js_or_idemp a b : js_or (js_or a b) b = js_or a b.
Proof.
  unfold js_or. rewrite int32_lor.
  by rewrite <- Z.lor_assoc, Z.lor_diag.
Qed.

(** Stamping the peer bit twice is stamping it once. *)
Lemma peer_stamp_idemp tf id : peer_stamp tf (peer_stamp tf id) = peer_stamp tf id.
Proof. unfold peer_stamp. destruct (peer tf =? 1); [apply js_or_idemp|done]. Qed.

Lemma sendFrame_engine fuel tf message callback timeout :
  engine (sendFrame fuel tf message callback timeout)
  = match callback with
    | Some cb => addIDListener (stamped_id tf message) cb timeout (allocated tf message).2
    | None => (allocated tf message).2
    end.
Proof.
  rewrite stamped_id_spec. unfold sendFrame. rewrite composeHead_spec.
  cbv beta iota zeta.
  match goal with
  | |- context [write_loop ?a ?b ?c ?d ?e] => by destruct (write_loop a b c d e)
  end.
Qed.

(** The engine a [query] leaves behind: the parser and the settings that
    matter to it are as before, and the listener sits at the end of the ID
    table under the stamped ID. *)
Lemma query_engine fuel tf message listener timeout :
  let tf1 := engine (query fuel tf message listener timeout) in
  state tf1 = state tf
  /\ parserTimeout tf1 = parserTimeout tf
  /\ parserTimeoutTicks tf1 = parserTimeoutTicks tf
  /\ same_framing tf tf1
  /\ idListeners tf1
     = idListeners tf
       ++ [ {| IDListenerEntry.id := stamped_id tf message;
               IDListenerEntry.callback := listener;
               IDListenerEntry.timeout := timeout;
               IDListenerEntry.maxTimeout := timeout |} ]
  /\ typeListeners tf1 = typeListeners tf
  /\ genericListeners tf1 = genericListeners tf.
Proof.
  cbv zeta. unfold query. rewrite sendFrame_engine.
  generalize (stamped_id tf message). intros x.
  unfold allocated, getNextID, addIDListener, same_framing.
  destruct (Message.isResponse message); destruct tf; repeat split; reflexivity.
Qed.

Lemma handleReceived_dispatched run tf :
  dispatched (handleReceived run tf).2 = received_message tf.
Proof. reflexivity. Qed.

(** The calls of one dispatch, in order: matching ID listeners, matching
    type listeners, generic listeners. *)
Lemma handleReceived_calls run tf :
  leaves_dispatch_alone run ->
  map fst (invoked (handleReceived run tf).2)
  = map IDListenerEntry.callback
      (filter (fun e => IDListenerEntry.id e = currentID tf) (idListeners tf))
    ++ map TypedListenerEntry.callback
         (filter (fun e => TypedListenerEntry.type e = currentType tf)
            (typeListeners tf))
    ++ genericListeners tf.
Proof.
  intros Hrun. unfold handleReceived. cbv zeta. cbn [snd invoked fst].
  set (st0 := (tf, _, []) : DispatchState).
  destruct (notify_id_loop run Hrun (idListeners tf) st0) as [H1 L1].
  set (st1 := foldl (notify_id run) st0 (idListeners tf)) in *.
  destruct (notify_type_loop run Hrun (typeListeners st1.1.1) st1) as [H2 L2].
  set (st2 := foldl (notify_type run) st1 (typeListeners st1.1.1)) in *.
  destruct (notify_generic_loop run Hrun (genericListeners st2.1.1) st2) as [H3 L3].
  rewrite L3, L2, L1.
  destruct H1 as (T1 & G1 & F1 & Y1). destruct H2 as (T2 & G2 & F2 & Y2).
  rewrite G2, G1, T1, Y1. cbn. by rewrite <- (assoc_L (++)).
Qed.

(** X15.  Whether a response finds the listener of its query.  [A], waiting
    in [sof] with its timeout not passed, sends a query; its listener is
    registered under the stamped request ID.  [B] frames like [A], with an ID
    field of one to four bytes, and answers with a response built by
    [createResponse] from a message carrying that ID; the response is
    sendable (an active, fitting checksum strategy, positive widths, a
    byte-valued marker, a non-empty payload of bytes, and ID, length and
    type that fit their fields).  The listeners leave the type and generic
    tables and the message's ID and type alone while a frame is dispatched.
    Then [A], reading the response frame, dispatches one message, whose ID is
    the request ID stamped once more by [B].  If [B] is not peer 1, or [A]
    is peer 1 too, that is the request ID and the query's listener is
    called.  If [B] is peer 1 and the request ID does not have the peer bit
    (as for a peer-0 [A] whose counter is below the bit), the ID has changed
    on the way back: a listener registered nowhere else in [A] is not
    called. *)
Theorem response_reaches_query_listener run A B request listener timeout fuel
    received payload :
  leaves_dispatch_alone run ->
  state A = st_sof -> timeout_idle A ->
  same_framing B A -> (1 <= idSize A <= 4)%nat ->
  Message.frameID received = stamped_id A request ->
  sendable B (Message.createResponse received payload) ->
  exists A2 d,
    accept run (engine (query fuel A request listener timeout))
      (frame_bytes B (Message.createResponse received payload)) = (A2, [d])
    /\ Message.frameID (dispatched d) = peer_stamp B (stamped_id A request)
    /\ (peer B <> 1 \/ peer A = 1 -> listener ∈ map fst (invoked d))
    /\ (peer B = 1 ->
        Z.testbit (stamped_id A request) (Z.of_nat (idSize A) * 8 - 1) = false ->
        unregistered listener A ->
        listener ∉ map fst (invoked d)).
Proof.
  intros Hrun Hst Hidle Hfr Hk Hrecv Hsend.
  set (response := Message.createResponse received payload) in *.
  set (x := stamped_id A request) in *.
  destruct (query_engine fuel A request listener timeout)
    as (Qst & Qpt & Qptt & Qfr & Qid & Qty & Qg).
  set (A1 := engine (query fuel A request listener timeout)) in *.
  fold x in Qid.
  assert (Hy : stamped_id B response = peer_stamp B x).
  { rewrite stamped_id_spec. unfold allocated, response. cbn. by rewrite Hrecv. }
  assert (Hfr1 : same_framing B A1).
  { destruct Hfr as (?&?&?&?&?), Qfr as (?&?&?&?&?). repeat split; congruence. }
  assert (Hidle1 : timeout_idle A1).
  { unfold timeout_idle in *. by rewrite Qpt, Qptt. }
  destruct Hsend as (Hw & Hmark & (c & Hc & Hfit) & Hne & Hbytes & Hrep).
  rewrite (accept_sent_frame run B A1 c) by (done || congruence).
  rewrite Hy.
  set (mid := with_parser A1 _ _ _ _ _ _ _).
  pose proof (handleReceived_calls run mid Hrun) as Hcalls.
  pose proof (handleReceived_dispatched run mid) as Hdisp.
  unfold dispatch_and_reset.
  destruct (handleReceived run mid) as [A2 d]. cbn [snd] in Hcalls, Hdisp.
  assert (Hmid : idListeners mid = idListeners A1 /\ typeListeners mid = typeListeners A1
                 /\ genericListeners mid = genericListeners A1 /\
                 currentID mid = peer_stamp B x) by (unfold mid; by destruct A1).
  destruct Hmid as (Mi & Mt & Mg & Mc).
  rewrite Mi, Mt, Mg, Mc, Qid, Qty, Qg in Hcalls.
  exists (resetParser A2), d. split; [done|]. split; [by rewrite Hdisp|]. split.
  - intros Hpeer.
    assert (Hsame : peer_stamp B x = x).
    { destruct Hpeer as [HB | HA].
      - unfold peer_stamp. by destruct (Z.eqb_spec (peer B) 1).
      - unfold x. rewrite stamped_id_spec.
        destruct Hfr as (Hi & _).
        unfold peer_stamp. rewrite HA, Hi. cbn [Z.eqb Pos.eqb].
        destruct (peer B =? 1); [apply js_or_idemp|done]. }
    rewrite Hcalls, Hsame, filter_app, map_app.
    apply elem_of_app. left. apply elem_of_app. right.
    rewrite filter_cons, decide_True by done. cbn. by left.
  - intros HB Hbit (Ui & Ut & Ug) Hin.
    assert (Hdiff : peer_stamp B x <> x).
    { intros Heq. destruct Hfr as (Hi & _).
      assert (Z.testbit (peer_stamp B x) (Z.of_nat (idSize A) * 8 - 1) = true) as Hset.
      { unfold peer_stamp. rewrite HB, <- Hi. cbn [Z.eqb Pos.eqb].
        by apply peer_bit_set. }
      rewrite Heq in Hset. congruence. }
    rewrite Hcalls, filter_app, map_app in Hin.
    rewrite filter_cons, decide_False in Hin by (cbn; congruence).
    rewrite filter_nil in Hin. cbn [map] in Hin. rewrite (right_id_L [] (++)) in Hin.
    apply elem_of_app in Hin as [Hin | Hin]; [|apply elem_of_app in Hin as [Hin | Hin]].
    + apply list_elem_of_In, in_map_iff in Hin as (e & He & Hin).
      apply list_elem_of_In, list_elem_of_filter in Hin as [_ Hin].
      rewrite Forall_forall in Ui. by apply (Ui e).
    + apply list_elem_of_In, in_map_iff in Hin as (e & He & Hin).
      apply list_elem_of_In, list_elem_of_filter in Hin as [_ Hin].
      rewrite Forall_forall in Ut. by apply (Ut e).
    + done.
Qed.

Lemma response_reaches_query_listener_witness :
  exists A2 d,
    accept passive_run (engine (query 64 example_master example_message 40%nat (Some 5)))
      (frame_bytes example_tx example_answer) = (A2, [d])
    /\ Message.frameID (dispatched d)
       = peer_stamp example_tx (stamped_id example_master example_message)
    /\ (peer example_tx <> 1 \/ peer example_master = 1 ->
        40%nat ∈ map fst (invoked d))
    /\ (peer example_tx = 1 ->
        Z.testbit (stamped_id example_master example_message)
          (Z.of_nat (idSize example_master) * 8 - 1) = false ->
        unregistered 40%nat example_master ->
        40%nat ∉ map fst (invoked d)).
Proof.
  apply (response_reaches_query_listener passive_run example_master example_tx
           example_message 40%nat (Some 5) 64 example_request_received [9]).
  - intros listener tf message. by repeat split.
  - reflexivity.
  - exact I.
  - repeat split; reflexivity.
  - vm_compute. lia.
  - reflexivity.
  - split; [repeat split; vm_compute; lia|]. split; [exact I|].
    split; [exists xor8; split; [reflexivity|apply xor8_fits]|].
    split; [discriminate|].
    split; [repeat constructor; vm_compute; congruence|].
    repeat split; vm_compute; reflexivity.
Defined.

(** The example written out: the master's query goes out under ID 0, the
    slave's response comes back under ID [-2^31] (the peer bit, read as a
    signed 32-bit number), and the listener of the query is not called. *)
Example master_query_unanswered :
  let A1 := engine (query 64 example_master example_message 40%nat (Some 5)) in
  stamped_id example_master example_message = 0
  /\ map (fun d => (Message.frameID (dispatched d), map fst (invoked d)))
       (accept passive_run A1 (frame_bytes example_tx example_answer)).2
     = [(- 2 ^ 31, [])].
Proof. cbv zeta. split; by vm_compute. Qed.

(** ** The two peers' frame IDs *)

Lemma testbit_below (n m : Z) : 0 <= m -> 0 <= n < 2 ^ m -> Z.testbit n m = false.
Proof.
  intros Hm Hn. apply Z.testbit_false; [done|].
  by rewrite Z.div_small.
Qed.

(** X16.  The peer bit keeps the two sides' frame IDs apart.  An engine
    that is not peer 1 and one that is, with the same ID width of one to
    four bytes, each compose the head of a message of their own, the first
    not a response: as long as the counter of the first is below
    [2^(8 * idSize - 1)], the stamped IDs differ, and so do the ID fields of
    the two heads that [composeHead] returns (the [idSize] bytes after the
    start-of-frame byte, if any): the first byte of the one has its top bit
    clear, the first byte of the other has it set. *)
Theorem peer_ids_disjoint A B messageA messageB :
  peer A <> 1 -> peer B = 1 ->
  idSize B = idSize A -> (1 <= idSize A <= 4)%nat ->
  Message.isResponse messageA = false ->
  0 <= nextID A < 2 ^ (Z.of_nat (idSize A) * 8 - 1) ->
  let fieldA :=
    take (idSize A) (drop (length (sof_bytes A)) (composeHead A messageA).2) in
  let fieldB :=
    take (idSize B) (drop (length (sof_bytes B)) (composeHead B messageB).2) in
  Message.frameID (composeHead A messageA).1.2 = nextID A
  /\ Message.frameID (composeHead A messageA).1.2
     <> Message.frameID (composeHead B messageB).1.2
  /\ fieldA <> fieldB
  /\ exists a b restA restB,
       fieldA = a :: restA /\ fieldB = b :: restB
       /\ Z.testbit a 7 = false /\ Z.testbit b 7 = true.
Proof.
  intros HA HB Hsize Hk Hresp Hn. cbv zeta.
  rewrite !composeHead_id_field.
  change (Message.frameID (composeHead A messageA).1.2) with (stamped_id A messageA).
  change (Message.frameID (composeHead B messageB).1.2) with (stamped_id B messageB).
  assert (Hx : stamped_id A messageA = nextID A).
  { rewrite stamped_id_spec. unfold allocated, peer_stamp. rewrite Hresp.
    by destruct (Z.eqb_spec (peer A) 1). }
  assert (Hclear : Z.testbit (stamped_id A messageA) (Z.of_nat (idSize A) * 8 - 1) = false).
  { rewrite Hx. apply testbit_below; lia. }
  assert (Hset : Z.testbit (stamped_id B messageB) (Z.of_nat (idSize A) * 8 - 1) = true).
  { rewrite stamped_id_spec. unfold peer_stamp. rewrite HB, Hsize. cbn [Z.eqb Pos.eqb].
    by apply peer_bit_set. }
  split; [done|]. split; [intros Heq; rewrite Heq in Hclear; congruence|].
  rewrite Hsize.
  destruct (big_endian_first_byte (idSize A) (stamped_id A messageA) Hk)
    as (a & resta & -> & Ha).
  destruct (big_endian_first_byte (idSize A) (stamped_id B messageB) Hk)
    as (b & restb & -> & Hb).
  split.
  - intros Heq. inversion Heq; subst. congruence.
  - exists a, b, resta, restb. repeat split; congruence.
Qed.

Lemma peer_ids_disjoint_witness :
  let fieldA :=
    take (idSize example_master)
      (drop (length (sof_bytes example_master))
         (composeHead example_master example_message).2) in
  let fieldB :=
    take (idSize example_tx)
      (drop (length (sof_bytes example_tx))
         (composeHead example_tx example_message).2) in
  Message.frameID (composeHead example_master example_message).1.2
  = nextID example_master
  /\ Message.frameID (composeHead example_master example_message).1.2
     <> Message.frameID (composeHead example_tx example_message).1.2
  /\ fieldA <> fieldB
  /\ exists a b restA restB,
       fieldA = a :: restA /\ fieldB = b :: restB
       /\ Z.testbit a 7 = false /\ Z.testbit b 7 = true.
Proof.
  apply (peer_ids_disjoint example_master example_tx example_message example_message).
  - vm_compute. discriminate.
  - reflexivity.
  - reflexivity.
  - vm_compute. lia.
  - reflexivity.
  - vm_compute. split; congruence.
Defined.

(** The bound is needed: a peer-0 counter that has reached the bit writes
    the ID field that the peer-1 side writes for its first frame. *)
Example peer_ids_collide_at_the_bit :
  take 4 (composeHead (set_nextID (2 ^ 31) example_master) example_message).2
  = take 4 (composeHead example_tx example_message).2.
Proof. by vm_compute. Qed.
